(** * The milestone solidifier of the tangle plugin

    A shallow embedding of [plugins/tangle/solidifier.go]: the check of a
    single transaction ([checkSolidity]), the walk over the cone of a
    milestone ([solidQueueCheck]), the search for milestones that were
    missed ([searchMissingMilestone]) and the entry point
    ([solidifyMilestone]), followed by the properties proved of them. *)

From stdpp Require Import gmap gmultiset strings list fin_maps fin_sets relations.

#[local] Set Warnings "-clear-no-such-hyp".

(** ** Data model *)

(** [trinary.Hash] is a Go string. *)
Abbreviation Hash := string.

(** Modelled from the spec: the type [milestone_index.MilestoneIndex]
    (its package is not part of the sources) is a non-negative integer,
    0 standing for "no milestone". *)
Abbreviation MilestoneIndex := N.

(** What the solidifier reads of a transaction.  The hash is the key under
    which the cache holds the transaction. *)
Record Transaction : Type := {
  txTrunk  : Hash;
  txBranch : Hash;
  txIsTail : bool;
  txBundle : Hash;
  txSolid  : bool;
}.

(** [SetSolid(true)] *)
Definition txSetSolid (tx : Transaction) : Transaction :=
  {| txTrunk := txTrunk tx; txBranch := txBranch tx; txIsTail := txIsTail tx;
     txBundle := txBundle tx; txSolid := true |}.

(** What [searchMissingMilestone] reads of the bundle of a tail: the
    boolean [tangle.CheckIfMilestone] returns (its error is only logged) and
    [GetMilestoneIndex]. *)
Record Bundle : Type := {
  bundleIsMilestone : bool;
  bundleIndex       : MilestoneIndex;
}.

(** Calls that leave the solidifier, in the order they are made
    (the trace of a world holds the latest call first). *)
Inductive Event : Type :=
| EvTransactionSolid (h : Hash)
| EvRequestMulti (hs : list Hash) (ms : MilestoneIndex)
| EvFutureConeSubmit (h : Hash)
| EvCheckIfMilestone (tail : Hash)
| EvProcessValidMilestone (tail : Hash) (ms : MilestoneIndex)
| EvAbortSignal
| EvLock
| EvUnlock
| EvConfirmMilestone (ms : MilestoneIndex) (tail : Hash)
| EvStoreMilestone (ms : MilestoneIndex)
| EvSolidMilestoneChanged (ms : MilestoneIndex)
| EvTrySubmit (ms : MilestoneIndex).

(** The state the solidifier works on: the [tangle] package's cache and
    milestone data, and the package-level variables of the file. *)
Record World : Type := {
  store            : gmap Hash Transaction;      (* transaction cache *)
  solidEntryPoints : gset Hash;                  (* SolidEntryPointsContain *)
  consumers        : gmultiset Hash;             (* handles not yet released *)
  approversCache   : gmap Hash (gset Hash);      (* tangle.GetApprovers *)
  nodeSynced       : bool;                       (* tangle.IsNodeSynced *)
  maybeMilestones  : gset Hash;                  (* tangle.IsMaybeMilestone *)
  bundleBuckets    : gmap Hash (gmap Hash Bundle); (* bundle hash, then tail hash *)
  milestones       : gmap N Hash;                (* known milestones: index to tail *)
  solidMilestoneIndex  : MilestoneIndex;         (* tangle.GetSolidMilestoneIndex *)
  latestMilestoneIndex : MilestoneIndex;         (* tangle.GetLatestMilestoneIndex *)
  solidifierMilestoneIndex : MilestoneIndex;     (* the variable of the same name *)
  signalChan       : bool;                       (* signalChanMilestoneStopSolidification != nil *)
  solidifierLocked : bool;                       (* solidifierLock is held *)
  trace            : list Event;
}.

Definition setStore (s : gmap Hash Transaction) (w : World) : World :=
  {| store := s; solidEntryPoints := solidEntryPoints w; consumers := consumers w;
     approversCache := approversCache w; nodeSynced := nodeSynced w;
     maybeMilestones := maybeMilestones w; bundleBuckets := bundleBuckets w;
     milestones := milestones w; solidMilestoneIndex := solidMilestoneIndex w;
     latestMilestoneIndex := latestMilestoneIndex w;
     solidifierMilestoneIndex := solidifierMilestoneIndex w;
     signalChan := signalChan w; solidifierLocked := solidifierLocked w;
     trace := trace w |}.

Definition setConsumers (c : gmultiset Hash) (w : World) : World :=
  {| store := store w; solidEntryPoints := solidEntryPoints w; consumers := c;
     approversCache := approversCache w; nodeSynced := nodeSynced w;
     maybeMilestones := maybeMilestones w; bundleBuckets := bundleBuckets w;
     milestones := milestones w; solidMilestoneIndex := solidMilestoneIndex w;
     latestMilestoneIndex := latestMilestoneIndex w;
     solidifierMilestoneIndex := solidifierMilestoneIndex w;
     signalChan := signalChan w; solidifierLocked := solidifierLocked w;
     trace := trace w |}.

Definition setApproversCache (a : gmap Hash (gset Hash)) (w : World) : World :=
  {| store := store w; solidEntryPoints := solidEntryPoints w; consumers := consumers w;
     approversCache := a; nodeSynced := nodeSynced w;
     maybeMilestones := maybeMilestones w; bundleBuckets := bundleBuckets w;
     milestones := milestones w; solidMilestoneIndex := solidMilestoneIndex w;
     latestMilestoneIndex := latestMilestoneIndex w;
     solidifierMilestoneIndex := solidifierMilestoneIndex w;
     signalChan := signalChan w; solidifierLocked := solidifierLocked w;
     trace := trace w |}.

Definition setMilestones (m : gmap N Hash) (w : World) : World :=
  {| store := store w; solidEntryPoints := solidEntryPoints w; consumers := consumers w;
     approversCache := approversCache w; nodeSynced := nodeSynced w;
     maybeMilestones := maybeMilestones w; bundleBuckets := bundleBuckets w;
     milestones := m; solidMilestoneIndex := solidMilestoneIndex w;
     latestMilestoneIndex := latestMilestoneIndex w;
     solidifierMilestoneIndex := solidifierMilestoneIndex w;
     signalChan := signalChan w; solidifierLocked := solidifierLocked w;
     trace := trace w |}.

Definition setSolidMilestoneIndex (i : MilestoneIndex) (w : World) : World :=
  {| store := store w; solidEntryPoints := solidEntryPoints w; consumers := consumers w;
     approversCache := approversCache w; nodeSynced := nodeSynced w;
     maybeMilestones := maybeMilestones w; bundleBuckets := bundleBuckets w;
     milestones := milestones w; solidMilestoneIndex := i;
     latestMilestoneIndex := latestMilestoneIndex w;
     solidifierMilestoneIndex := solidifierMilestoneIndex w;
     signalChan := signalChan w; solidifierLocked := solidifierLocked w;
     trace := trace w |}.

(** [setSolidifierMilestoneIndex] *)
Definition setSolidifierMilestoneIndex (i : MilestoneIndex) (w : World) : World :=
  {| store := store w; solidEntryPoints := solidEntryPoints w; consumers := consumers w;
     approversCache := approversCache w; nodeSynced := nodeSynced w;
     maybeMilestones := maybeMilestones w; bundleBuckets := bundleBuckets w;
     milestones := milestones w; solidMilestoneIndex := solidMilestoneIndex w;
     latestMilestoneIndex := latestMilestoneIndex w;
     solidifierMilestoneIndex := i;
     signalChan := signalChan w; solidifierLocked := solidifierLocked w;
     trace := trace w |}.

(** [GetSolidifierMilestoneIndex] *)
Definition GetSolidifierMilestoneIndex (w : World) : MilestoneIndex :=
  solidifierMilestoneIndex w.

Definition setSignalChan (b : bool) (w : World) : World :=
  {| store := store w; solidEntryPoints := solidEntryPoints w; consumers := consumers w;
     approversCache := approversCache w; nodeSynced := nodeSynced w;
     maybeMilestones := maybeMilestones w; bundleBuckets := bundleBuckets w;
     milestones := milestones w; solidMilestoneIndex := solidMilestoneIndex w;
     latestMilestoneIndex := latestMilestoneIndex w;
     solidifierMilestoneIndex := solidifierMilestoneIndex w;
     signalChan := b; solidifierLocked := solidifierLocked w;
     trace := trace w |}.

Definition setSolidifierLocked (b : bool) (w : World) : World :=
  {| store := store w; solidEntryPoints := solidEntryPoints w; consumers := consumers w;
     approversCache := approversCache w; nodeSynced := nodeSynced w;
     maybeMilestones := maybeMilestones w; bundleBuckets := bundleBuckets w;
     milestones := milestones w; solidMilestoneIndex := solidMilestoneIndex w;
     latestMilestoneIndex := latestMilestoneIndex w;
     solidifierMilestoneIndex := solidifierMilestoneIndex w;
     signalChan := signalChan w; solidifierLocked := b;
     trace := trace w |}.

Definition setTrace (t : list Event) (w : World) : World :=
  {| store := store w; solidEntryPoints := solidEntryPoints w; consumers := consumers w;
     approversCache := approversCache w; nodeSynced := nodeSynced w;
     maybeMilestones := maybeMilestones w; bundleBuckets := bundleBuckets w;
     milestones := milestones w; solidMilestoneIndex := solidMilestoneIndex w;
     latestMilestoneIndex := latestMilestoneIndex w;
     solidifierMilestoneIndex := solidifierMilestoneIndex w;
     signalChan := signalChan w; solidifierLocked := solidifierLocked w;
     trace := t |}.

Definition emit (e : Event) (w : World) : World := setTrace (e :: trace w) w.

(** Taking a handle ([GetCachedTransaction], [RegisterConsumer], [GetTail])
    and giving it back ([Release]).  A handle is taken of a hash whether the
    cache holds a transaction for it or not. *)
Definition acquire (h : Hash) (w : World) : World :=
  setConsumers (consumers w ⊎ {[+ h +]}) w.

Definition release (h : Hash) (w : World) : World :=
  setConsumers (consumers w ∖ {[+ h +]}) w.

(** The reference count of the handle of [h]. *)
Definition refCount (w : World) (h : Hash) : nat := multiplicity h (consumers w).

(** [Exists() && GetTransaction().IsSolid()] of the handle of [h] *)
Definition cachedSolid (w : World) (h : Hash) : bool :=
  match store w !! h with
  | Some tx => txSolid tx
  | None => false
  end.

(** [GetTransaction().SetSolid(true)] on the handle of [h] *)
Definition setSolid (h : Hash) (w : World) : World :=
  setStore (alter txSetSolid h (store w)) w.

(** [approveeApprovers.Add(approver)] on [tangle.GetApprovers(approvee)] *)
Definition addApprover (approvee approver : Hash) (w : World) : World :=
  setApproversCache
    (<[approvee := {[approver]} ∪ default ∅ (approversCache w !! approvee)]>
       (approversCache w)) w.

(** How a call ends.  [OutOfFuel] is not an end of the program: it says
    that the bound on the number of loop iterations given to the model was
    too small. *)
Inductive Outcome (A : Type) : Type :=
| Returned (a : A) (w : World)
| Panicked (w : World)
| Blocked (w : World)
| OutOfFuel.
Arguments Returned {A} a w.
Arguments Panicked {A} w.
Arguments Blocked {A} w.
Arguments OutOfFuel {A}.

(** ** checkSolidity *)

(** The trunk, and the branch when it differs from the trunk. *)
Definition approveeHashes (tx : Transaction) : list Hash :=
  txTrunk tx :: (if decide (txTrunk tx = txBranch tx) then [] else [txBranch tx]).

(** The loop over the approvees: the result is [isSolid]. *)
Fixpoint approveesSolid (w : World) (self : Hash) (addToApproversCache : bool)
    (hs : list Hash) : World * bool :=
  match hs with
  | [] => (w, true)
  | approveeHash :: rest =>
      if decide (approveeHash ∈ solidEntryPoints w)
      then approveesSolid w self addToApproversCache rest
      else
        let w1 := acquire approveeHash w in
        if cachedSolid w1 approveeHash
        then approveesSolid (release approveeHash w1) self addToApproversCache rest
        else
          let w2 := if addToApproversCache then addApprover approveeHash self w1 else w1 in
          (release approveeHash w2, false)
  end.

(** [checkSolidity] of the handle of [h].  The handle of a hash the cache
    does not hold has no transaction: reading it is a nil dereference, and
    the deferred [Release] runs while the panic unwinds the call. *)
Definition checkSolidity (w : World) (h : Hash) (addToApproversCache : bool)
    : Outcome (bool * bool) :=
  let w0 := acquire h w in
  match store w0 !! h with
  | None => Panicked (release h w0)
  | Some tx =>
      if txSolid tx then Returned (true, false) (release h w0)
      else
        let '(w1, isSolid) := approveesSolid w0 h addToApproversCache (approveeHashes tx) in
        let w2 := if isSolid then emit (EvTransactionSolid h) (setSolid h w1) else w1 in
        Returned (isSolid, isSolid) (release h w2)
  end.

(** ** Ranging over a Go map that the loop body changes

    A [range] over a map yields the keys in an order that is not
    specified; a key deleted before it is reached is not yielded, and a key
    created while the loop runs is yielded later by the same loop or is
    skipped.  The model leaves these choices, and the moment at which the
    abort channel is found closed, to an oracle that is asked once per
    iteration of a loop, the iterations being numbered as they start. *)
Record Oracle : Type := {
  orderOf     : nat → nat;         (* which of the keys still to yield comes next *)
  yieldsNew   : nat → Hash → bool; (* is a key created in this iteration yielded later *)
  abortClosed : nat → bool;        (* does [<-abortSignal] succeed in this iteration *)
}.

(** The key the oracle's number selects among the keys still to yield. *)
Definition pick (n : nat) (cur : gset Hash) : option Hash :=
  elements cur !! (n mod length (elements cur)).

(** Adding the keys [new] to the map with keys [m] while a [range] with the
    keys [cur] still to yield runs over it. *)
Definition rangeInsert (yield : Hash → bool) (new m cur : gset Hash)
    : gset Hash * gset Hash :=
  (new ∪ m, cur ∪ filter (λ h, yield h = true) (new ∖ m)).

(** ** solidQueueCheck *)

(** The local variables of [solidQueueCheck], the keys the running [range]
    has still to yield ([cursor], empty between two [range] statements) and
    the number of iterations started so far ([tick]). *)
Record Walk : Type := {
  txsChecked      : gmap Hash bool;
  txsToTraverse   : gset Hash;
  approvers       : gmap Hash (gset Hash);
  entryTxs        : gset Hash;
  txsToRequest    : gset Hash;
  newSolidTxFound : bool;
  loopCnt         : nat;
  cursor          : gset Hash;
  tick            : nat;
}.

(** [registerApproverOfApprovee] *)
Definition registerApproverOfApprovee (approver approveeHash : Hash)
    (approvers : gmap Hash (gset Hash)) : gmap Hash (gset Hash) :=
  <[approveeHash := {[approver]} ∪ default ∅ (approvers !! approveeHash)]> approvers.

(** The body of the loop over the approvees of [txHash] in the first phase;
    the boolean is [isEntryTx]. *)
Definition collectApprovee (o : Oracle) (txHash : Hash)
    (acc : World * Walk * bool) (approveeHash : Hash) : World * Walk * bool :=
  let '(w, k, isEntryTx) := acc in
  if decide (approveeHash ∈ solidEntryPoints w) then acc
  else
    let apprs := registerApproverOfApprovee txHash approveeHash (approvers k) in
    match txsChecked k !! approveeHash with
    | Some isSolid =>
        (w,
         {| txsChecked := txsChecked k; txsToTraverse := txsToTraverse k;
            approvers := apprs; entryTxs := entryTxs k;
            txsToRequest := txsToRequest k; newSolidTxFound := newSolidTxFound k;
            loopCnt := loopCnt k; cursor := cursor k; tick := tick k |},
         isSolid && isEntryTx)
    | None =>
        let w1 := acquire approveeHash w in
        match store w1 !! approveeHash with
        | None =>
            (release approveeHash w1,
             {| txsChecked := <[approveeHash := false]> (txsChecked k);
                txsToTraverse := txsToTraverse k;
                approvers := apprs; entryTxs := entryTxs k;
                txsToRequest := {[approveeHash]} ∪ txsToRequest k;
                newSolidTxFound := newSolidTxFound k;
                loopCnt := loopCnt k; cursor := cursor k; tick := tick k |},
             false)
        | Some approveeTx =>
            if txSolid approveeTx
            then
              (release approveeHash w1,
               {| txsChecked := <[approveeHash := true]> (txsChecked k);
                  txsToTraverse := txsToTraverse k;
                  approvers := apprs; entryTxs := entryTxs k;
                  txsToRequest := txsToRequest k;
                  newSolidTxFound := newSolidTxFound k;
                  loopCnt := loopCnt k; cursor := cursor k; tick := tick k |},
               isEntryTx)
            else
              let '(m, cur) := rangeInsert (yieldsNew o (tick k)) {[approveeHash]}
                                 (txsToTraverse k) (cursor k) in
              (release approveeHash w1,
               {| txsChecked := <[approveeHash := false]> (txsChecked k);
                  txsToTraverse := m;
                  approvers := apprs; entryTxs := entryTxs k;
                  txsToRequest := txsToRequest k;
                  newSolidTxFound := newSolidTxFound k;
                  loopCnt := loopCnt k; cursor := cur; tick := tick k |},
               false)
        end
    end.

(** What one turn of a loop leads to: the next iteration, the end of the
    loop, or the end of the function. *)
Inductive Step (K : Type) : Type :=
| Next (w : World) (k : K)
| Exit (w : World) (k : K)
| Halt (r : Outcome (bool * bool)).
Arguments Next {K} w k.
Arguments Exit {K} w k.
Arguments Halt {K} r.

(** One iteration of the first phase: the loops
    [for len(txsToTraverse) != 0] and [for txHash := range txsToTraverse].
    When the running [range] has nothing left to yield, the outer loop
    tests the map and starts a new [range] over it. *)
Definition collectStep (o : Oracle) (w : World) (k : Walk) : Step Walk :=
  let cur := if decide (cursor k = ∅) then txsToTraverse k else cursor k in
  match pick (orderOf o (tick k)) cur with
  | None => Exit w k
  | Some txHash =>
      if abortClosed o (tick k) then Halt (Returned (false, true) w)
      else
        let k1 :=
          {| txsChecked := txsChecked k;
             txsToTraverse := txsToTraverse k ∖ {[txHash]};
             approvers := approvers k; entryTxs := entryTxs k;
             txsToRequest := txsToRequest k;
             newSolidTxFound := newSolidTxFound k;
             loopCnt := loopCnt k; cursor := cur ∖ {[txHash]}; tick := tick k |} in
        let w1 := acquire txHash w in
        match store w1 !! txHash with
        | None => Halt (Panicked w1)
        | Some tx =>
            let '(w2, k2, isEntryTx) :=
              foldl (collectApprovee o txHash) (w1, k1, true) (approveeHashes tx) in
            Next (release txHash w2)
              {| txsChecked := txsChecked k2; txsToTraverse := txsToTraverse k2;
                 approvers := approvers k2;
                 entryTxs := if isEntryTx then {[txHash]} ∪ entryTxs k2 else entryTxs k2;
                 txsToRequest := txsToRequest k2;
                 newSolidTxFound := newSolidTxFound k2;
                 loopCnt := loopCnt k2; cursor := cursor k2; tick := S (tick k2) |}
        end
  end.

(** One iteration of [for entryTxHash := range entryTxs] in the second
    phase. *)
Definition propagateVisit (o : Oracle) (w : World) (k : Walk) : Step Walk :=
  match pick (orderOf o (tick k)) (cursor k) with
  | None => Exit w k
  | Some entryTxHash =>
      if abortClosed o (tick k) then Halt (Returned (false, true) w)
      else
        let w1 := acquire entryTxHash w in
        match store w1 !! entryTxHash with
        | None => Halt (Panicked w1)
        | Some _ =>
            match checkSolidity w1 entryTxHash false with
            | Returned (solid, newlySolid) w2 =>
                if solid then
                  let '(m, cur) :=
                    rangeInsert (yieldsNew o (tick k))
                      (default ∅ (approvers k !! entryTxHash))
                      (entryTxs k) (cursor k ∖ {[entryTxHash]}) in
                  let w3 :=
                    if newlySolid && nodeSynced w2
                    then emit (EvFutureConeSubmit entryTxHash) (acquire entryTxHash w2)
                    else w2 in
                  Next (release entryTxHash w3)
                    {| txsChecked := txsChecked k; txsToTraverse := txsToTraverse k;
                       approvers := approvers k;
                       entryTxs := m ∖ {[entryTxHash]};
                       txsToRequest := txsToRequest k;
                       newSolidTxFound := true;
                       loopCnt := loopCnt k;
                       cursor := cur ∖ {[entryTxHash]}; tick := S (tick k) |}
                else
                  Next (release entryTxHash w2)
                    {| txsChecked := txsChecked k; txsToTraverse := txsToTraverse k;
                       approvers := approvers k; entryTxs := entryTxs k;
                       txsToRequest := txsToRequest k;
                       newSolidTxFound := newSolidTxFound k;
                       loopCnt := loopCnt k;
                       cursor := cursor k ∖ {[entryTxHash]}; tick := S (tick k) |}
            | Panicked w2 => Halt (Panicked w2)
            | Blocked w2 => Halt (Blocked w2)
            | OutOfFuel => Halt OutOfFuel
            end
        end
  end.

(** One turn of the second phase: an iteration of the running [range], or,
    when it has nothing left to yield, the test of [for newSolidTxFound]
    and the first iteration of a new [range] over [entryTxs]. *)
Definition propagateStep (o : Oracle) (w : World) (k : Walk) : Step Walk :=
  if decide (cursor k = ∅) then
    if newSolidTxFound k then
      propagateVisit o w
        {| txsChecked := txsChecked k; txsToTraverse := txsToTraverse k;
           approvers := approvers k; entryTxs := entryTxs k;
           txsToRequest := txsToRequest k;
           newSolidTxFound := false;
           loopCnt := S (loopCnt k); cursor := entryTxs k; tick := tick k |}
    else Exit w k
  else propagateVisit o w k.

(** A loop, run for at most [fuel] turns.  Both loops of a phase count as
    one loop here, and [loopCnt] is the number of [range] statements
    started. *)
Fixpoint runLoop {K} (step : World → K → Step K) (fuel : nat) (w : World) (k : K)
    : Step K :=
  match fuel with
  | 0 => Halt OutOfFuel
  | S fuel' =>
      match step w k with
      | Next w' k' => runLoop step fuel' w' k'
      | r => r
      end
  end.

(** The deferred [milestoneTail.Release()]: it runs when the function
    returns, and when a panic unwinds it. *)
Definition deferRelease {A} (h : Hash) (r : Outcome A) : Outcome A :=
  match r with
  | Returned a w => Returned a (release h w)
  | Panicked w => Panicked (release h w)
  | r => r
  end.

Definition walkInit (milestoneTail : Hash) : Walk :=
  {| txsChecked := ∅; txsToTraverse := {[milestoneTail]}; approvers := ∅;
     entryTxs := ∅; txsToRequest := ∅; newSolidTxFound := false; loopCnt := 0;
     cursor := ∅; tick := 0 |}.

(** The state of the locals when the second phase starts. *)
Definition walkPropagateInit (k : Walk) : Walk :=
  {| txsChecked := txsChecked k; txsToTraverse := txsToTraverse k;
     approvers := approvers k; entryTxs := entryTxs k;
     txsToRequest := txsToRequest k; newSolidTxFound := true; loopCnt := 0;
     cursor := ∅; tick := tick k |}.

(** What follows the first phase: the request of the missing transactions,
    or the second phase. *)
Definition afterCollect (fuel : nat) (o : Oracle) (milestoneIndex : MilestoneIndex)
    (w : World) (k : Walk) : Outcome (bool * bool) :=
  if decide (txsToRequest k = ∅) then
    if decide (entryTxs k = ∅) then Panicked w
    else
      match runLoop (propagateStep o) fuel w (walkPropagateInit k) with
      | Exit w2 k2 => Returned (bool_decide (entryTxs k2 = ∅), false) w2
      | Halt r => r
      | Next _ _ => OutOfFuel
      end
  else
    Returned (false, false)
      (emit (EvRequestMulti (elements (txsToRequest k)) milestoneIndex) w).

(** [solidQueueCheck], the abort channel being the oracle's.  The slice
    given to [gossip.RequestMulti] is filled by a [range] over
    [txsToRequest]: its order is not specified, the model lists the keys in
    the order of [elements].  Reading the hash of a tail that the cache
    does not hold is a nil dereference, after which the deferred [Release]
    runs as after any other panic. *)
Definition solidQueueCheck (fuel : nat) (o : Oracle) (w : World)
    (milestoneIndex : MilestoneIndex) (milestoneTail : Hash) : Outcome (bool * bool) :=
  let w0 := acquire milestoneTail w in
  match store w0 !! milestoneTail with
  | None => Panicked (release milestoneTail w0)
  | Some _ =>
      deferRelease milestoneTail
        match runLoop (collectStep o) fuel w0 (walkInit milestoneTail) with
        | Exit w1 k1 => afterCollect fuel o milestoneIndex w1 k1
        | Halt r => r
        | Next _ _ => OutOfFuel
        end
  end.

(** ** searchMissingMilestone *)

Module Search.

(** The local variables of [searchMissingMilestone], with the cursor of
    the running [range] and the number of iterations started. *)
Record State : Type := {
  txsChecked     : gset Hash;
  txsToTraverse  : gset Hash;
  milestoneFound : bool;
  loopCnt        : nat;
  cursor         : gset Hash;
  tick           : nat;
}.

Definition init (milestoneTail : Hash) : State :=
  {| txsChecked := ∅; txsToTraverse := {[milestoneTail]}; milestoneFound := false;
     loopCnt := 0; cursor := ∅; tick := 0 |}.

End Search.

(** Modelled from the spec: [processValidMilestone], the validator outside
    this file, registers the milestone of the bundle, so that it is known
    to [tangle.FindClosestNextMilestone]. *)
Definition processValidMilestone (tail : Hash) (ms : MilestoneIndex) (w : World) : World :=
  emit (EvProcessValidMilestone tail ms) (setMilestones (<[ms := tail]> (milestones w)) w).

(** What the examination of one approvee leads to. *)
Inductive Examined : Type :=
| Expand (w : World)          (* the end of the loop body is reached *)
| Skip (w : World)            (* [continue] *)
| Found (w : World)           (* [break], a milestone was registered *)
| Failed (w : World).         (* [log.Panic] *)

(** The body of the loop over the approvees, from the lookup in the cache
    to the last [Release]. *)
Definition examineApprovee (solidMilestoneIndex startMilestoneIndex : MilestoneIndex)
    (w : World) (approveeHash : Hash) : Examined :=
  let w1 := acquire approveeHash w in
  match store w1 !! approveeHash with
  | None => Failed w1
  | Some approveeTx =>
      if negb (txIsTail approveeTx) then Skip (release approveeHash w1)
      else if decide (approveeHash ∈ maybeMilestones w1) then
        match bundleBuckets w1 !! txBundle approveeTx with
        | None => Failed w1
        | Some bundleBucket =>
            match bundleBucket !! approveeHash with
            | None => Failed w1
            | Some bundle =>
                let w2 := emit (EvCheckIfMilestone approveeHash) w1 in
                let msIndex := bundleIndex bundle in
                if bundleIsMilestone bundle
                   && (solidMilestoneIndex <? msIndex)%N
                   && (msIndex <? startMilestoneIndex)%N
                then Found (release approveeHash
                              (processValidMilestone approveeHash msIndex w2))
                else Expand (release approveeHash w2)
            end
        end
      else Expand (release approveeHash w1)
  end.

(** The loop over the approvees of the transaction that is visited. *)
Fixpoint searchApprovees (o : Oracle)
    (solidMilestoneIndex startMilestoneIndex : MilestoneIndex)
    (w : World) (k : Search.State) (hs : list Hash) : World * Search.State + World :=
  match hs with
  | [] => inl (w, k)
  | approveeHash :: rest =>
      if decide (approveeHash ∈ solidEntryPoints w)
      then searchApprovees o solidMilestoneIndex startMilestoneIndex w k rest
      else if decide (approveeHash ∈ Search.txsChecked k)
      then searchApprovees o solidMilestoneIndex startMilestoneIndex w k rest
      else
        match examineApprovee solidMilestoneIndex startMilestoneIndex w approveeHash with
        | Failed w1 => inr w1
        | Skip w1 => searchApprovees o solidMilestoneIndex startMilestoneIndex w1 k rest
        | Found w1 =>
            inl (w1,
                 {| Search.txsChecked := Search.txsChecked k;
                    Search.txsToTraverse := Search.txsToTraverse k;
                    Search.milestoneFound := true;
                    Search.loopCnt := Search.loopCnt k;
                    Search.cursor := Search.cursor k; Search.tick := Search.tick k |})
        | Expand w1 =>
            let '(m, cur) := rangeInsert (yieldsNew o (Search.tick k)) {[approveeHash]}
                               (Search.txsToTraverse k) (Search.cursor k) in
            searchApprovees o solidMilestoneIndex startMilestoneIndex w1
              {| Search.txsChecked := {[approveeHash]} ∪ Search.txsChecked k;
                 Search.txsToTraverse := m;
                 Search.milestoneFound := Search.milestoneFound k;
                 Search.loopCnt := Search.loopCnt k;
                 Search.cursor := cur; Search.tick := Search.tick k |}
              rest
      end
  end.

(** One turn of the search: an iteration of the running [range], or, when
    it has nothing left to yield, the test of the outer loop and the first
    iteration of a new [range]. *)
Definition searchStep (o : Oracle)
    (solidMilestoneIndex startMilestoneIndex : MilestoneIndex) (maxSearchDepth : Z)
    (w : World) (k : Search.State) : Step Search.State :=
  let atHead := bool_decide (Search.cursor k = ∅) in
  if atHead && (bool_decide (Search.txsToTraverse k = ∅)
                || negb (Z.of_nat (Search.loopCnt k) <? maxSearchDepth)%Z)
  then Exit w k
  else
    let cur := if atHead then Search.txsToTraverse k else Search.cursor k in
    match pick (orderOf o (Search.tick k)) cur with
    | None => Exit w k
    | Some txHash =>
        if abortClosed o (Search.tick k) then Halt (Returned (false, true) w)
        else
          let k1 :=
            {| Search.txsChecked := Search.txsChecked k;
               Search.txsToTraverse := Search.txsToTraverse k ∖ {[txHash]};
               Search.milestoneFound := Search.milestoneFound k;
               Search.loopCnt := if atHead then S (Search.loopCnt k) else Search.loopCnt k;
               Search.cursor := cur ∖ {[txHash]}; Search.tick := Search.tick k |} in
          let w1 := acquire txHash w in
          match store w1 !! txHash with
          | None => Halt (Panicked w1)
          | Some tx =>
              match searchApprovees o solidMilestoneIndex startMilestoneIndex
                      (release txHash w1) k1 (approveeHashes tx) with
              | inr w2 => Halt (Panicked w2)
              | inl (w2, k2) =>
                  Next w2
                    {| Search.txsChecked := Search.txsChecked k2;
                       Search.txsToTraverse := Search.txsToTraverse k2;
                       Search.milestoneFound := Search.milestoneFound k2;
                       Search.loopCnt := Search.loopCnt k2;
                       Search.cursor := Search.cursor k2;
                       Search.tick := S (Search.tick k2) |}
              end
          end
    end.

Definition searchMissingMilestone (fuel : nat) (o : Oracle) (w : World)
    (solidMilestoneIndex startMilestoneIndex : MilestoneIndex)
    (milestoneTail : Hash) (maxSearchDepth : Z) : Outcome (bool * bool) :=
  let w0 := acquire milestoneTail w in
  match store w0 !! milestoneTail with
  | None => Panicked (release milestoneTail w0)
  | Some _ =>
      deferRelease milestoneTail
        match runLoop (searchStep o solidMilestoneIndex startMilestoneIndex maxSearchDepth)
                fuel w0 (Search.init milestoneTail) with
        | Exit w1 k1 => Returned (Search.milestoneFound k1, false) w1
        | Halt r => r
        | Next _ _ => OutOfFuel
        end
  end.

(** ** solidifyMilestone *)

Definition maxMissingMilestoneSearchDepth : Z := 120000.

(** [abortMilestoneSolidification] *)
Definition abortMilestoneSolidification (w : World) : World :=
  if signalChan w then setSignalChan false (emit EvAbortSignal w) else w.

(** Modelled from the spec: [tangle.FindClosestNextMilestone], which is
    not part of the sources, gives the known milestone of the least index
    above [index], if there is one. *)
Definition FindClosestNextMilestone (w : World) (index : MilestoneIndex)
    : option (MilestoneIndex * Hash) :=
  foldr (λ '(i, tail) best,
           if (index <? i)%N then
             match best with
             | Some (j, _) => if (i <? j)%N then Some (i, tail) else best
             | None => Some (i, tail)
             end
           else best)
        None (map_to_list (milestones w)).

(** The first lines of [solidifyMilestone], up to the call of
    [abortMilestoneSolidification]: [None] when the function returns at
    once, the world in which it goes on to take [solidifierLock]
    otherwise. *)
Definition solidifyMilestonePreempt (w : World) (msIndexEmptiedQueue : MilestoneIndex)
    : option World :=
  if negb (solidifierMilestoneIndex w =? 0)%N
     && negb (msIndexEmptiedQueue =? 0)%N
     && (solidifierMilestoneIndex w <? msIndexEmptiedQueue)%N
  then None
  else Some (abortMilestoneSolidification w).

(** The end of an attempt that goes on to the next milestone:
    [setSolidifierMilestoneIndex(0)] and the submission of a new attempt. *)
Definition rerun (w : World) : World :=
  emit (EvTrySubmit 0) (setSolidifierMilestoneIndex 0 w).

(** The body of [solidifyMilestone] that runs with [solidifierLock] held.
    [GetTail] hands out a handle of the tail, which the function is to
    release; [confirmMilestone] is a call out of this file.  The oracle
    [o] is the one of the walk, [o'] the one of the search. *)
Definition solidifyMilestoneLocked (fuel : nat) (o o' : Oracle) (w : World)
    : Outcome unit :=
  let currentSolidIndex := solidMilestoneIndex w in
  let latestIndex := latestMilestoneIndex w in
  if (currentSolidIndex =? latestIndex)%N && negb (latestIndex =? 0)%N
  then Returned tt w
  else
    match FindClosestNextMilestone w currentSolidIndex with
    | None => Returned tt w
    | Some (milestoneIndexToSolidify, milestoneToSolidifyTail) =>
        let w1 := setSolidifierMilestoneIndex milestoneIndexToSolidify w in
        let w2 := setSignalChan true w1 in
        let w3 := acquire milestoneToSolidifyTail w2 in
        match solidQueueCheck fuel o w3 milestoneIndexToSolidify milestoneToSolidifyTail with
        | Returned (becameSolid, aborted) w4 =>
            if negb becameSolid
            then Returned tt
                   (release milestoneToSolidifyTail (setSolidifierMilestoneIndex 0 w4))
            else if (currentSolidIndex + 1 <? milestoneIndexToSolidify)%N
            then
              if decide (FindClosestNextMilestone w4 currentSolidIndex
                         = Some (milestoneIndexToSolidify, milestoneToSolidifyTail))
              then
                match searchMissingMilestone fuel o' w4 currentSolidIndex
                        milestoneIndexToSolidify milestoneToSolidifyTail
                        maxMissingMilestoneSearchDepth with
                | Returned (found, aborted') w5 =>
                    if negb found && negb aborted' then Panicked w5
                    else Returned tt (rerun w5)
                | Panicked w5 => Panicked w5
                | Blocked w5 => Blocked w5
                | OutOfFuel => OutOfFuel
                end
              else Returned tt (rerun w4)
            else
              let w5 := emit (EvConfirmMilestone milestoneIndexToSolidify
                                milestoneToSolidifyTail) w4 in
              let w6 := release milestoneToSolidifyTail w5 in
              let w7 := setSolidMilestoneIndex milestoneIndexToSolidify w6 in
              let w8 := emit (EvSolidMilestoneChanged milestoneIndexToSolidify)
                          (emit (EvStoreMilestone milestoneIndexToSolidify) w7) in
              Returned tt (rerun w8)
        | Panicked w4 => Panicked w4
        | Blocked w4 => Blocked w4
        | OutOfFuel => OutOfFuel
        end
    end.

(** The deferred [solidifierLock.Unlock()]: it runs when the function
    returns, and when a panic unwinds it. *)
Definition deferUnlock (r : Outcome unit) : Outcome unit :=
  match r with
  | Returned a w => Returned a (emit EvUnlock (setSolidifierLocked false w))
  | Panicked w => Panicked (emit EvUnlock (setSolidifierLocked false w))
  | r => r
  end.

(** [solidifyMilestone].  A call that finds [solidifierLock] held waits in
    [Lock()] until the holder has released it.  What the holder does until
    then is not a step of this call: the model of the call ends there with
    [Blocked], and the call goes on as [deferUnlock] of
    [solidifyMilestoneLocked] from the world in which it obtains the lock.
    What holds of the part run under the lock is therefore stated of
    [solidifyMilestoneLocked], for every world in which it is entered. *)
Definition solidifyMilestone (fuel : nat) (o o' : Oracle) (w : World)
    (msIndexEmptiedQueue : MilestoneIndex) : Outcome unit :=
  match solidifyMilestonePreempt w msIndexEmptiedQueue with
  | None => Returned tt w
  | Some w1 =>
      if solidifierLocked w1 then Blocked w1
      else
        deferUnlock
          (solidifyMilestoneLocked fuel o o' (emit EvLock (setSolidifierLocked true w1)))
  end.

(** * Vocabulary of the properties *)

(** An approvee that does not keep its approver from being solid: a solid
    entry point, or a transaction of the cache that is solid. *)
Definition approveeOk (w : World) (a : Hash) : bool :=
  bool_decide (a ∈ solidEntryPoints w) || cachedSolid w a.

(** The cone the walk has to go through: the tail, and the approvees
    outside the solid entry points that the cache holds and that are not
    solid, of the transactions of the cone. *)
Inductive reach (w : World) (tail : Hash) : Hash → Prop :=
| reach_tail : reach w tail tail
| reach_step x tx a :
    reach w tail x → store w !! x = Some tx → a ∈ approveeHashes tx →
    a ∉ solidEntryPoints w → is_Some (store w !! a) → cachedSolid w a = false →
    reach w tail a.

(** The approvees of the cone that the cache does not hold. *)
Definition missing (w : World) (tail a : Hash) : Prop :=
  ∃ x tx, reach w tail x ∧ store w !! x = Some tx ∧ a ∈ approveeHashes tx
          ∧ (a ∉ solidEntryPoints w) ∧ store w !! a = None.

(** The state of the first phase: [V] are the transactions visited, [x] is
    the one being visited and [todo] its approvees still to examine. *)
Record collecting (w : World) (tail : Hash) (V : gset Hash) (x : Hash)
    (todo : list Hash) (k : Walk) : Prop := {
  col_tail : tail ∈ V ∪ txsToTraverse k;
  col_reach : ∀ y, y ∈ V ∪ txsToTraverse k → reach w tail y ∧ is_Some (store w !! y);
  col_done : ∀ y tx a,
    y ∈ V → store w !! y = Some tx → a ∈ approveeHashes tx →
    a ∉ solidEntryPoints w → ¬ (y = x ∧ a ∈ todo) →
    y ∈ default ∅ (approvers k !! a) ∧ is_Some (txsChecked k !! a);
  col_checked : ∀ a b,
    txsChecked k !! a = Some b →
    b = cachedSolid w a
    ∧ (store w !! a = None → a ∈ txsToRequest k)
    ∧ (is_Some (store w !! a) → cachedSolid w a = false → a ∈ V ∪ txsToTraverse k);
  col_request : ∀ a, a ∈ txsToRequest k → missing w tail a;
  col_cursor : cursor k ⊆ txsToTraverse k;
  col_approvers : ∀ a y,
    y ∈ default ∅ (approvers k !! a) →
    y ∈ V ∧ (a ∉ solidEntryPoints w)
    ∧ ∃ tx, store w !! y = Some tx ∧ a ∈ approveeHashes tx;
  col_entry : entryTxs k ⊆ V;
  col_fresh : ∀ y, y ∈ V ∪ txsToTraverse k → y ≠ tail → cachedSolid w y = false;
}.

(** The events of the second phase. *)
Definition solidEvent (e : Event) : Prop :=
  ∃ h, e = EvTransactionSolid h ∨ e = EvFutureConeSubmit h.

(** Every approvee of [tx] is a solid entry point or is in the cache and
    solid. *)
Definition parentsSolid (w : World) (tx : Transaction) : Prop :=
  ∀ a, a ∈ approveeHashes tx → approveeOk w a = true.

(** [w] is [w0] after some transactions were found solid: nothing but the
    solid flags, the handles and the trace differs, flags were set and not
    cleared, and each one was set above solid parents. *)
Record advances (w0 w : World) : Prop := {
  adv_sep : solidEntryPoints w = solidEntryPoints w0;
  adv_approversCache : approversCache w = approversCache w0;
  adv_synced : nodeSynced w = nodeSynced w0;
  adv_maybe : maybeMilestones w = maybeMilestones w0;
  adv_buckets : bundleBuckets w = bundleBuckets w0;
  adv_milestones : milestones w = milestones w0;
  adv_solidIndex : solidMilestoneIndex w = solidMilestoneIndex w0;
  adv_latestIndex : latestMilestoneIndex w = latestMilestoneIndex w0;
  adv_solidifierIndex : solidifierMilestoneIndex w = solidifierMilestoneIndex w0;
  adv_signalChan : signalChan w = signalChan w0;
  adv_locked : solidifierLocked w = solidifierLocked w0;
  adv_dom : ∀ h, store w !! h = None ↔ store w0 !! h = None;
  adv_tx : ∀ h tx0 tx, store w0 !! h = Some tx0 → store w !! h = Some tx →
           txTrunk tx = txTrunk tx0 ∧ txBranch tx = txBranch tx0
           ∧ txIsTail tx = txIsTail tx0 ∧ txBundle tx = txBundle tx0
           ∧ (txSolid tx0 = true → txSolid tx = true);
  adv_trace : ∃ new, trace w = (new ++ trace w0)%list ∧ Forall solidEvent new
              ∧ ∀ h, EvTransactionSolid h ∈ new
                     ↔ cachedSolid w0 h = false ∧ cachedSolid w h = true;
  adv_parents : ∀ h tx, cachedSolid w0 h = false → store w !! h = Some tx →
                txSolid tx = true → parentsSolid w tx;
}.

(** The locals after the visit of an entry transaction that is solid, and
    of one that is not. *)
Definition visitedSolid (o : Oracle) (k : Walk) (h : Hash) : Walk :=
  {| txsChecked := txsChecked k; txsToTraverse := txsToTraverse k;
     approvers := approvers k;
     entryTxs := (default ∅ (approvers k !! h) ∪ entryTxs k) ∖ {[h]};
     txsToRequest := txsToRequest k;
     newSolidTxFound := true;
     loopCnt := loopCnt k;
     cursor := (cursor k ∖ {[h]}
                ∪ filter (λ a, yieldsNew o (tick k) a = true)
                    (default ∅ (approvers k !! h) ∖ entryTxs k)) ∖ {[h]};
     tick := S (tick k) |}.

Definition visitedNotSolid (k : Walk) (h : Hash) : Walk :=
  {| txsChecked := txsChecked k; txsToTraverse := txsToTraverse k;
     approvers := approvers k; entryTxs := entryTxs k;
     txsToRequest := txsToRequest k;
     newSolidTxFound := newSolidTxFound k;
     loopCnt := loopCnt k;
     cursor := cursor k ∖ {[h]}; tick := S (tick k) |}.

(** The world after a transaction was found solid and its flag set. *)
Definition markedSolid (h : Hash) (w : World) : World :=
  let w2 := emit (EvTransactionSolid h) (setSolid h w) in
  if nodeSynced w then emit (EvFutureConeSubmit h) (acquire h w2) else w2.

(** The locals with which the first iteration of a new [range] of the
    second phase starts. *)
Definition restarted (k : Walk) : Walk :=
  {| txsChecked := txsChecked k; txsToTraverse := txsToTraverse k;
     approvers := approvers k; entryTxs := entryTxs k;
     txsToRequest := txsToRequest k;
     newSolidTxFound := false;
     loopCnt := S (loopCnt k); cursor := entryTxs k; tick := tick k |}.

(** The ancestors of the tail: what is reached from it through the
    transactions of the cache, the solid entry points left out. *)
Inductive ancestor (w : World) (tail : Hash) : Hash → Prop :=
| ancestor_tail : ancestor w tail tail
| ancestor_step x tx a :
    ancestor w tail x → store w !! x = Some tx → a ∈ approveeHashes tx →
    a ∉ solidEntryPoints w → ancestor w tail a.

(** The solid flags of the cache are sound: a transaction that is marked
    solid has its approvees among the solid entry points or in the cache
    and solid. *)
Definition consistent (w : World) : Prop :=
  ∀ h tx, store w !! h = Some tx → txSolid tx = true → parentsSolid w tx.

(** The world in which [solidifyMilestoneLocked] calls the walk for the
    milestone [ms] with the tail [tail], when it is entered in [w0]. *)
Definition attemptWorld (w0 : World) (ms : MilestoneIndex) (tail : Hash) : World :=
  acquire tail (setSignalChan true (setSolidifierMilestoneIndex ms w0)).

(** C2 as it is stated: a walk that returns aborted has left the
    transactions as they were. *)
Definition abortLeavesTransactions (fuel : nat) (o : Oracle) (w : World)
    (ms : MilestoneIndex) (tail : Hash) : Prop :=
  ∀ solid w', solidQueueCheck fuel o w ms tail = Returned (solid, true) w' →
              store w' = store w.

(** C1 as it is stated: when an attempt runs and the index of the caller is
    below the index of that attempt, the call returns at once. *)
Definition lowerIndexGivesWay (w : World) (msIndexEmptiedQueue : MilestoneIndex) : Prop :=
  solidifierMilestoneIndex w ≠ 0%N →
  (msIndexEmptiedQueue < solidifierMilestoneIndex w)%N →
  solidifyMilestonePreempt w msIndexEmptiedQueue = None.

(** C6 as it is stated: the search goes on through an approvee that is not
    a solid entry point, not checked before and not a milestone that is
    looked for, whatever the approvee is. *)
Definition expandsThroughApprovee (o : Oracle) (smi start : MilestoneIndex)
    (w : World) (k : Search.State) (a : Hash) (rest : list Hash) : Prop :=
  a ∉ solidEntryPoints w → a ∉ Search.txsChecked k →
  (∀ w1, examineApprovee smi start w a ≠ Found w1) →
  ∀ w' k', searchApprovees o smi start w k (a :: rest) = inl (w', k') →
           a ∈ Search.txsToTraverse k'.

(** C8 as it is stated: a walk that returns (false, false) has asked, in
    one call, for the ancestors of the tail that the cache does not hold,
    and for nothing else. *)
Definition requestsAbsentAncestors (fuel : nat) (o : Oracle) (w : World)
    (ms : MilestoneIndex) (tail : Hash) : Prop :=
  ∀ w', solidQueueCheck fuel o w ms tail = Returned (false, false) w' →
        ∃ requested,
          trace w' = EvRequestMulti requested ms :: trace w
          ∧ ∀ a, a ∈ requested ↔ ancestor w tail a ∧ store w !! a = None.

(** The model of a call has ended: the call has returned or has
    panicked. *)
Definition terminated {A} (r : Outcome A) : Prop :=
  match r with
  | Returned _ _ | Panicked _ => True
  | Blocked _ | OutOfFuel => False
  end.

(** What is left to do in the first phase: the transactions of the cache
    that are not checked yet, and the transactions to traverse. *)
Definition collectMeasure (w : World) (k : Walk) : nat :=
  size (dom (store w) ∖ dom (txsChecked k)) + size (txsToTraverse k).

(** [x] approves [a]: [a] is the trunk or the branch of the transaction
    that the cache holds for [x]. *)
Definition approves (w : World) (x a : Hash) : Prop :=
  ∃ tx, store w !! x = Some tx ∧ a ∈ approveeHashes tx.

(** The transactions of the cache form a directed acyclic graph. *)
Definition acyclic (w : World) : Prop := ∀ h, ¬ tc (approves w) h h.

(** The transactions of the cache that are not solid. *)
Definition notSolid (w : World) : gset Hash :=
  filter (λ h, cachedSolid w h = false) (dom (store w)).

(** The tail is among the entry transactions and is solid. *)
Definition solidTailPending (w : World) (tail : Hash) (k : Walk) : nat :=
  if decide (tail ∈ entryTxs k ∧ cachedSolid w tail = true) then 1 else 0.

(** What is left to do in the second phase. *)
Definition propagateWork (w : World) (tail : Hash) (k : Walk) : nat :=
  2 * size (notSolid w) + solidTailPending w tail k.

Definition propagateMeasure (w0 : World) (tail : Hash) (w : World) (k : Walk) : nat :=
  (2 * propagateWork w tail k + (if newSolidTxFound k then 1 else 0))
  * (size (dom (store w0)) + 1)
  + size (cursor k).

(** The state of the second phase in an acyclic cache: an entry transaction
    that is solid is the tail, and the tail approves no transaction of the
    cone. *)
Record propagating (w0 : World) (tail : Hash) (w : World) (k : Walk) : Prop := {
  pro_advances : advances w0 w;
  pro_entry : ∀ h, h ∈ entryTxs k → is_Some (store w0 !! h);
  pro_cursor : cursor k ⊆ entryTxs k;
  pro_solid : ∀ h, h ∈ entryTxs k → cachedSolid w h = true → h = tail;
  pro_approvers : ∀ a y,
    y ∈ default ∅ (approvers k !! a) →
    a ≠ tail ∧ (a ∉ solidEntryPoints w0)
    ∧ (∃ tx, store w0 !! y = Some tx ∧ a ∈ approveeHashes tx)
    ∧ (y ≠ tail → cachedSolid w0 y = false);
}.

(** A number of turns that is enough for each phase of a walk. *)
Definition walkFuel (w : World) : nat :=
  (4 * size (dom (store w)) + 3) * (size (dom (store w)) + 1) + 1.

(** The transactions of the cache are ranked when each of them ranks above those
    of its approvees that the cache holds. *)
Definition ranked (rank : Hash → nat) (w : World) : bool :=
  forallb (λ '(x, tx),
             forallb (λ a, match store w !! a with
                           | Some _ => Nat.ltb (rank a) (rank x)
                           | None => true
                           end) (approveeHashes tx))
          (map_to_list (store w)).

(** C5 as it is stated: once the search has registered a milestone it does
    nothing more: no event follows the registration. *)
Definition searchEndsWhenFound (fuel : nat) (o : Oracle) (w : World)
    (smi start : MilestoneIndex) (tail : Hash) (maxSearchDepth : Z) : Prop :=
  ∀ r w', searchMissingMilestone fuel o w smi start tail maxSearchDepth = Returned r w' →
    ∀ later t i earlier,
      trace w' = (later ++ EvProcessValidMilestone t i :: earlier)%list →
      (length (trace w) ≤ length earlier)%nat → later = [].

(** ** Scenarios *)

Section scenarios.
Local Open Scope string_scope.

(** A transaction of the bundle "B". *)
Definition transaction (trunk branch : Hash) (isTail solid : bool) : Transaction :=
  {| txTrunk := trunk; txBranch := branch; txIsTail := isTail; txBundle := "B";
     txSolid := solid |}.

(** An idle node that is synced, with the cache [s], the solid entry point
    "E", the milestones [ms], of which [solid] is the index of the solid one
    and [latest] the index of the latest. *)
Definition tangleWorld (s : gmap Hash Transaction) (ms : gmap N Hash)
    (solid latest : MilestoneIndex) : World :=
  {| store := s; solidEntryPoints := {["E"]}; consumers := ∅; approversCache := ∅;
     nodeSynced := true; maybeMilestones := {["M4"; "M5"]};
     bundleBuckets :=
       {["B" := <["M4" := {| bundleIsMilestone := true; bundleIndex := 4 |}]>
                 (<["M5" := {| bundleIsMilestone := true; bundleIndex := 5 |}]> ∅)]};
     milestones := ms;
     solidMilestoneIndex := solid; latestMilestoneIndex := latest;
     solidifierMilestoneIndex := 0;
     signalChan := false; solidifierLocked := false; trace := [] |}.

(** The maps are ranged over in the order of their keys, a key that is
    created is yielded by the running loop, and the abort signal is not
    given. *)
Definition inOrder : Oracle :=
  {| orderOf := λ _, 0; yieldsNew := λ _ _, true; abortClosed := λ _, false |}.

(** As [inOrder], with the abort channel found closed in iteration [n]. *)
Definition abortAt (n : nat) : Oracle :=
  {| orderOf := λ _, 0; yieldsNew := λ _ _, true; abortClosed := λ t, Nat.eqb t n |}.

(** The milestone 1 with the tail "T2", which approves "T1", which approves
    the solid entry point; neither is solid yet. *)
Definition chainWorld : World :=
  tangleWorld (<["T2" := transaction "T1" "T1" true false]>
               (<["T1" := transaction "E" "E" true false]> ∅))
              {[1%N := "T2"]} 0 1.

Definition chainRank (h : Hash) : nat := if String.eqb h "T2" then 1 else 0.

(** The tail "T" approves "A", which is solid, and "B", which the cache
    does not hold. *)
Definition forkWorld : World :=
  tangleWorld (<["T" := transaction "A" "B" true false]>
               (<["A" := transaction "E" "E" true true]> ∅))
              {[1%N := "T"]} 0 1.

(** The tail "T1" of the milestone 1 is solid already. *)
Definition solidWorld : World :=
  tangleWorld (<["T1" := transaction "E" "E" true true]> ∅) {[1%N := "T1"]} 0 1.

(** The solid milestone is 3 and the milestone 6 is known; its cone is
    solid and holds the tails "M4" and "M5" of the milestones 4 and 5,
    which are not known yet. *)
Definition gapWorld : World :=
  tangleWorld (<["T6" := transaction "A" "M4" true true]>
               (<["A" := transaction "M5" "E" true true]>
                (<["M4" := transaction "E" "E" true true]>
                 (<["M5" := transaction "E" "E" true true]> ∅))))
              {[6%N := "T6"]} 3 6.

(** What the search of the gap does to the world: it checks and registers
    the milestone 4, and then the milestone 5. *)
Definition gapSearched (w : World) : World :=
  processValidMilestone "M5" 5
    (emit (EvCheckIfMilestone "M5")
       (processValidMilestone "M4" 4 (emit (EvCheckIfMilestone "M4") w))).

(** The world in which the attempt on [gapWorld] ends. *)
Definition gapWorldAttempted : World :=
  emit EvUnlock
    (setSolidifierLocked false
       (rerun
          (gapSearched
             (acquire "T6"
                (setSignalChan true
                   (setSolidifierMilestoneIndex 6
                      (emit EvLock (setSolidifierLocked true gapWorld)))))))).

(** The tail "T" approves "N", which is not the tail of its bundle and
    approves the tail "M4" of the milestone 4. *)
Definition nonTailWorld : World :=
  tangleWorld (<["T" := transaction "N" "N" true true]>
               (<["N" := transaction "M4" "M4" false true]>
                (<["M4" := transaction "E" "E" true true]> ∅)))
              {[6%N := "T"]} 3 6.

(** The world in which the attempt on [nonTailWorld] ends, by the panic
    of [solidifyMilestone]: the walk and the search have changed nothing. *)
Definition nonTailWorldPanicked : World :=
  emit EvUnlock
    (setSolidifierLocked false
       (attemptWorld (emit EvLock (setSolidifierLocked true nonTailWorld)) 6 "T")).

(** The tail "T" approves "S" and "P".  The cache holds "S", marked solid,
    which approves "Q"; it holds neither "P" nor "Q". *)
Definition staleWorld : World :=
  tangleWorld (<["T" := transaction "S" "P" true false]>
               (<["S" := transaction "Q" "E" true true]> ∅))
              {[1%N := "T"]} 0 1.

(** An attempt for the milestone 7 is running. *)
Definition runningWorld : World :=
  setSolidifierLocked true
    (setSignalChan true
       (setSolidifierMilestoneIndex 7 (tangleWorld ∅ {[7%N := "T7"]} 6 7))).

End scenarios.

(** ** Vocabulary of the further properties *)

(** [consistent], as a test of the transactions of the cache. *)
Definition consistentb (w : World) : bool :=
  forallb (λ '(_, tx), negb (txSolid tx) || forallb (approveeOk w) (approveeHashes tx))
          (map_to_list (store w)).

(** The cache holds every approvee of its transactions that is not a solid
    entry point: no transaction is missing. *)
Definition closedb (w : World) : bool :=
  forallb (λ '(_, tx),
             forallb (λ a, bool_decide (a ∈ solidEntryPoints w)
                           || bool_decide (is_Some (store w !! a)))
                     (approveeHashes tx))
          (map_to_list (store w)).

(** The handles that the submissions to the future cone pool among the
    events [new] have handed over. *)
Definition submitted (new : list Event) : gmultiset Hash :=
  foldr (λ e acc, match e with
                  | EvFutureConeSubmit h => {[+ h +]} ⊎ acc
                  | _ => acc
                  end) ∅ new.

(** [w] is [w0] after the events [new], with the handles they have handed
    over still held: one for each transaction that was marked solid since,
    when the node is synced, and none when it is not. *)
Definition accounted (w0 w : World) : Prop :=
  ∃ new, trace w = (new ++ trace w0)%list
         ∧ consumers w = consumers w0 ⊎ submitted new
         ∧ ∀ h, multiplicity h (submitted new)
                = if nodeSynced w0 && negb (cachedSolid w0 h) && cachedSolid w h
                  then 1%nat else 0%nat.

(** The state of the second phase, with the transactions [R] that it has
    found solid and taken from the entry transactions: the entry
    transactions [E0] it started from, and the approvers, as the first
    phase has registered them in [A], of the transactions of [R], are entry
    transactions still or are in [R] themselves. *)
Record settling (A : gmap Hash (gset Hash)) (E0 R : gset Hash) (w : World) (k : Walk)
    : Prop := {
  set_approvers : approvers k = A;
  set_entry : E0 ⊆ entryTxs k ∪ R;
  set_closed : ∀ a y, a ∈ R → y ∈ default ∅ (A !! a) → y ∈ entryTxs k ∪ R;
  set_solid : ∀ x, x ∈ R → cachedSolid w x = true;
}.

(** What the first phase has found of the transactions [V] that it has
    visited: each is an entry transaction, or has an approvee outside the
    solid entry points that is not in the cache and solid. *)
Definition entered (w : World) (V : gset Hash) (k : Walk) : Prop :=
  ∀ x, x ∈ V →
       x ∈ entryTxs k
       ∨ ∃ tx a, store w !! x = Some tx ∧ a ∈ approveeHashes tx
                 ∧ (a ∉ solidEntryPoints w) ∧ cachedSolid w a = false.

(** The state of the second phase, [V] being the transactions that the
    first phase has visited and [A] the approvers it has registered: a
    transaction of [V] that is not solid is an entry transaction or waits
    for an approvee that is not solid, and as long as the running [range]
    has found nothing solid, the entry transactions it has visited wait for
    an approvee. *)
Record pending (w0 : World) (V : gset Hash) (A : gmap Hash (gset Hash))
    (w : World) (k : Walk) : Prop := {
  pen_advances : advances w0 w;
  pen_approvers : approvers k = A;
  pen_entry : entryTxs k ⊆ V;
  pen_cursor : cursor k ⊆ entryTxs k;
  pen_waiting : ∀ x, x ∈ V → cachedSolid w x = false →
    x ∈ entryTxs k
    ∨ ∃ tx a, store w0 !! x = Some tx ∧ a ∈ approveeHashes tx
              ∧ (a ∉ solidEntryPoints w0) ∧ cachedSolid w a = false;
  pen_stuck : newSolidTxFound k = false →
    ∀ y, y ∈ entryTxs k → y ∉ cursor k →
         ∃ tx, store w !! y = Some tx ∧ txSolid tx = false ∧ ¬ parentsSolid w tx;
}.

(** The tail [t] is the tail of a bundle that is a milestone of the index
    [i], strictly between [smi] and [start]: what [searchMissingMilestone]
    looks for. *)
Definition gapMilestone (w : World) (smi start : MilestoneIndex) (t : Hash)
    (i : MilestoneIndex) : Prop :=
  ∃ atx bucket bundle,
    store w !! t = Some atx ∧ txIsTail atx = true ∧ t ∈ maybeMilestones w
    ∧ bundleBuckets w !! txBundle atx = Some bucket ∧ bucket !! t = Some bundle
    ∧ bundleIsMilestone bundle = true ∧ bundleIndex bundle = i
    ∧ (smi < i)%N ∧ (i < start)%N.

(** The calls that the search makes: [tangle.CheckIfMilestone] on the
    bundle of a tail that may be a milestone, and [processValidMilestone]
    on a milestone that it looks for. *)
Definition searchEvent (w : World) (smi start : MilestoneIndex) (e : Event) : Prop :=
  (∃ t, e = EvCheckIfMilestone t ∧ t ∈ maybeMilestones w)
  ∨ (∃ t i, e = EvProcessValidMilestone t i ∧ gapMilestone w smi start t i).

(** The milestones known after the events [new]. *)
Definition registered (new : list Event) (m : gmap N Hash) : gmap N Hash :=
  foldr (λ e acc, match e with
                  | EvProcessValidMilestone t i => <[i := t]> acc
                  | _ => acc
                  end) m new.

(** The world [w0] after the events [new] of a search. *)
Definition searchedTo (w0 : World) (new : list Event) : World :=
  setTrace (new ++ trace w0) (setMilestones (registered new (milestones w0)) w0).

(** What is left to do in a search: the transactions of the cache that are
    not checked yet, and the transactions to traverse. *)
Definition searchMeasure (w : World) (k : Search.State) : nat :=
  size (dom (store w) ∖ Search.txsChecked k) + size (Search.txsToTraverse k).

(** ** Further scenarios *)

Section further_scenarios.
Local Open Scope string_scope.

(** The world in which the walk over [chainWorld] ends: "T1" and then "T2"
    were marked solid. *)
Definition chainWorldWalked : World := markedSolid "T2" (markedSolid "T1" chainWorld).

(** The world in which the attempt on [chainWorld] ends: the milestone 1
    is promoted. *)
Definition chainWorldPromoted : World :=
  emit EvUnlock
    (setSolidifierLocked false
       (rerun
          (emit (EvSolidMilestoneChanged 1)
             (emit (EvStoreMilestone 1)
                (setSolidMilestoneIndex 1
                   (release "T2"
                      (emit (EvConfirmMilestone 1 "T2")
                         (markedSolid "T2"
                            (markedSolid "T1"
                               (attemptWorld
                                  (emit EvLock (setSolidifierLocked true chainWorld))
                                  1 "T2")))))))))).

(** The world in which the attempt on [forkWorld] ends: "B" is asked
    for. *)
Definition forkWorldAttempted : World :=
  emit EvUnlock
    (setSolidifierLocked false
       (release "T"
          (setSolidifierMilestoneIndex 0
             (emit (EvRequestMulti ["B"] 1)
                (attemptWorld (emit EvLock (setSolidifierLocked true forkWorld))
                   1 "T"))))).

(** A ranking of the transactions of [gapWorld]. *)
Definition gapRank (h : Hash) : nat :=
  if String.eqb h "T6" then 2 else if String.eqb h "A" then 1 else 0.

End further_scenarios.



(** * Properties *)

(** ** Worlds and handles *)

Lemma world_ext (w1 w2 : World) :
  store w1 = store w2 → solidEntryPoints w1 = solidEntryPoints w2 →
  consumers w1 = consumers w2 → approversCache w1 = approversCache w2 →
  nodeSynced w1 = nodeSynced w2 → maybeMilestones w1 = maybeMilestones w2 →
  bundleBuckets w1 = bundleBuckets w2 → milestones w1 = milestones w2 →
  solidMilestoneIndex w1 = solidMilestoneIndex w2 →
  latestMilestoneIndex w1 = latestMilestoneIndex w2 →
  solidifierMilestoneIndex w1 = solidifierMilestoneIndex w2 →
  signalChan w1 = signalChan w2 → solidifierLocked w1 = solidifierLocked w2 →
  trace w1 = trace w2 →
  w1 = w2.
Proof. destruct w1, w2. simpl. intros. by subst. Qed.

(** Two worlds are equal when their fields are; the handles are compared
    as multisets. *)
Ltac world_eq :=
  apply world_ext; cbn; try reflexivity;
  repeat match goal with H : _ |- _ => clear H end;
  multiset_solver.

Lemma release_acquire (h : Hash) (w : World) : release h (acquire h w) = w.
Proof. world_eq. Qed.

Lemma release_addApprover_acquire (a self : Hash) (w : World) :
  release a (addApprover a self (acquire a w)) = addApprover a self w.
Proof. world_eq. Qed.

Lemma release_solid_acquire (h : Hash) (w : World) :
  release h (emit (EvTransactionSolid h) (setSolid h (acquire h w)))
  = emit (EvTransactionSolid h) (setSolid h w).
Proof. world_eq. Qed.

(** ** checkSolidity *)

Lemma approveesSolid_spec (w : World) (self : Hash) (add : bool) (hs : list Hash) :
  approveesSolid w self add hs =
    match find (λ a, negb (approveeOk w a)) hs with
    | None => (w, true)
    | Some a => (if add then addApprover a self w else w, false)
    end.
Proof.
  induction hs as [|a hs IH]; simpl; [done|].
  unfold approveeOk at 1.
  destruct (decide (a ∈ solidEntryPoints w)) as [Hin|Hin].
  - rewrite (bool_decide_eq_true_2 _ Hin). simpl. apply IH.
  - rewrite (bool_decide_eq_false_2 _ Hin). simpl.
    change (cachedSolid (acquire a w) a) with (cachedSolid w a).
    destruct (cachedSolid w a); simpl.
    + rewrite release_acquire. apply IH.
    + destruct add; [by rewrite release_addApprover_acquire | by rewrite release_acquire].
Qed.

Lemma checkSolidity_spec (w : World) (h : Hash) (add : bool) :
  checkSolidity w h add =
    match store w !! h with
    | None => Panicked w
    | Some tx =>
        if txSolid tx then Returned (true, false) w
        else
          match find (λ a, negb (approveeOk w a)) (approveeHashes tx) with
          | None => Returned (true, true) (emit (EvTransactionSolid h) (setSolid h w))
          | Some a => Returned (false, false) (if add then addApprover a h w else w)
          end
    end.
Proof.
  unfold checkSolidity.
  change (store (acquire h w)) with (store w).
  destruct (store w !! h) as [tx|]; [|by rewrite release_acquire].
  destruct (txSolid tx); [by rewrite release_acquire|].
  rewrite approveesSolid_spec.
  change (approveeOk (acquire h w)) with (approveeOk w).
  destruct (find _ _) as [a|].
  - f_equal. destruct add; [world_eq | apply release_acquire].
  - by rewrite release_solid_acquire.
Qed.

Lemma approveeOk_true (w : World) (a : Hash) :
  approveeOk w a = true ↔
  (a ∉ solidEntryPoints w → ∃ atx, store w !! a = Some atx ∧ txSolid atx = true).
Proof.
  unfold approveeOk, cachedSolid. split.
  - intros H Hn. rewrite (bool_decide_eq_false_2 _ Hn) in H. simpl in H.
    destruct (store w !! a) as [atx|]; [eauto | done].
  - intros H. destruct (decide (a ∈ solidEntryPoints w)) as [Hin|Hn].
    + by rewrite (bool_decide_eq_true_2 _ Hin).
    + destruct (H Hn) as (atx & -> & ->). by rewrite orb_true_r.
Qed.

(** C3: the contract of [checkSolidity].  The approvees are the trunk and,
    when it differs from the trunk, the branch; a transaction that is solid
    already gives (true, false) and leaves the world as it is; a
    transaction whose approvees outside the solid entry points are all in
    the cache and solid gives (true, true): afterwards the cache holds it
    with its solid flag set and nothing else of it changed, the other
    transactions are as they were, the [TransactionSolid] event of the
    transaction is the one new event of the trace, and nothing but the
    cache and the trace differs; any other gives (false, false): the
    transaction is not solid afterwards, neither a flag nor the trace nor a
    handle changes, and the world changes only when [addToApproversCache]
    is set, by the registration of the transaction among the approvers of
    the first approvee, the trunk coming first, that is neither a solid
    entry point nor in the cache and solid. *)
Theorem checkSolidity_contract (w : World) (h : Hash) (tx : Transaction) (add : bool) :
  store w !! h = Some tx →
  approveeHashes tx =
    (if decide (txTrunk tx = txBranch tx) then [txTrunk tx]
     else [txTrunk tx; txBranch tx])
  ∧ (txSolid tx = true → checkSolidity w h add = Returned (true, false) w)
  ∧ (txSolid tx = false →
     (∀ a, a ∈ approveeHashes tx → a ∉ solidEntryPoints w →
           ∃ atx, store w !! a = Some atx ∧ txSolid atx = true) →
     ∃ w' tx',
       checkSolidity w h add = Returned (true, true) w'
       ∧ w' = emit (EvTransactionSolid h) (setSolid h w)
       ∧ store (setSolid h w) !! h = Some (txSetSolid tx)
       ∧ store w' !! h = Some tx' ∧ txSolid tx' = true
       ∧ txTrunk tx' = txTrunk tx ∧ txBranch tx' = txBranch tx
       ∧ txIsTail tx' = txIsTail tx ∧ txBundle tx' = txBundle tx
       ∧ cachedSolid w' h = true
       ∧ (∀ y, y ≠ h → store w' !! y = store w !! y)
       ∧ trace w' = EvTransactionSolid h :: trace w
       ∧ consumers w' = consumers w
       ∧ approversCache w' = approversCache w
       ∧ setTrace (trace w) (setStore (store w) w') = w)
  ∧ (txSolid tx = false →
     ¬ (∀ a, a ∈ approveeHashes tx → a ∉ solidEntryPoints w →
             ∃ atx, store w !! a = Some atx ∧ txSolid atx = true) →
     ∃ a w', find (λ a, negb (approveeOk w a)) (approveeHashes tx) = Some a
             ∧ w' = (if add then addApprover a h w else w)
             ∧ checkSolidity w h add = Returned (false, false) w'
             ∧ store w' = store w ∧ trace w' = trace w ∧ consumers w' = consumers w
             ∧ cachedSolid w' h = false
             ∧ a ∈ approveeHashes tx ∧ (a ∉ solidEntryPoints w) ∧ cachedSolid w a = false
             ∧ (a = txTrunk tx
                ∨ a = txBranch tx
                  ∧ (txTrunk tx ∈ solidEntryPoints w ∨ cachedSolid w (txTrunk tx) = true))
             ∧ (add = false → w' = w)
             ∧ (add = true →
                approversCache w' !! a
                = Some ({[h]} ∪ default ∅ (approversCache w !! a))
                ∧ (∀ b, b ≠ a → approversCache w' !! b = approversCache w !! b)
                ∧ setApproversCache (approversCache w) w' = w)).
Proof.
  intros Hh. split; [|split; [|split]].
  - unfold approveeHashes. by destruct (decide _).
  - intros Hs. by rewrite checkSolidity_spec, Hh, Hs.
  - intros Hs Hall. rewrite checkSolidity_spec, Hh, Hs.
    assert (find (λ a, negb (approveeOk w a)) (approveeHashes tx) = None) as ->.
    { destruct (find _ _) as [a|] eqn:Hf; [|done].
      apply find_some in Hf as [Hin Hno]. apply list_elem_of_In in Hin.
      apply negb_true_iff in Hno.
      assert (approveeOk w a = true) as Hok by (apply approveeOk_true; eauto).
      congruence. }
    assert (store (setSolid h w) !! h = Some (txSetSolid tx)) as Hset.
    { unfold setSolid; simpl. rewrite lookup_alter_eq, Hh. done. }
    exists (emit (EvTransactionSolid h) (setSolid h w)), (txSetSolid tx).
    do 3 (split; [done|]). split; [exact Hset|]. do 5 (split; [done|]).
    split; [unfold cachedSolid; cbn [emit setTrace store]; by rewrite Hset|].
    split; [intros y Hy; unfold setSolid; cbn; by rewrite lookup_alter_ne|].
    do 3 (split; [done|]). by destruct w.
  - intros Hs Hnot. rewrite checkSolidity_spec, Hh, Hs.
    destruct (find _ _) as [a|] eqn:Hf.
    + exists a. eexists. split; [done|]. split; [done|]. split; [done|].
      assert (store (if add then addApprover a h w else w) = store w) as Hst
        by (by destruct add).
      split; [done|]. split; [by destruct add|]. split; [by destruct add|].
      split; [unfold cachedSolid; by rewrite Hst, Hh|].
      pose proof Hf as Hf'. apply find_some in Hf' as [Hin Hno].
      apply list_elem_of_In in Hin. apply negb_true_iff in Hno.
      unfold approveeOk in Hno. apply orb_false_iff in Hno as [Hsep Hca].
      apply bool_decide_eq_false_1 in Hsep.
      split; [done|]. split; [done|]. split; [done|]. split.
      { revert Hf. unfold approveeHashes. cbn [find].
        destruct (negb (approveeOk w (txTrunk tx))) eqn:Htr; [intros [= <-]; by left|].
        apply negb_false_iff in Htr. unfold approveeOk in Htr.
        apply orb_true_iff in Htr as [Htr%bool_decide_eq_true_1|Htr].
        - destruct (decide _); cbn [find]; [done|].
          destruct (negb _); [|done]. intros [= <-]. right. split; [done|by left].
        - destruct (decide _); cbn [find]; [done|].
          destruct (negb _); [|done]. intros [= <-]. right. split; [done|by right]. }
      split; [by intros ->|]. intros ->. unfold addApprover. cbn.
      split; [by rewrite lookup_insert_eq|].
      split; [intros b Hb; by rewrite lookup_insert_ne|]. by destruct w.
    + exfalso. apply Hnot. intros a Hin. apply approveeOk_true.
      apply list_elem_of_In in Hin.
      pose proof (find_none _ _ Hf a Hin) as Hn. by apply negb_false_iff in Hn.
Qed.

(** ** The first phase of the walk *)

(** The cone depends on the cache and on the solid entry points only. *)
Lemma reach_same (w w' : World) (tail y : Hash) :
  store w' = store w → solidEntryPoints w' = solidEntryPoints w →
  reach w tail y → reach w' tail y.
Proof.
  intros Hs He. induction 1 as [|x tx a _ IH Hx Ha Hn Hp Hc]; [constructor|].
  eapply reach_step; [done|by rewrite Hs|done|by rewrite He|by rewrite Hs|].
  unfold cachedSolid in *. by rewrite Hs.
Qed.

Lemma missing_same (w w' : World) (tail y : Hash) :
  store w' = store w → solidEntryPoints w' = solidEntryPoints w →
  missing w tail y → missing w' tail y.
Proof.
  intros Hs He (x & tx & Hr & Hx & Ha & Hn & Hy). exists x, tx.
  rewrite Hs, He. split; [by apply (reach_same w)|done].
Qed.

Lemma collecting_same (w w' : World) (tail : Hash) (V : gset Hash) (x : Hash)
    (todo : list Hash) (k : Walk) :
  store w' = store w → solidEntryPoints w' = solidEntryPoints w →
  collecting w tail V x todo k → collecting w' tail V x todo k.
Proof.
  intros Hs He [Ht Hr Hd Hc Hq Hcu Ha Hen Hf].
  assert (∀ a, cachedSolid w' a = cachedSolid w a) as Hcs
    by (intros a; unfold cachedSolid; by rewrite Hs).
  split; try done.
  - intros y Hy. rewrite Hs. destruct (Hr y Hy). split; [by apply (reach_same w)|done].
  - intros y tx a. rewrite Hs, He. apply Hd.
  - intros a b. rewrite Hs, !Hcs. apply Hc.
  - intros a Ha'. apply (missing_same w); auto.
  - intros a y. rewrite Hs, He. apply Ha.
  - intros y. rewrite Hcs. apply Hf.
Qed.

Lemma registerApproverOfApprovee_lookup (x a b : Hash) (m : gmap Hash (gset Hash)) (y : Hash) :
  y ∈ default ∅ (registerApproverOfApprovee x a m !! b)
  ↔ (b = a ∧ y = x) ∨ y ∈ default ∅ (m !! b).
Proof.
  unfold registerApproverOfApprovee.
  destruct (decide (a = b)) as [->|Hne].
  - rewrite lookup_insert_eq. simpl. set_solver.
  - rewrite lookup_insert_ne by done. naive_solver.
Qed.

Lemma cachedSolid_None (w : World) (a : Hash) : store w !! a = None → cachedSolid w a = false.
Proof. unfold cachedSolid. by intros ->. Qed.

Lemma cachedSolid_Some (w : World) (a : Hash) (tx : Transaction) :
  store w !! a = Some tx → cachedSolid w a = txSolid tx.
Proof. unfold cachedSolid. by intros ->. Qed.

Lemma collectApprovee_collecting (o : Oracle) (w : World) (tail : Hash) (V : gset Hash)
    (x : Hash) (tx : Transaction) (a : Hash) (todo : list Hash) (k : Walk) (b : bool) :
  collecting w tail V x (a :: todo) k →
  x ∈ V → store w !! x = Some tx → a ∈ approveeHashes tx →
  ∃ k' b', collectApprovee o x (w, k, b) a = (w, k', b')
           ∧ collecting w tail V x todo k'
           ∧ tick k' = tick k ∧ txsToRequest k ⊆ txsToRequest k'.
Proof.
  intros [Ht Hr Hd Hc Hq Hcu Ha He Hf] HxV Hx Hax.
  assert (reach w tail x) as Hrx by (apply Hr; set_solver).
  unfold collectApprovee.
  destruct (decide (a ∈ solidEntryPoints w)) as [Hsep|Hsep].
  { eexists _, _. split; [done|]. split; [|done].
    split; try done. intros y ty c Hy Hty Hc' Hns Hp. apply (Hd y ty c); try done.
    intros [-> Hin]. apply Hp. split; [done|]. set_solver. }
  destruct (txsChecked k !! a) as [isSolid|] eqn:Hchk.
  { eexists _, _. split; [done|]. split; [|done].
    split; simpl; try done.
    - intros y ty c Hy Hty Hc' Hns Hp.
      rewrite registerApproverOfApprovee_lookup.
      destruct (decide (y = x ∧ c = a)) as [[-> ->]|Hne]; [by eauto|].
      destruct (Hd y ty c) as [? ?]; try done; [|by eauto].
      intros [-> Hin]. apply Hp. split; [done|]. set_solver.
    - intros c y. rewrite registerApproverOfApprovee_lookup.
      intros [[-> ->]|Hy]; [by eauto|by apply Ha]. }
  change (store (acquire a w)) with (store w). rewrite release_acquire.
  destruct (store w !! a) as [atx|] eqn:Hsa.
  - destruct (txSolid atx) eqn:Hsolid.
    + (* in the cache and solid *)
      eexists _, _. split; [done|]. split; [|done].
      split; simpl; try done.
      * intros y ty c Hy Hty Hc' Hns Hp.
        rewrite registerApproverOfApprovee_lookup.
        destruct (decide (c = a)) as [->|Hca].
        -- rewrite lookup_insert_eq. split; [|by eauto].
           destruct (decide (y = x)) as [->|Hyx]; [by left|]. right.
           apply (Hd y ty a); try done. naive_solver.
        -- rewrite lookup_insert_ne by done.
           destruct (Hd y ty c) as [? ?]; try done; [|by eauto].
           intros [-> Hin]. apply Hp. split; [done|]. set_solver.
      * intros c b0. destruct (decide (c = a)) as [->|Hca].
        -- rewrite lookup_insert_eq. intros [= <-].
           rewrite (cachedSolid_Some _ _ _ Hsa), Hsolid. split; [done|].
           split; [by rewrite Hsa| done].
        -- rewrite lookup_insert_ne by done. apply Hc.
      * intros c y. rewrite registerApproverOfApprovee_lookup.
        intros [[-> ->]|Hy]; [by eauto|by apply Ha].
    + (* in the cache, not solid: to traverse *)
      assert (reach w tail a) as Hra.
      { eapply reach_step; eauto. by rewrite (cachedSolid_Some _ _ _ Hsa). }
      unfold rangeInsert.
      eexists _, _. split; [done|]. split; [|done].
      split; simpl.
      * set_solver.
      * intros y Hy. destruct (decide (y = a)) as [->|Hya]; [by (rewrite Hsa; eauto)|].
        apply Hr. set_solver.
      * intros y ty c Hy Hty Hc' Hns Hp.
        rewrite registerApproverOfApprovee_lookup.
        destruct (decide (c = a)) as [->|Hca].
        -- rewrite lookup_insert_eq. split; [|by eauto].
           destruct (decide (y = x)) as [->|Hyx]; [by left|]. right.
           apply (Hd y ty a); try done. naive_solver.
        -- rewrite lookup_insert_ne by done.
           destruct (Hd y ty c) as [? ?]; try done; [|by eauto].
           intros [-> Hin]. apply Hp. split; [done|]. set_solver.
      * intros c b0. destruct (decide (c = a)) as [->|Hca].
        -- rewrite lookup_insert_eq. intros [= <-].
           rewrite (cachedSolid_Some _ _ _ Hsa), Hsolid. split; [done|].
           split; [by rewrite Hsa|set_solver].
        -- rewrite lookup_insert_ne by done. intros Hcb.
           destruct (Hc c b0 Hcb) as (? & ? & Hin). split; [done|]. split; [done|].
           intros ? ?. specialize (Hin ltac:(done) ltac:(done)). set_solver.
      * done.
      * intros y. rewrite elem_of_union, elem_of_filter. set_solver.
      * intros c y. rewrite registerApproverOfApprovee_lookup.
        intros [[-> ->]|Hy]; [by eauto|by apply Ha].
      * done.
      * intros y Hy Hyt. destruct (decide (y = a)) as [->|Hya].
        -- by rewrite (cachedSolid_Some _ _ _ Hsa).
        -- apply Hf; [|done]. set_solver.
  - (* not in the cache: to request *)
    eexists _, _. split; [done|]. split; [|split; [done|set_solver]].
    split; simpl; try done.
    * intros y ty c Hy Hty Hc' Hns Hp.
      rewrite registerApproverOfApprovee_lookup.
      destruct (decide (c = a)) as [->|Hca].
      -- rewrite lookup_insert_eq. split; [|by eauto].
         destruct (decide (y = x)) as [->|Hyx]; [by left|]. right.
         apply (Hd y ty a); try done. naive_solver.
      -- rewrite lookup_insert_ne by done.
         destruct (Hd y ty c) as [? ?]; try done; [|by eauto].
         intros [-> Hin]. apply Hp. split; [done|]. set_solver.
    * intros c b0. destruct (decide (c = a)) as [->|Hca].
      -- rewrite lookup_insert_eq. intros [= <-].
         rewrite (cachedSolid_None _ _ Hsa). split; [done|].
         split; [set_solver|]. rewrite Hsa. by intros [? ?].
      -- rewrite lookup_insert_ne by done. intros Hcb.
         destruct (Hc c b0 Hcb) as (? & Hin & ?). split; [done|]. split; [|done].
         intros ?. specialize (Hin ltac:(done)). set_solver.
    * intros c. rewrite elem_of_union, elem_of_singleton. intros [->|Hin]; [|by apply Hq].
      exists x, tx. done.
    * intros c y. rewrite registerApproverOfApprovee_lookup.
      intros [[-> ->]|Hy]; [by eauto|by apply Ha].
Qed.

Lemma foldl_collectApprovee_collecting (o : Oracle) (w : World) (tail : Hash)
    (V : gset Hash) (x : Hash) (tx : Transaction) (todo : list Hash) :
  x ∈ V → store w !! x = Some tx → todo ⊆ approveeHashes tx →
  ∀ (k : Walk) (b : bool),
    collecting w tail V x todo k →
    ∃ k' b', foldl (collectApprovee o x) (w, k, b) todo = (w, k', b')
             ∧ collecting w tail V x [] k'
             ∧ tick k' = tick k ∧ txsToRequest k ⊆ txsToRequest k'.
Proof.
  intros HxV Hx. induction todo as [|a todo IH]; intros Hsub k b Hk; cbn [foldl].
  { by eexists _, _. }
  destruct (collectApprovee_collecting o w tail V x tx a todo k b)
    as (k1 & b1 & -> & Hk1 & Ht1 & Hq1); try done; [set_solver|].
  destruct (IH ltac:(set_solver) k1 b1 Hk1) as (k2 & b2 & -> & Hk2 & Ht2 & Hq2).
  eexists _, _. split; [done|]. split; [done|]. split; [congruence|set_solver].
Qed.

Lemma pick_elem_of (n : nat) (cur : gset Hash) (h : Hash) : pick n cur = Some h → h ∈ cur.
Proof.
  unfold pick. intros H. apply elem_of_elements. by eapply list_elem_of_lookup_2.
Qed.

Lemma pick_None (n : nat) (cur : gset Hash) : pick n cur = None → cur = ∅.
Proof.
  unfold pick. intros H. apply lookup_ge_None in H.
  destruct (elements cur) as [|e l] eqn:He; [by apply elements_empty_inv in He; apply leibniz_equiv|].
  exfalso. pose proof (Nat.mod_upper_bound n (length (e :: l))) as Hb.
  simpl in *. lia.
Qed.

Lemma pick_singleton (n : nat) (h : Hash) : pick n {[h]} = Some h.
Proof.
  destruct (pick n {[h]}) as [h'|] eqn:Hp.
  - apply pick_elem_of in Hp. set_solver.
  - apply pick_None in Hp. set_solver.
Qed.

Lemma pick_empty (n : nat) : pick n ∅ = None.
Proof.
  destruct (pick n ∅) as [h'|] eqn:Hp; [|done].
  apply pick_elem_of in Hp. set_solver.
Qed.

(** What a turn of the first phase does: it leaves the world as it is, and
    it keeps the invariant. *)
Lemma collectStep_Next (o : Oracle) (w : World) (tail : Hash) (V : gset Hash) (x : Hash)
    (k : Walk) (w' : World) (k' : Walk) :
  collecting w tail V x [] k →
  collectStep o w k = Next w' k' →
  w' = w ∧ ∃ V' x', collecting w tail V' x' [] k'
                    ∧ tick k' = S (tick k) ∧ txsToRequest k ⊆ txsToRequest k'.
Proof.
  intros Hk. unfold collectStep.
  set (cur := if decide (cursor k = ∅) then txsToTraverse k else cursor k).
  destruct (pick (orderOf o (tick k)) cur) as [h|] eqn:Hp; [|done].
  destruct (abortClosed o (tick k)); [done|].
  change (store (acquire h w)) with (store w).
  assert (h ∈ txsToTraverse k) as HhW.
  { apply pick_elem_of in Hp. subst cur. destruct (decide _); [done|].
    by apply (col_cursor _ _ _ _ _ _ Hk). }
  destruct (store w !! h) as [tx|] eqn:Hh; [|done].
  set (k1 := Build_Walk _ _ _ _ _ _ _ _ _).
  assert (collecting (acquire h w) tail ({[h]} ∪ V) h (approveeHashes tx) k1) as Hk1.
  { apply (collecting_same w); [done|done|]. destruct Hk as [Ht Hr Hd Hc Hq Hcu Ha He Hf]. subst k1. split; simpl.
    - destruct (decide (tail = h)); set_solver.
    - intros y Hy. apply Hr. set_solver.
    - intros y ty c Hy Hty Hc' Hns Hp'.
      destruct (decide (y = h)) as [->|Hyh].
      + exfalso. apply Hp'. split; [done|]. congruence.
      + apply (Hd y ty c); try done; [set_solver|]. by intros [? ?%not_elem_of_nil].
    - intros c b0 Hcb. destruct (Hc c b0 Hcb) as (? & ? & Hin).
      split; [done|]. split; [done|]. intros ? ?.
      specialize (Hin ltac:(done) ltac:(done)).
      destruct (decide (c = h)); set_solver.
    - done.
    - subst cur. destruct (decide _); set_solver.
    - intros c y Hy. destruct (Ha c y Hy) as (? & ? & ?). split; [set_solver|done].
    - set_solver.
    - intros y Hy. apply Hf. set_solver. }
  destruct (foldl_collectApprovee_collecting o (acquire h w) tail ({[h]} ∪ V) h tx
              (approveeHashes tx) ltac:(set_solver) Hh ltac:(done) k1 true Hk1)
    as (k2 & b2 & -> & Hk2 & Ht2 & Hq2).
  rewrite release_acquire. intros [= <- <-]. split; [done|].
  exists ({[h]} ∪ V), h. simpl. split; [|split; [by rewrite Ht2|done]].
  apply (collecting_same (acquire h w)); [done|done|].
  destruct Hk2 as [Ht Hr Hd Hc Hq Hcu Ha He Hf]. split; simpl; try done.
  destruct b2; set_solver.
Qed.

Lemma collectStep_Exit (o : Oracle) (w : World) (k : Walk) (w' : World) (k' : Walk) :
  cursor k ⊆ txsToTraverse k →
  collectStep o w k = Exit w' k' → w' = w ∧ k' = k ∧ txsToTraverse k = ∅.
Proof.
  intros Hcu. unfold collectStep.
  destruct (pick _ _) as [h|] eqn:Hp.
  - destruct (abortClosed _ _); [done|]. destruct (store _ !! _); [|done].
    by destruct (foldl _ _ _) as [[? ?] ?].
  - intros [= <- <-]. apply pick_None in Hp. destruct (decide _); set_solver.
Qed.

Lemma collectStep_Halt (o : Oracle) (w : World) (k : Walk) (r : Outcome (bool * bool)) :
  collectStep o w k = Halt r →
  r = Returned (false, true) w ∨ ∃ h, r = Panicked (acquire h w).
Proof.
  unfold collectStep.
  destruct (pick _ _) as [h|] eqn:Hp; [|done].
  destruct (abortClosed _ _); [by intros [= <-]; left|].
  destruct (store _ !! _); [by destruct (foldl _ _ _) as [[? ?] ?]|].
  intros [= <-]. eauto.
Qed.

(** ** Loops *)

(** The result of a loop is the result of the first turn that does not
    lead to a next one, taken in a state that the turns before it lead
    to. *)
Lemma runLoop_inv {K} (step : World → K → Step K) (I : World → K → Prop) :
  (∀ w k w' k', I w k → step w k = Next w' k' → I w' k') →
  ∀ fuel w k, I w k →
    match runLoop step fuel w k with
    | Next _ _ => False
    | Exit w' k' => ∃ w1 k1, I w1 k1 ∧ step w1 k1 = Exit w' k'
    | Halt r => r = OutOfFuel ∨ ∃ w1 k1, I w1 k1 ∧ step w1 k1 = Halt r
    end.
Proof.
  intros Hstep. induction fuel as [|fuel IH]; intros w k Hk; simpl; [by left|].
  destruct (step w k) as [w' k'|w' k'|r] eqn:Hs.
  - apply IH. by eapply Hstep.
  - by exists w, k.
  - right. by exists w, k.
Qed.

(** A loop whose turns decrease a measure ends before the fuel does. *)
Lemma runLoop_terminates {K} (step : World → K → Step K) (I : World → K → Prop)
    (μ : World → K → nat) :
  (∀ w k w' k', I w k → step w k = Next w' k' → I w' k' ∧ (μ w' k' < μ w k)%nat) →
  (∀ w k, I w k → step w k ≠ Halt OutOfFuel) →
  ∀ fuel w k, I w k → (μ w k < fuel)%nat → runLoop step fuel w k ≠ Halt OutOfFuel.
Proof.
  intros Hstep Hne. induction fuel as [|fuel IH]; intros w k Hk Hlt; simpl; [lia|].
  destruct (step w k) as [w' k'|w' k'|r] eqn:Hs; [|done|].
  - destruct (Hstep w k w' k' Hk Hs) as [Hk' Hlt']. apply IH; [done|lia].
  - intros [= ->]. by apply (Hne w k Hk).
Qed.

Lemma collecting_init (w : World) (tail : Hash) :
  is_Some (store w !! tail) → collecting w tail ∅ tail [] (walkInit tail).
Proof.
  intros Hp. split; simpl; try set_solver.
  intros y Hy. assert (y = tail) as -> by set_solver. split; [constructor|done].
Qed.

(** The first phase ends with nothing left to traverse, in the world it
    started in. *)
Lemma collect_Exit (fuel : nat) (o : Oracle) (w : World) (tail : Hash)
    (w1 : World) (k1 : Walk) :
  is_Some (store w !! tail) →
  runLoop (collectStep o) fuel w (walkInit tail) = Exit w1 k1 →
  w1 = w ∧ txsToTraverse k1 = ∅ ∧ ∃ V x, collecting w tail V x [] k1.
Proof.
  intros Hp Hrun.
  pose proof (runLoop_inv (collectStep o)
                (λ w' k', w' = w ∧ ∃ V x, collecting w tail V x [] k')) as Hinv.
  specialize (Hinv ltac:(
    intros w2 k2 w3 k3 [-> (V & x & Hk)] Hs;
    destruct (collectStep_Next _ _ _ _ _ _ _ _ Hk Hs) as (-> & V' & x' & Hk' & _);
    eauto) fuel w (walkInit tail)
    ltac:(split; [done|]; exists ∅, tail; by apply collecting_init)).
  rewrite Hrun in Hinv. destruct Hinv as (w2 & k2 & [-> (V & x & Hk)] & Hs).
  apply collectStep_Exit in Hs as (-> & -> & HW); [|by apply (col_cursor _ _ _ _ _ _ Hk)].
  eauto.
Qed.

Lemma collect_Halt (fuel : nat) (o : Oracle) (w : World) (tail : Hash)
    (r : Outcome (bool * bool)) :
  is_Some (store w !! tail) →
  runLoop (collectStep o) fuel w (walkInit tail) = Halt r →
  r = OutOfFuel ∨ r = Returned (false, true) w ∨ ∃ h, r = Panicked (acquire h w).
Proof.
  intros Hp Hrun.
  pose proof (runLoop_inv (collectStep o)
                (λ w' k', w' = w ∧ ∃ V x, collecting w tail V x [] k')) as Hinv.
  specialize (Hinv ltac:(
    intros w2 k2 w3 k3 [-> (V & x & Hk)] Hs;
    destruct (collectStep_Next _ _ _ _ _ _ _ _ Hk Hs) as (-> & V' & x' & Hk' & _);
    eauto) fuel w (walkInit tail)
    ltac:(split; [done|]; exists ∅, tail; by apply collecting_init)).
  rewrite Hrun in Hinv. destruct Hinv as [->|(w2 & k2 & [-> _] & Hs)]; [by left|].
  right. by apply collectStep_Halt in Hs.
Qed.

(** When nothing is left to traverse, the transactions visited are the
    cone, and the hashes to request are the missing approvees. *)
Lemma collecting_cone (w : World) (tail : Hash) (V : gset Hash) (x : Hash) (k : Walk) :
  collecting w tail V x [] k → txsToTraverse k = ∅ →
  ∀ y, reach w tail y → y ∈ V.
Proof.
  intros [Ht Hr Hd Hc Hq Hcu Ha He Hf] HW.
  induction 1 as [|y tx a _ IH Hy Hin Hn Hp Hs]; [set_solver|].
  destruct (Hd y tx a) as [_ [b Hb]]; try done; [by intros [_ ?%not_elem_of_nil]|].
  destruct (Hc a b Hb) as (_ & _ & HaV). specialize (HaV Hp Hs). set_solver.
Qed.

Lemma collecting_requests (w : World) (tail : Hash) (V : gset Hash) (x : Hash) (k : Walk) :
  collecting w tail V x [] k → txsToTraverse k = ∅ →
  ∀ a, a ∈ txsToRequest k ↔ missing w tail a.
Proof.
  intros Hk HW a. split; [apply (col_request _ _ _ _ _ _ Hk)|].
  intros (y & tx & Hry & Hy & Hin & Hn & Hnone).
  pose proof (collecting_cone _ _ _ _ _ Hk HW y Hry) as HyV.
  destruct Hk as [Ht Hr Hd Hc Hq Hcu Ha He Hf].
  destruct (Hd y tx a) as [_ [b Hb]]; try done; [by intros [_ ?%not_elem_of_nil]|].
  destruct (Hc a b Hb) as (_ & Hreq & _). by apply Hreq.
Qed.

(** ** The second phase of the walk *)

Lemma advances_refl (w : World) : advances w w.
Proof.
  split; try done.
  - intros h tx0 tx H0 H. by simplify_eq.
  - exists []. split; [done|]. split; [done|]. intros h. split.
    + by intros ?%not_elem_of_nil.
    + intros [? ?]; congruence.
  - intros h tx Hn Hh Hs. rewrite (cachedSolid_Some _ _ _ Hh) in Hn. congruence.
Qed.

Lemma advances_cachedSolid (w0 w : World) (h : Hash) :
  advances w0 w → cachedSolid w0 h = true → cachedSolid w h = true.
Proof.
  intros Hadv. unfold cachedSolid.
  destruct (store w0 !! h) as [tx0|] eqn:H0; [|done].
  destruct (store w !! h) as [tx|] eqn:H.
  - intros Hs. by apply (adv_tx _ _ Hadv h tx0 tx).
  - apply (adv_dom _ _ Hadv) in H. congruence.
Qed.

Lemma cachedSolid_setSolid (w : World) (h a : Hash) :
  cachedSolid w a = true → cachedSolid (setSolid h w) a = true.
Proof.
  unfold cachedSolid, setSolid. simpl. rewrite lookup_alter.
  destruct (decide (h = a)) as [->|Hne]; [|done].
  by destruct (store w !! a).
Qed.

Lemma approveeOk_setSolid (w : World) (h a : Hash) :
  approveeOk w a = true → approveeOk (setSolid h w) a = true.
Proof.
  unfold approveeOk. change (solidEntryPoints (setSolid h w)) with (solidEntryPoints w).
  destruct (bool_decide _); [done|]. simpl. apply cachedSolid_setSolid.
Qed.

(** The worlds a visit of the second phase can lead to. *)
Lemma advances_solid (w0 w : World) (h : Hash) (tx : Transaction) :
  advances w0 w → store w !! h = Some tx → txSolid tx = false → parentsSolid w tx →
  advances w0 (emit (EvTransactionSolid h) (setSolid h w)).
Proof.
  intros Hadv Hh Hs Hpar.
  assert (cachedSolid w h = false) as Hwh by (by rewrite (cachedSolid_Some _ _ _ Hh)).
  assert (cachedSolid (setSolid h w) h = true) as Hwh'.
  { unfold cachedSolid, setSolid. simpl. by rewrite lookup_alter_eq, Hh. }
  assert (cachedSolid w0 h = false) as Hw0h.
  { destruct (cachedSolid w0 h) eqn:H0h; [|done].
    apply (advances_cachedSolid _ _ _ Hadv) in H0h. congruence. }
  destruct Hadv. split; simpl; try done.
  - intros a. rewrite lookup_alter. destruct (decide (h = a)) as [->|Hne]; [|done].
    rewrite <- adv_dom0. by destruct (store w !! a).
  - intros a tx0 tx'. rewrite lookup_alter. destruct (decide (h = a)) as [->|Hne].
    + rewrite Hh. simpl. intros H0 [= <-].
      destruct (adv_tx0 a tx0 tx H0 Hh) as (? & ? & ? & ? & ?). done.
    + apply adv_tx0.
  - destruct adv_trace0 as (new & Htr & Hnew & Hann). exists (EvTransactionSolid h :: new).
    split; [by rewrite Htr|]. split; [constructor; [by exists h; left|done]|].
    intros a. rewrite elem_of_cons, Hann.
    change (cachedSolid (emit _ ?w') a) with (cachedSolid w' a).
    split.
    + intros [[= ->]|[H0 Ha]]; [done|]. split; [done|]. by apply cachedSolid_setSolid.
    + intros [H0 Ha]. destruct (decide (a = h)) as [->|Hne]; [by left|]. right.
      split; [done|]. unfold cachedSolid, setSolid in Ha. simpl in Ha.
      by rewrite lookup_alter_ne in Ha.
  - intros a tx' Hn. rewrite lookup_alter. destruct (decide (h = a)) as [->|Hne].
    + rewrite Hh. simpl. intros [= <-] _ c Hc. apply approveeOk_setSolid. by apply Hpar.
    + intros Ha Hsa c Hc. apply approveeOk_setSolid. by apply (adv_parents0 a tx').
Qed.

Lemma advances_submit (w0 w : World) (h : Hash) :
  advances w0 w → advances w0 (emit (EvFutureConeSubmit h) (acquire h w)).
Proof.
  intros []. split; simpl; try done.
  destruct adv_trace0 as (new & Htr & Hnew & Hann). exists (EvFutureConeSubmit h :: new).
  split; [by rewrite Htr|]. split; [constructor; [by exists h; right|done]|].
  intros a. rewrite elem_of_cons, <- Hann. naive_solver.
Qed.

Lemma advances_handles (w0 w : World) (c : gmultiset Hash) :
  advances w0 w → advances w0 (setConsumers c w).
Proof. by intros []. Qed.

Lemma release_markedSolid (h : Hash) (w : World) :
  release h
    (if nodeSynced w
     then emit (EvFutureConeSubmit h)
            (acquire h (emit (EvTransactionSolid h) (setSolid h (acquire h w))))
     else emit (EvTransactionSolid h) (setSolid h (acquire h w)))
  = markedSolid h w.
Proof. unfold markedSolid. destruct (nodeSynced w); world_eq. Qed.

Lemma parentsSolid_find (w : World) (tx : Transaction) :
  find (λ a, negb (approveeOk w a)) (approveeHashes tx) = None ↔ parentsSolid w tx.
Proof.
  unfold parentsSolid. split.
  - intros Hf a Hin. apply list_elem_of_In in Hin.
    pose proof (find_none _ _ Hf a Hin) as Hn. by apply negb_false_iff in Hn.
  - intros Hall. destruct (find _ _) as [a|] eqn:Hf; [|done].
    apply find_some in Hf as [Hin Hno]. apply list_elem_of_In in Hin.
    apply negb_true_iff in Hno. rewrite Hall in Hno; done.
Qed.

Lemma propagateVisit_Next (o : Oracle) (w : World) (k : Walk) (w' : World) (k' : Walk) :
  propagateVisit o w k = Next w' k' →
  ∃ h tx, pick (orderOf o (tick k)) (cursor k) = Some h
          ∧ abortClosed o (tick k) = false
          ∧ store w !! h = Some tx
          ∧ ((txSolid tx = true ∧ w' = w ∧ k' = visitedSolid o k h)
             ∨ (txSolid tx = false ∧ parentsSolid w tx
                ∧ w' = markedSolid h w ∧ k' = visitedSolid o k h)
             ∨ (txSolid tx = false ∧ ¬ parentsSolid w tx
                ∧ w' = w ∧ k' = visitedNotSolid k h)).
Proof.
  unfold propagateVisit.
  destruct (pick _ _) as [h|] eqn:Hp; [|done].
  destruct (abortClosed _ _) eqn:Hab; [done|].
  change (store (acquire h w)) with (store w).
  destruct (store w !! h) as [tx|] eqn:Hh; [|done].
  rewrite checkSolidity_spec.
  change (store (acquire h w)) with (store w). rewrite Hh.
  change (approveeOk (acquire h w)) with (approveeOk w).
  destruct (txSolid tx) eqn:Hs.
  - simpl. rewrite release_acquire. intros [= <- <-].
    exists h, tx. split; [done|]. split; [done|]. split; [done|]. left. done.
  - destruct (find _ _) as [a|] eqn:Hf.
    + simpl. rewrite release_acquire. intros [= <- <-].
      exists h, tx. do 3 (split; [done|]). right; right.
      split; [done|]. split; [|done]. rewrite <- parentsSolid_find. congruence.
    + apply parentsSolid_find in Hf. cbn [rangeInsert andb].
      change (nodeSynced (emit _ _)) with (nodeSynced w).
      intros [= <- <-]. exists h, tx. do 3 (split; [done|]). right; left.
      split; [done|]. split; [done|]. split; [|done].
      apply release_markedSolid.
Qed.

Lemma propagateVisit_Exit (o : Oracle) (w : World) (k : Walk) (w' : World) (k' : Walk) :
  propagateVisit o w k = Exit w' k' → w' = w ∧ k' = k ∧ cursor k = ∅.
Proof.
  unfold propagateVisit.
  destruct (pick _ _) as [h|] eqn:Hp.
  - destruct (abortClosed _ _); [done|].
    destruct (store _ !! _); [|done].
    destruct (checkSolidity _ _ _) as [[[] ?] ?| | |]; done.
  - intros [= <- <-]. by apply pick_None in Hp.
Qed.

Lemma propagateVisit_Halt (o : Oracle) (w : World) (k : Walk) (r : Outcome (bool * bool)) :
  propagateVisit o w k = Halt r →
  r = Returned (false, true) w ∨ ∃ h, r = Panicked (acquire h w).
Proof.
  unfold propagateVisit.
  destruct (pick _ _) as [h|] eqn:Hp; [|done].
  destruct (abortClosed _ _); [by intros [= <-]; left|].
  change (store (acquire h w)) with (store w).
  destruct (store w !! h) as [tx|] eqn:Hh; [|by intros [= <-]; eauto].
  rewrite checkSolidity_spec.
  change (store (acquire h w)) with (store w). rewrite Hh.
  destruct (txSolid tx); [done|]. destruct (find _ _); done.
Qed.

Lemma advances_markedSolid (w0 w : World) (h : Hash) (tx : Transaction) :
  advances w0 w → store w !! h = Some tx → txSolid tx = false → parentsSolid w tx →
  advances w0 (markedSolid h w).
Proof.
  intros Hadv Hh Hs Hpar. unfold markedSolid.
  pose proof (advances_solid _ _ _ _ Hadv Hh Hs Hpar) as Hadv'.
  destruct (nodeSynced w); [by apply advances_submit|done].
Qed.

Lemma propagateStep_unfold (o : Oracle) (w : World) (k : Walk) :
  propagateStep o w k =
    if decide (cursor k = ∅) then
      if newSolidTxFound k then propagateVisit o w (restarted k) else Exit w k
    else propagateVisit o w k.
Proof. done. Qed.

Lemma propagateStep_advances (o : Oracle) (w0 w : World) (k : Walk) (w' : World) (k' : Walk) :
  advances w0 w → propagateStep o w k = Next w' k' → advances w0 w'.
Proof.
  intros Hadv. rewrite propagateStep_unfold.
  assert (∀ k0, propagateVisit o w k0 = Next w' k' → advances w0 w') as Hv.
  { intros k0 Hs. apply propagateVisit_Next in Hs
      as (h & tx & _ & _ & Hh & [(_ & -> & _)|[(Hs & Hpar & -> & _)|(_ & _ & -> & _)]]);
      [done| |done].
    by eapply advances_markedSolid. }
  destruct (decide _); [destruct (newSolidTxFound k); [apply Hv|done]|apply Hv].
Qed.

Lemma propagateStep_Exit (o : Oracle) (w : World) (k : Walk) (w' : World) (k' : Walk) :
  propagateStep o w k = Exit w' k' →
  w' = w ∧ (k' = k ∨ (k' = restarted k ∧ entryTxs k = ∅)).
Proof.
  rewrite propagateStep_unfold. destruct (decide _).
  - destruct (newSolidTxFound k).
    + intros (-> & -> & Hc)%propagateVisit_Exit. split; [done|]. right. done.
    + intros [= <- <-]. by split; [|left].
  - intros (-> & -> & Hc)%propagateVisit_Exit. by split; [|left].
Qed.

Lemma propagateStep_Halt (o : Oracle) (w : World) (k : Walk) (r : Outcome (bool * bool)) :
  propagateStep o w k = Halt r →
  r = Returned (false, true) w ∨ ∃ h, r = Panicked (acquire h w).
Proof.
  rewrite propagateStep_unfold.
  destruct (decide _); [destruct (newSolidTxFound k); [|done]|];
    apply propagateVisit_Halt.
Qed.

(** What the second phase leads to, from a world [w] that advances [w0]. *)
Lemma propagate_result (fuel : nat) (o : Oracle) (w0 w : World) (k : Walk) :
  advances w0 w →
  match runLoop (propagateStep o) fuel w k with
  | Next _ _ => False
  | Exit w' _ => advances w0 w'
  | Halt r =>
      r = OutOfFuel
      ∨ ∃ w', advances w0 w' ∧ (r = Returned (false, true) w' ∨ ∃ h, r = Panicked (acquire h w'))
  end.
Proof.
  intros Hadv.
  assert (∀ w1 k1 w2 k2, advances w0 w1 → propagateStep o w1 k1 = Next w2 k2 →
                          advances w0 w2) as Hstep
    by (intros ? ? ? ? ? ?; by eapply propagateStep_advances).
  pose proof (runLoop_inv (propagateStep o) (λ w' _, advances w0 w') Hstep
                fuel w k Hadv) as Hinv.
  destruct (runLoop _ _ _ _) as [|w' k'|r]; [done| |].
  - destruct Hinv as (w1 & k1 & Hadv1 & Hs). by apply propagateStep_Exit in Hs as [-> _].
  - destruct Hinv as [->|(w1 & k1 & Hadv1 & Hs)]; [by left|]. right.
    apply propagateStep_Halt in Hs. eauto.
Qed.

Lemma advances_from_handles (w0 w : World) (c : gmultiset Hash) :
  advances (setConsumers c w0) w → advances w0 w.
Proof. by intros []. Qed.

(** ** solidQueueCheck *)

(** The three ways in which the walk returns: it requests the missing
    approvees of the cone, it is aborted, or it goes through the second
    phase to its end. *)
Lemma solidQueueCheck_Returned (fuel : nat) (o : Oracle) (w : World)
    (ms : MilestoneIndex) (tail : Hash) (solid aborted : bool) (w' : World) :
  solidQueueCheck fuel o w ms tail = Returned (solid, aborted) w' →
  (solid = false ∧ aborted = false
   ∧ ∃ req : gset Hash, req ≠ ∅ ∧ (∀ a, a ∈ req ↔ missing w tail a)
                        ∧ w' = emit (EvRequestMulti (elements req) ms) w)
  ∨ (solid = false ∧ aborted = true ∧ advances w w')
  ∨ (aborted = false ∧ (∀ a, ¬ missing w tail a) ∧ advances w w').
Proof.
  unfold solidQueueCheck. change (store (acquire tail w)) with (store w).
  destruct (store w !! tail) as [ttx|] eqn:Htail; [|done].
  assert (is_Some (store (acquire tail w) !! tail)) as Hp by (by exists ttx).
  destruct (runLoop (collectStep o) _ _ _) as [|w1 k1|r] eqn:Hrun; [done| |].
  - apply collect_Exit in Hrun as (-> & HW & V & x & Hk); [|done].
    pose proof (collecting_requests _ _ _ _ _ Hk HW) as Hreq.
    assert (∀ a, a ∈ txsToRequest k1 ↔ missing w tail a) as Hreq'.
    { intros a. rewrite Hreq. split; by apply missing_same. }
    unfold afterCollect. destruct (decide (txsToRequest k1 = ∅)) as [Hq|Hq].
    + destruct (decide (entryTxs k1 = ∅)); [done|].
      pose proof (propagate_result fuel o (acquire tail w) (acquire tail w)
                    (walkPropagateInit k1) (advances_refl _)) as Hres.
      destruct (runLoop (propagateStep o) _ _ _) as [|w2 k2|r]; [done| |].
      * simpl. intros [= <- <- <-]. right; right. split; [done|].
        split; [intros a Ha; apply Hreq' in Ha; set_solver|].
        apply advances_handles. by apply advances_from_handles in Hres.
      * destruct Hres as [->|(w2 & Hadv & [->|[h ->]])]; [done| |done].
        simpl. intros [= <- <- <-]. right; left. split; [done|]. split; [done|].
        apply advances_handles. by apply advances_from_handles in Hadv.
    + simpl. intros [= <- <- <-]. left. split; [done|]. split; [done|].
      exists (txsToRequest k1). split; [done|]. split; [done|]. world_eq.
  - apply collect_Halt in Hrun as [->|[->|[h ->]]]; [done| |done|done].
    simpl. rewrite release_acquire. intros [= <- <- <-]. right; left.
    split; [done|]. split; [done|]. apply advances_refl.
Qed.

Lemma reach_present (w : World) (tail y : Hash) :
  is_Some (store w !! tail) → reach w tail y → is_Some (store w !! y).
Proof. intros Ht. by destruct 1. Qed.

Lemma reach_ancestor (w : World) (tail y : Hash) : reach w tail y → ancestor w tail y.
Proof. induction 1; [constructor|by eapply ancestor_step]. Qed.

Lemma ancestor_cases (w : World) (tail y : Hash) :
  consistent w → ancestor w tail y →
  reach w tail y ∨ cachedSolid w y = true ∨ missing w tail y.
Proof.
  intros Hcons. induction 1 as [|x tx a _ IH Hx Ha Hn]; [left; constructor|].
  destruct IH as [Hr|[Hs|(? & ? & ? & ? & ? & ? & ?)]]; [| |congruence].
  - destruct (store w !! a) as [atx|] eqn:Hsa.
    + destruct (cachedSolid w a) eqn:Hca; [by right; left|].
      left. by eapply reach_step; eauto.
    + right; right. exists x, tx. done.
  - right; left. rewrite (cachedSolid_Some _ _ _ Hx) in Hs.
    specialize (Hcons x tx Hx Hs a Ha). unfold approveeOk in Hcons.
    by rewrite (bool_decide_eq_false_2 _ Hn) in Hcons.
Qed.

(** With sound flags, the missing approvees of the cone are the ancestors
    of the tail that the cache does not hold. *)
Lemma missing_ancestor (w : World) (tail a : Hash) :
  consistent w → is_Some (store w !! tail) →
  missing w tail a ↔ ancestor w tail a ∧ store w !! a = None.
Proof.
  intros Hcons Ht. split.
  - intros (x & tx & Hr & Hx & Ha & Hn & Hnone). split; [|done].
    eapply ancestor_step; eauto. by apply reach_ancestor.
  - intros [Hanc Hnone].
    destruct (ancestor_cases _ _ _ Hcons Hanc) as [Hr|[Hs|Hm]]; [| |done].
    + apply (reach_present _ _ _ Ht) in Hr. rewrite Hnone in Hr. by destruct Hr.
    + by rewrite (cachedSolid_None _ _ Hnone) in Hs.
Qed.

(** An ancestor of the tail is in the cone, or is a missing approvee of the
    cone, or is behind a transaction that is marked solid: the walk does
    not go past such a transaction. *)
Lemma ancestor_kinds (w : World) (tail y : Hash) :
  ancestor w tail y →
  reach w tail y ∨ missing w tail y
  ∨ ∃ s, ancestor w tail s ∧ cachedSolid w s = true ∧ ancestor w s y.
Proof.
  induction 1 as [|x tx a Hanc IH Hx Ha Hn]; [left; constructor|].
  destruct IH as [Hr|[(? & ? & ? & ? & ? & ? & ?)|(s & Hs & Hsolid & Hsx)]]; [|congruence|].
  - destruct (store w !! a) as [atx|] eqn:Hsa.
    + destruct (cachedSolid w a) eqn:Hca.
      * right; right. exists a. split; [by eapply ancestor_step|]. split; [done|constructor].
      * left. by eapply reach_step; eauto.
    + right; left. exists x, tx. done.
  - right; right. exists s. split; [done|]. split; [done|]. by eapply ancestor_step.
Qed.

Lemma solidQueueCheck_tail (fuel : nat) (o : Oracle) (w : World)
    (ms : MilestoneIndex) (tail : Hash) (r : bool * bool) (w' : World) :
  solidQueueCheck fuel o w ms tail = Returned r w' → is_Some (store w !! tail).
Proof.
  unfold solidQueueCheck. change (store (acquire tail w)) with (store w).
  by destruct (store w !! tail).
Qed.

(** C8, amended: a walk that returns (false, false) has asked the gossip
    layer at most once, in one call tagged with the index of the milestone,
    and the hashes it asked for are the approvees of the cone of the tail
    that the cache does not hold, the solid entry points left out: none of
    them is left out, and nothing else is asked for.  Each of them is an
    ancestor of the tail that the cache does not hold.  An ancestor that
    the cache does not hold and that is not asked for is behind a
    transaction of the cache that is marked solid, past which the walk does
    not go; when the solid flags of the cache are sound there is none, and
    what is asked for are the ancestors of the tail that the cache does
    not hold. *)
Theorem requested_are_the_missing_ancestors (fuel : nat) (o : Oracle) (w : World)
    (ms : MilestoneIndex) (tail : Hash) (w' : World) :
  solidQueueCheck fuel o w ms tail = Returned (false, false) w' →
  ∃ new requested,
    trace w' = (new ++ trace w)%list
    ∧ (new = [EvRequestMulti requested ms] ∧ requested ≠ []
       ∨ Forall solidEvent new ∧ requested = [])
    ∧ NoDup requested
    ∧ (∀ a, a ∈ requested ↔ missing w tail a)
    ∧ (consistent w →
       ∀ a, a ∈ requested ↔ ancestor w tail a ∧ store w !! a = None)
    ∧ (∀ a, a ∈ requested →
            ancestor w tail a ∧ store w !! a = None ∧ a ∉ solidEntryPoints w)
    ∧ (∀ a, ancestor w tail a → store w !! a = None → a ∉ requested →
            ∃ s stx, ancestor w tail s ∧ store w !! s = Some stx ∧ txSolid stx = true
                     ∧ s ≠ a ∧ ancestor w s a).
Proof.
  intros Hrun. pose proof (solidQueueCheck_tail _ _ _ _ _ _ _ Hrun) as Ht.
  assert (∀ requested : list Hash,
            (∀ a, a ∈ requested ↔ missing w tail a) →
            (consistent w →
             ∀ a, a ∈ requested ↔ ancestor w tail a ∧ store w !! a = None)
            ∧ (∀ a, a ∈ requested →
                    ancestor w tail a ∧ store w !! a = None ∧ a ∉ solidEntryPoints w)
            ∧ (∀ a, ancestor w tail a → store w !! a = None → a ∉ requested →
                    ∃ s stx, ancestor w tail s ∧ store w !! s = Some stx
                             ∧ txSolid stx = true ∧ s ≠ a ∧ ancestor w s a)) as Hlit.
  { intros requested Hreq. split; [|split].
    - intros Hcons a. by rewrite Hreq, missing_ancestor.
    - intros a (x & tx & Hr & Hx & Ha & Hn & Hnone)%Hreq. split; [|done].
      eapply ancestor_step; eauto. by apply reach_ancestor.
    - intros a Hanc Hnone Hnot.
      destruct (ancestor_kinds _ _ _ Hanc) as [Hr|[Hm|(s & Hs & Hsolid & Hsa)]].
      + apply (reach_present _ _ _ Ht) in Hr. rewrite Hnone in Hr. by destruct Hr.
      + by apply Hreq in Hm.
      + unfold cachedSolid in Hsolid. destruct (store w !! s) as [stx|] eqn:Hst; [|done].
        exists s, stx. do 3 (split; [done|]). split; [|done]. intros ->. congruence. }
  apply solidQueueCheck_Returned in Hrun
    as [(_ & _ & req & Hne & Hreq & ->)|[(_ & ? & _)|(_ & Hno & Hadv)]]; [| done |].
  - exists [EvRequestMulti (elements req) ms], (elements req).
    assert (∀ a, a ∈ elements req ↔ missing w tail a) as Hreq'
      by (intros a; by rewrite elem_of_elements).
    split; [done|]. split.
    { left. split; [done|]. intros He. apply elements_empty_inv in He.
      apply leibniz_equiv in He. done. }
    split; [apply NoDup_elements|]. split; [done|]. by apply Hlit.
  - destruct (adv_trace _ _ Hadv) as (new & Hnew & Hsolid & _).
    exists new, []. split; [done|]. split; [by right|]. split; [constructor|].
    assert (∀ a, a ∈ [] ↔ missing w tail a) as Hreq'.
    { intros a. split; [by intros ?%not_elem_of_nil|]. intros Hm. by apply Hno in Hm. }
    split; [done|]. by apply Hlit.
Qed.

(** C7: a solid flag is set only above solid parents.  A call of
    [checkSolidity] sets the flag of no transaction but its own, and sets
    it only when, in the world in which it is called, every approvee of the
    transaction (the trunk, and the branch when it differs) is a solid
    entry point or is in the cache and solid; and every transaction that a
    walk leaves marked solid, not having been so before, has such
    approvees. *)
Theorem solid_only_above_solid_parents :
  (∀ (w : World) (h : Hash) (add : bool) (r : bool * bool) (w' : World),
     checkSolidity w h add = Returned r w' →
     ∀ x, cachedSolid w x = false → cachedSolid w' x = true →
          x = h ∧ r = (true, true) ∧ ∃ tx, store w !! h = Some tx ∧ parentsSolid w tx)
  ∧ (∀ (fuel : nat) (o : Oracle) (w : World) (ms : MilestoneIndex) (tail : Hash)
       (r : bool * bool) (w' : World),
     solidQueueCheck fuel o w ms tail = Returned r w' →
     ∀ x tx, cachedSolid w x = false → store w' !! x = Some tx → txSolid tx = true →
             parentsSolid w' tx).
Proof.
  split.
  - intros w h add r w'. rewrite checkSolidity_spec.
    destruct (store w !! h) as [tx|] eqn:Hh; [|done].
    destruct (txSolid tx) eqn:Hs; [intros [= <- <-] x ? ?; congruence|].
    destruct (find _ _) as [a|] eqn:Hf.
    + intros [= <- <-] x Hx Hx'. exfalso.
      assert (cachedSolid (if add then addApprover a h w else w) x = cachedSolid w x)
        as Heq by (by destruct add). congruence.
    + apply parentsSolid_find in Hf. intros [= <- <-] x Hx Hx'.
      destruct (decide (x = h)) as [->|Hne]; [by eauto|].
      unfold cachedSolid, setSolid in Hx'. simpl in Hx'.
      rewrite lookup_alter_ne in Hx' by done. unfold cachedSolid in Hx. congruence.
  - intros fuel o w ms tail [solid aborted] w' Hrun x tx Hx Hx' Hs.
    apply solidQueueCheck_Returned in Hrun
      as [(_ & _ & req & _ & _ & ->)|[(_ & _ & Hadv)|(_ & _ & Hadv)]].
    + simpl in Hx'. rewrite (cachedSolid_Some _ _ _ Hx') in Hx. congruence.
    + by apply (adv_parents _ _ Hadv x).
    + by apply (adv_parents _ _ Hadv x).
Qed.

(** ** The walk and the abort signal *)

(** An attempt whose walk does not find the milestone solid ends there:
    it resets [solidifierMilestoneIndex] and releases the tail. *)
Lemma solidifyMilestoneLocked_not_solid (fuel : nat) (o o' : Oracle) (w0 : World)
    (ms : MilestoneIndex) (tail : Hash) (aborted : bool) (w' : World) :
  (solidMilestoneIndex w0 =? latestMilestoneIndex w0)%N
    && negb (latestMilestoneIndex w0 =? 0)%N = false →
  FindClosestNextMilestone w0 (solidMilestoneIndex w0) = Some (ms, tail) →
  solidQueueCheck fuel o (attemptWorld w0 ms tail) ms tail = Returned (false, aborted) w' →
  solidifyMilestoneLocked fuel o o' w0
  = Returned tt (release tail (setSolidifierMilestoneIndex 0 w')).
Proof.
  intros Hearly Hnext Hwalk. unfold solidifyMilestoneLocked.
  rewrite Hearly, Hnext. unfold attemptWorld in Hwalk. by rewrite Hwalk.
Qed.

(** C2, amended: a walk that returns aborted returns (false, true) and has
    confirmed no milestone: the milestones and their indices, the solid
    entry points and the approvers are as they were, and the trace has got
    [TransactionSolid] events and submissions to the future cone pool
    only.  The transactions differ from what they were in the solid flags
    that the second phase has set before it saw the abort signal, each of
    them above solid parents and each announced by its event.  The attempt
    of [solidifyMilestone] that made the walk ends there, with the solid
    milestone and the known milestones it started with. *)
Theorem aborted_walk_confirms_nothing (fuel : nat) (o : Oracle) (w : World)
    (ms : MilestoneIndex) (tail : Hash) (solid : bool) (w' : World) :
  solidQueueCheck fuel o w ms tail = Returned (solid, true) w' →
  solid = false ∧ advances w w'
  ∧ ∀ o' w0,
      (solidMilestoneIndex w0 =? latestMilestoneIndex w0)%N
        && negb (latestMilestoneIndex w0 =? 0)%N = false →
      FindClosestNextMilestone w0 (solidMilestoneIndex w0) = Some (ms, tail) →
      w = attemptWorld w0 ms tail →
      solidifyMilestoneLocked fuel o o' w0
      = Returned tt (release tail (setSolidifierMilestoneIndex 0 w'))
      ∧ solidMilestoneIndex w' = solidMilestoneIndex w0
      ∧ milestones w' = milestones w0.
Proof.
  intros Hrun.
  pose proof (solidQueueCheck_Returned _ _ _ _ _ _ _ _ Hrun)
    as [(_ & ? & _)|[(-> & _ & Hadv)|(? & _)]]; [done| |done].
  split; [done|]. split; [done|]. intros o' w0 Hearly Hnext ->.
  split; [by eapply solidifyMilestoneLocked_not_solid|].
  split; [apply (adv_solidIndex _ _ Hadv)|apply (adv_milestones _ _ Hadv)].
Qed.

(** ** solidifyMilestone: who gives way *)

(** C1, amended: when an attempt runs, a call whose index is not 0 and is
    above the index of that attempt returns at once, and leaves the world as
    it is: no abort signal, no lock.  Every other call, the one with index 0
    and the one with an index that is not above the index of the attempt,
    first calls [abortMilestoneSolidification], which closes the abort
    channel if there is one, and then goes for [solidifierLock]. *)
Theorem running_older_attempt_has_priority (w : World)
    (msIndexEmptiedQueue : MilestoneIndex) :
  solidifierMilestoneIndex w ≠ 0%N →
  (msIndexEmptiedQueue ≠ 0%N ∧ (solidifierMilestoneIndex w < msIndexEmptiedQueue)%N →
   solidifyMilestonePreempt w msIndexEmptiedQueue = None
   ∧ ∀ fuel o o', solidifyMilestone fuel o o' w msIndexEmptiedQueue = Returned tt w)
  ∧ (¬ (msIndexEmptiedQueue ≠ 0%N ∧ (solidifierMilestoneIndex w < msIndexEmptiedQueue)%N) →
     solidifyMilestonePreempt w msIndexEmptiedQueue = Some (abortMilestoneSolidification w)
     ∧ (signalChan w = true →
        trace (abortMilestoneSolidification w) = EvAbortSignal :: trace w
        ∧ signalChan (abortMilestoneSolidification w) = false)
     ∧ ∀ fuel o o',
         solidifyMilestone fuel o o' w msIndexEmptiedQueue =
           if solidifierLocked w then Blocked (abortMilestoneSolidification w)
           else deferUnlock
                  (solidifyMilestoneLocked fuel o o'
                     (emit EvLock
                        (setSolidifierLocked true (abortMilestoneSolidification w))))).
Proof.
  intros Hrun.
  assert ((solidifierMilestoneIndex w =? 0)%N = false) as Hrun'
    by (by apply N.eqb_neq).
  split.
  - intros [Hne Hlt]. apply N.eqb_neq in Hne. apply N.ltb_lt in Hlt.
    assert (solidifyMilestonePreempt w msIndexEmptiedQueue = None) as Hp
      by (unfold solidifyMilestonePreempt; by rewrite Hrun', Hne, Hlt).
    split; [done|]. intros fuel o o'. unfold solidifyMilestone. by rewrite Hp.
  - intros Hnot.
    assert (solidifyMilestonePreempt w msIndexEmptiedQueue
            = Some (abortMilestoneSolidification w)) as Hp.
    { unfold solidifyMilestonePreempt. rewrite Hrun'. simpl.
      destruct (msIndexEmptiedQueue =? 0)%N eqn:Hz; [done|]. simpl.
      destruct (solidifierMilestoneIndex w <? msIndexEmptiedQueue)%N eqn:Hlt; [|done].
      exfalso. apply Hnot. split; [by apply N.eqb_neq|by apply N.ltb_lt]. }
    split; [done|]. split.
    + intros Hch. unfold abortMilestoneSolidification. by rewrite Hch.
    + intros fuel o o'. unfold solidifyMilestone. rewrite Hp.
      assert (solidifierLocked (abortMilestoneSolidification w) = solidifierLocked w) as ->
        by (unfold abortMilestoneSolidification; by destruct (signalChan w)).
      done.
Qed.

(** ** searchMissingMilestone *)

Lemma searchApprovees_grows (o : Oracle) (smi start : MilestoneIndex) (hs : list Hash) :
  ∀ (w : World) (k : Search.State) (w' : World) (k' : Search.State),
    searchApprovees o smi start w k hs = inl (w', k') →
    Search.txsToTraverse k ⊆ Search.txsToTraverse k'
    ∧ Search.txsChecked k ⊆ Search.txsChecked k'
    ∧ Search.cursor k ⊆ Search.cursor k'
    ∧ Search.loopCnt k' = Search.loopCnt k ∧ Search.tick k' = Search.tick k.
Proof.
  induction hs as [|a hs IH]; intros w k w' k'; simpl.
  { by intros [= <- <-]. }
  destruct (decide (a ∈ solidEntryPoints w)); [apply IH|].
  destruct (decide (a ∈ Search.txsChecked k)); [apply IH|].
  destruct (examineApprovee smi start w a) as [w1|w1|w1|w1]; [|apply IH| |done].
  - intros H. apply IH in H. simpl in H. set_solver.
  - by intros [= <- <-].
Qed.

Lemma searchApprovees_cursor (o : Oracle) (smi start : MilestoneIndex) (hs : list Hash) :
  ∀ (w : World) (k : Search.State) (w' : World) (k' : Search.State),
    Search.cursor k ⊆ Search.txsToTraverse k →
    searchApprovees o smi start w k hs = inl (w', k') →
    Search.cursor k' ⊆ Search.txsToTraverse k'.
Proof.
  induction hs as [|a hs IH]; intros w k w' k' Hcur; simpl.
  { by intros [= <- <-]. }
  destruct (decide (a ∈ solidEntryPoints w)); [by apply IH|].
  destruct (decide (a ∈ Search.txsChecked k)); [by apply IH|].
  destruct (examineApprovee smi start w a) as [w1|w1|w1|w1]; [|by apply IH| |done].
  - apply IH. simpl. intros y. rewrite elem_of_union, elem_of_filter. set_solver.
  - by intros [= <- <-].
Qed.

Lemma examineApprovee_tail (smi start : MilestoneIndex) (w : World) (a : Hash)
    (atx : Transaction) (w1 : World) :
  store w !! a = Some atx → txIsTail atx = true →
  examineApprovee smi start w a ≠ Skip w1.
Proof.
  intros Ha Htail. unfold examineApprovee.
  change (store (acquire a w)) with (store w). rewrite Ha, Htail. cbn [negb].
  destruct (decide _); [|done].
  destruct (bundleBuckets _ !! _) as [bucket|]; [|done].
  destruct (bucket !! a) as [bundle|]; [|done].
  by destruct (_ && _).
Qed.

(** What the search does with an approvee that the cache holds: it goes on
    through an approvee that is a tail, is not a solid entry point, was not
    checked before and is not a milestone that is looked for: it is put
    among the transactions to traverse and is marked as checked, whether it
    passes [IsMaybeMilestone] or not.  An approvee that is not a tail is
    passed over: the loop goes on with the approvees that follow, as if it
    had not been there. *)
Theorem search_expands_through_tails (o : Oracle) (smi start : MilestoneIndex)
    (w : World) (k : Search.State) (a : Hash) (atx : Transaction) (rest : list Hash) :
  a ∉ solidEntryPoints w → a ∉ Search.txsChecked k →
  store w !! a = Some atx →
  (txIsTail atx = true →
   (∀ w1, examineApprovee smi start w a ≠ Found w1) →
   ∀ w' k', searchApprovees o smi start w k (a :: rest) = inl (w', k') →
            a ∈ Search.txsToTraverse k' ∧ a ∈ Search.txsChecked k')
  ∧ (txIsTail atx = false →
     searchApprovees o smi start w k (a :: rest)
     = searchApprovees o smi start w k rest).
Proof.
  intros Hsep Hchk Ha. split.
  - intros Htail Hnf w' k'. cbn [searchApprovees].
    rewrite decide_False by done. rewrite decide_False by done.
    assert (∀ w1, examineApprovee smi start w a ≠ Skip w1) as Hns
      by (intros w1; by eapply examineApprovee_tail).
    destruct (examineApprovee smi start w a) as [w1|w1|w1|w1] eqn:He.
    + intros H. apply searchApprovees_grows in H. simpl in H. set_solver.
    + by destruct (Hns w1).
    + by destruct (Hnf w1).
    + done.
  - intros Htail. cbn [searchApprovees].
    rewrite decide_False by done. rewrite decide_False by done.
    unfold examineApprovee. change (store (acquire a w)) with (store w).
    rewrite Ha, Htail. cbn [negb]. by rewrite release_acquire.
Qed.

(** The loops of the search end only when nothing is left to traverse or
    the depth is reached. *)
Lemma searchStep_Exit (o : Oracle) (smi start : MilestoneIndex) (maxSearchDepth : Z)
    (w0 : World) (k0 : Search.State) (w' : World) (k' : Search.State) :
  searchStep o smi start maxSearchDepth w0 k0 = Exit w' k' →
  w' = w0 ∧ k' = k0
  ∧ (Search.txsToTraverse k0 = ∅ ∨ (maxSearchDepth ≤ Z.of_nat (Search.loopCnt k0))%Z).
Proof.
  unfold searchStep.
  destruct (bool_decide (Search.cursor k0 = ∅)) eqn:Hhead; cbn [andb].
  - destruct (bool_decide (Search.txsToTraverse k0 = ∅)) eqn:HW; cbn [orb].
    { intros [= <- <-]. apply bool_decide_eq_true in HW. auto. }
    destruct (Z.of_nat (Search.loopCnt k0) <? maxSearchDepth)%Z eqn:Hd; cbn [negb].
    + apply bool_decide_eq_false in HW.
      destruct (pick _ _) as [h|] eqn:Hp; [|by apply pick_None in Hp].
      destruct (abortClosed _ _); [done|]. destruct (store _ !! h); [|done].
      by destruct (searchApprovees _ _ _ _ _ _) as [[? ?]|].
    + intros [= <- <-]. apply Z.ltb_ge in Hd. auto.
  - apply bool_decide_eq_false in Hhead.
    destruct (pick _ _) as [h|] eqn:Hp; [|by apply pick_None in Hp].
    destruct (abortClosed _ _); [done|]. destruct (store _ !! h); [|done].
    by destruct (searchApprovees _ _ _ _ _ _) as [[? ?]|].
Qed.

(** A turn of the search takes one transaction from those to traverse and
    leaves the others there. *)
Lemma searchStep_Next (o : Oracle) (smi start : MilestoneIndex) (maxSearchDepth : Z)
    (w0 : World) (k0 : Search.State) (w' : World) (k' : Search.State) :
  Search.cursor k0 ⊆ Search.txsToTraverse k0 →
  searchStep o smi start maxSearchDepth w0 k0 = Next w' k' →
  ∃ txHash, txHash ∈ Search.txsToTraverse k0
            ∧ Search.txsToTraverse k0 ∖ {[txHash]} ⊆ Search.txsToTraverse k'
            ∧ Search.cursor k' ⊆ Search.txsToTraverse k'.
Proof.
  intros Hcur. unfold searchStep.
  set (atHead := bool_decide (Search.cursor k0 = ∅)).
  destruct (atHead && _); [done|].
  set (cur := if atHead then _ else _).
  assert (cur ⊆ Search.txsToTraverse k0) as Hsub
    by (subst cur; destruct atHead; set_solver).
  destruct (pick _ cur) as [h|] eqn:Hp; [|done].
  destruct (abortClosed _ _); [done|]. destruct (store _ !! h) as [tx|]; [|done].
  destruct (searchApprovees _ _ _ _ _ _) as [[w2 k2]|] eqn:Hs; [|done].
  intros [= <- <-]. exists h. apply pick_elem_of in Hp.
  split; [set_solver|].
  pose proof (searchApprovees_grows _ _ _ _ _ _ _ _ Hs) as (HW & _ & _).
  apply searchApprovees_cursor in Hs; [|simpl; set_solver].
  simpl in *. done.
Qed.

(** C5, amended: a bundle that is found to be a milestone with an index
    strictly between the solid index and the index searched from is
    registered with [processValidMilestone], the loop over the approvees of
    the transaction being visited is left, and the tail of the milestone is
    neither marked as checked nor put among the transactions to traverse.
    The search does not end there: a turn of it ends the loops only when
    nothing is left to traverse or the depth is reached, and leaves every
    other transaction that was to traverse where it was. *)
Theorem found_milestone_leaves_approvee_loop (o : Oracle) (smi start : MilestoneIndex)
    (maxSearchDepth : Z) (w : World) (k : Search.State) (a : Hash) (atx : Transaction)
    (bucket : gmap Hash Bundle) (bundle : Bundle) (rest : list Hash) :
  a ∉ solidEntryPoints w → a ∉ Search.txsChecked k →
  store w !! a = Some atx → txIsTail atx = true → a ∈ maybeMilestones w →
  bundleBuckets w !! txBundle atx = Some bucket → bucket !! a = Some bundle →
  bundleIsMilestone bundle = true →
  (smi < bundleIndex bundle)%N → (bundleIndex bundle < start)%N →
  searchApprovees o smi start w k (a :: rest)
  = inl (processValidMilestone a (bundleIndex bundle) (emit (EvCheckIfMilestone a) w),
         {| Search.txsChecked := Search.txsChecked k;
            Search.txsToTraverse := Search.txsToTraverse k;
            Search.milestoneFound := true;
            Search.loopCnt := Search.loopCnt k;
            Search.cursor := Search.cursor k; Search.tick := Search.tick k |})
  ∧ (∀ w0 k0 w' k',
       searchStep o smi start maxSearchDepth w0 k0 = Exit w' k' →
       w' = w0 ∧ k' = k0
       ∧ (Search.txsToTraverse k0 = ∅
          ∨ (maxSearchDepth ≤ Z.of_nat (Search.loopCnt k0))%Z))
  ∧ (∀ w0 k0 w' k',
       Search.cursor k0 ⊆ Search.txsToTraverse k0 →
       searchStep o smi start maxSearchDepth w0 k0 = Next w' k' →
       ∃ txHash, txHash ∈ Search.txsToTraverse k0
                 ∧ Search.txsToTraverse k0 ∖ {[txHash]} ⊆ Search.txsToTraverse k'
                 ∧ Search.cursor k' ⊆ Search.txsToTraverse k').
Proof.
  intros Hsep Hchk Ha Htail Hmaybe Hbucket Hbundle Hms Hlo Hhi.
  split; [|split; [apply searchStep_Exit|apply searchStep_Next]].
  cbn [searchApprovees].
  rewrite decide_False by done. rewrite decide_False by done.
  unfold examineApprovee.
  change (store (acquire a w)) with (store w).
  change (maybeMilestones (acquire a w)) with (maybeMilestones w).
  change (bundleBuckets (acquire a w)) with (bundleBuckets w).
  rewrite Ha, Htail. cbn [negb]. rewrite decide_True by done.
  rewrite Hbucket, Hbundle, Hms.
  apply N.ltb_lt in Hlo, Hhi. rewrite Hlo, Hhi. cbn [andb]. do 2 f_equal.
  unfold processValidMilestone. world_eq.
Qed.

(** ** The walk over a cone that is solid already *)

(** The first phase, at a transaction whose approvees do not keep it from
    being solid: nothing is to traverse nor to request, and the
    transaction stays an entry transaction. *)
Lemma collectApprovee_solid (o : Oracle) (w : World) (x a : Hash) (k : Walk) (b : bool) :
  approveeOk w a = true →
  (∀ c b', txsChecked k !! c = Some b' → b' = true) →
  (∀ c y, y ∈ default ∅ (approvers k !! c) → y = x) →
  ∃ k', collectApprovee o x (w, k, b) a = (w, k', b)
        ∧ txsToTraverse k' = txsToTraverse k ∧ txsToRequest k' = txsToRequest k
        ∧ entryTxs k' = entryTxs k ∧ cursor k' = cursor k ∧ tick k' = tick k
        ∧ (∀ c b', txsChecked k' !! c = Some b' → b' = true)
        ∧ (∀ c y, y ∈ default ∅ (approvers k' !! c) → y = x).
Proof.
  intros Ha Hchk Happ.
  assert (∀ c y, y ∈ default ∅ (registerApproverOfApprovee x a (approvers k) !! c) → y = x)
    as Hreg.
  { intros c y. rewrite registerApproverOfApprovee_lookup. naive_solver. }
  unfold approveeOk in Ha. unfold collectApprovee.
  destruct (decide (a ∈ solidEntryPoints w)) as [Hsep|Hsep]; [by exists k|].
  rewrite (bool_decide_eq_false_2 _ Hsep) in Ha. cbn [orb] in Ha.
  destruct (txsChecked k !! a) as [isSolid|] eqn:Hc.
  { rewrite (Hchk a isSolid Hc). eexists. split; [reflexivity|]. done. }
  change (store (acquire a w)) with (store w). unfold cachedSolid in Ha.
  destruct (store w !! a) as [atx|] eqn:Hsa; [|done]. rewrite Ha, release_acquire.
  eexists. split; [reflexivity|]. cbn. repeat split; try done.
  intros c b'. destruct (decide (c = a)) as [->|Hne].
  - rewrite lookup_insert_eq. congruence.
  - rewrite lookup_insert_ne by done. apply Hchk.
Qed.

Lemma foldl_collectApprovee_solid (o : Oracle) (w : World) (x : Hash) (todo : list Hash) :
  (∀ a, a ∈ todo → approveeOk w a = true) →
  ∀ (k : Walk) (b : bool),
    (∀ a b', txsChecked k !! a = Some b' → b' = true) →
    (∀ a y, y ∈ default ∅ (approvers k !! a) → y = x) →
    ∃ k', foldl (collectApprovee o x) (w, k, b) todo = (w, k', b)
          ∧ txsToTraverse k' = txsToTraverse k ∧ txsToRequest k' = txsToRequest k
          ∧ entryTxs k' = entryTxs k ∧ cursor k' = cursor k ∧ tick k' = tick k
          ∧ (∀ a y, y ∈ default ∅ (approvers k' !! a) → y = x).
Proof.
  induction todo as [|a todo IH]; intros Hok k b Hchk Happ; cbn [foldl].
  { by exists k. }
  destruct (collectApprovee_solid o w x a k b ltac:(apply Hok; set_solver) Hchk Happ)
    as (k1 & -> & H1 & H2 & H3 & H4 & H5 & H6 & H7).
  destruct (IH ltac:(intros; apply Hok; set_solver) k1 b H6 H7)
    as (k' & -> & ? & ? & ? & ? & ? & ?).
  exists k'. split; [done|]. repeat split; congruence || done.
Qed.

Lemma runLoop_Next {K} (step : World → K → Step K) (fuel : nat) (w : World) (k : K)
    (w' : World) (k' : K) :
  step w k = Next w' k' → runLoop step (S fuel) w k = runLoop step fuel w' k'.
Proof. simpl. by intros ->. Qed.

Lemma runLoop_Exit {K} (step : World → K → Step K) (fuel : nat) (w : World) (k : K)
    (w' : World) (k' : K) :
  step w k = Exit w' k' → runLoop step (S fuel) w k = Exit w' k'.
Proof. simpl. by intros ->. Qed.

(** C9: the walk over a milestone that is solid already.  When the tail is
    marked solid, its approvees are solid entry points or in the cache and
    solid, as they are for a transaction that [checkSolidity] has marked,
    and the abort signal is not given, the walk returns (true, false) and
    leaves the world as it was: no flag is changed, no event is triggered,
    nothing is requested from the gossip layer and nothing is submitted to
    the future cone pool, and no handle is kept. *)
Theorem walk_over_solid_milestone (fuel : nat) (o : Oracle) (w : World)
    (ms : MilestoneIndex) (tail : Hash) (tx : Transaction) :
  store w !! tail = Some tx → txSolid tx = true → parentsSolid w tx →
  abortClosed o 0 = false → abortClosed o 1 = false → (2 ≤ fuel)%nat →
  solidQueueCheck fuel o w ms tail = Returned (true, false) w.
Proof.
  intros Htail Hsolid Hpar Hab0 Hab1 Hfuel.
  destruct fuel as [|[|fuel]]; [lia|lia|].
  unfold solidQueueCheck. change (store (acquire tail w)) with (store w). rewrite Htail.
  set (w0 := acquire tail w).
  (* the first phase: the tail is visited, and is an entry transaction *)
  assert (∃ k1, collectStep o w0 (walkInit tail) = Next w0 k1
                ∧ txsToTraverse k1 = ∅ ∧ txsToRequest k1 = ∅
                ∧ entryTxs k1 = {[tail]} ∧ cursor k1 = ∅ ∧ tick k1 = 1
                ∧ (∀ a y, y ∈ default ∅ (approvers k1 !! a) → y = tail))
    as (k1 & Hstep1 & HW1 & Hq1 & He1 & Hc1 & Ht1 & Ha1).
  { unfold collectStep. cbn [walkInit cursor txsToTraverse tick].
    rewrite decide_True by done. rewrite pick_singleton, Hab0.
    change (store (acquire tail w0)) with (store w). rewrite Htail.
    set (k0 := Build_Walk _ _ _ _ _ _ _ _ _).
    destruct (foldl_collectApprovee_solid o (acquire tail w0) tail (approveeHashes tx)
                Hpar k0 true) as (k' & -> & HW & Hq & He & Hc & Ht & Ha).
    { intros a b'. subst k0. simpl. by rewrite lookup_empty. }
    { intros a y. subst k0. simpl. rewrite lookup_empty. simpl. set_solver. }
    rewrite release_acquire. eexists. split; [reflexivity|]. simpl.
    rewrite HW, Hq, He, Hc, Ht. subst k0. simpl.
    repeat split; try done; apply leibniz_equiv; set_solver. }
  rewrite (runLoop_Next _ _ _ _ _ _ Hstep1).
  assert (collectStep o w0 k1 = Exit w0 k1) as Hstep2.
  { unfold collectStep. rewrite Hc1, HW1. rewrite decide_True by done.
    by rewrite pick_empty. }
  rewrite (runLoop_Exit _ _ _ _ _ _ Hstep2).
  unfold afterCollect. rewrite decide_True by done.
  rewrite decide_False by (rewrite He1; set_solver).
  (* the second phase: the tail is solid, the second [range] is empty *)
  set (k2 := visitedSolid o (restarted (walkPropagateInit k1)) tail).
  assert (propagateStep o w0 (walkPropagateInit k1) = Next w0 k2) as Hstep3.
  { rewrite propagateStep_unfold. cbn [walkPropagateInit cursor newSolidTxFound].
    rewrite decide_True by done. unfold propagateVisit.
    cbn [restarted walkPropagateInit cursor tick entryTxs approvers].
    rewrite He1, pick_singleton, Ht1, Hab1.
    change (store (acquire tail w0)) with (store w). rewrite Htail.
    rewrite checkSolidity_spec.
    change (store (acquire tail w0)) with (store w). rewrite Htail, Hsolid.
    cbn [rangeInsert andb]. rewrite release_acquire. f_equal.
    subst k2. unfold visitedSolid. cbn. rewrite He1, Ht1. f_equal. }
  rewrite (runLoop_Next _ _ _ _ _ _ Hstep3).
  assert (entryTxs k2 = ∅ ∧ cursor k2 = ∅) as [He2 Hc2].
  { subst k2. cbn. rewrite He1.
    pose proof (Ha1 tail) as Htl.
    split; apply leibniz_equiv; intros y; rewrite ?elem_of_difference, ?elem_of_union,
      ?elem_of_filter, ?elem_of_difference; set_solver. }
  assert (propagateStep o w0 k2 = Exit w0 (restarted k2)) as Hstep4.
  { rewrite propagateStep_unfold. rewrite decide_True by done.
    change (newSolidTxFound k2) with true. cbn iota.
    unfold propagateVisit. cbn [restarted cursor tick]. by rewrite He2, pick_empty. }
  rewrite (runLoop_Exit _ _ _ _ _ _ Hstep4).
  cbn [restarted entryTxs deferRelease]. rewrite He2.
  rewrite bool_decide_eq_true_2 by done. subst w0. by rewrite release_acquire.
Qed.

(** ** Termination *)

Lemma size_difference_insert (X C : gset Hash) (a : Hash) :
  a ∈ X → a ∉ C → (size (X ∖ ({[a]} ∪ C)) + 1 = size (X ∖ C))%nat.
Proof.
  intros HX HC.
  assert (X ∖ C = {[a]} ∪ (X ∖ ({[a]} ∪ C))) as ->.
  { apply set_eq. intros y. destruct (decide (y = a)); set_solver. }
  rewrite (size_union (C:=gset Hash) {[a]} (X ∖ ({[a]} ∪ C))) by set_solver.
  rewrite size_singleton. lia.
Qed.

Lemma size_insert_le (W : gset Hash) (a : Hash) : (size ({[a]} ∪ W) ≤ size W + 1)%nat.
Proof.
  rewrite (size_union_alt (C:=gset Hash)), size_singleton.
  pose proof (subseteq_size (C:=gset Hash) (W ∖ {[a]}) W ltac:(set_solver)). lia.
Qed.

Lemma size_delete (W : gset Hash) (a : Hash) :
  a ∈ W → (size (W ∖ {[a]}) + 1 = size W)%nat.
Proof.
  intros Ha. rewrite (size_difference (C:=gset Hash)) by set_solver.
  rewrite size_singleton.
  assert (size W ≠ 0)%nat by (intros ?%size_empty_inv; set_solver). lia.
Qed.

(** A hash is put among the transactions to traverse only when it is
    recorded in [txsChecked], which it was not before. *)
Lemma collectApprovee_measure (o : Oracle) (x : Hash) (w : World) (k : Walk) (b : bool)
    (a : Hash) :
  ∃ k' b', collectApprovee o x (w, k, b) a = (w, k', b')
           ∧ (collectMeasure w k' ≤ collectMeasure w k)%nat
           ∧ dom (txsChecked k) ⊆ dom (txsChecked k')
           ∧ (∀ y, y ∈ txsToTraverse k' → y ∉ txsToTraverse k →
                   y ∉ dom (txsChecked k) ∧ y ∈ dom (txsChecked k')).
Proof.
  unfold collectApprovee, collectMeasure.
  destruct (decide _); [by eexists _, _|].
  destruct (txsChecked k !! a) as [isSolid|] eqn:Hc; [by eexists _, _|].
  apply not_elem_of_dom in Hc.
  change (store (acquire a w)) with (store w). rewrite release_acquire.
  destruct (store w !! a) as [atx|] eqn:Ha.
  - assert (a ∈ dom (store w)) as Hd by (apply elem_of_dom; eauto).
    destruct (txSolid atx); cbn [rangeInsert]; eexists _, _; (split; [done|]); simpl;
      rewrite dom_insert_L; pose proof (size_difference_insert _ _ _ Hd Hc);
      pose proof (size_insert_le (txsToTraverse k) a);
      (split; [lia|]); (split; [set_solver|]); set_solver.
  - apply not_elem_of_dom in Ha.
    eexists _, _. split; [done|]. simpl. rewrite dom_insert_L.
    assert (dom (store w) ∖ ({[a]} ∪ dom (txsChecked k))
            = dom (store w) ∖ dom (txsChecked k)) as -> by set_solver.
    split; [lia|]. set_solver.
Qed.

Lemma foldl_collectApprovee_measure (o : Oracle) (x : Hash) (w : World) (todo : list Hash) :
  ∀ (k : Walk) (b : bool),
    ∃ k' b', foldl (collectApprovee o x) (w, k, b) todo = (w, k', b')
             ∧ (collectMeasure w k' ≤ collectMeasure w k)%nat
             ∧ dom (txsChecked k) ⊆ dom (txsChecked k')
             ∧ (∀ y, y ∈ txsToTraverse k' → y ∉ txsToTraverse k →
                     y ∉ dom (txsChecked k) ∧ y ∈ dom (txsChecked k')).
Proof.
  induction todo as [|a todo IH]; intros k b; cbn [foldl].
  { eexists _, _. split; [done|]. split; [lia|]. set_solver. }
  destruct (collectApprovee_measure o x w k b a) as (k1 & b1 & -> & Hm1 & Hd1 & Hn1).
  destruct (IH k1 b1) as (k2 & b2 & -> & Hm2 & Hd2 & Hn2).
  eexists _, _. split; [done|]. split; [lia|]. split; [set_solver|].
  intros y Hy Hny. destruct (decide (y ∈ txsToTraverse k1)) as [Hy1|Hy1].
  - destruct (Hn1 y Hy1 Hny). set_solver.
  - destruct (Hn2 y Hy Hy1). set_solver.
Qed.

Lemma collectStep_measure (o : Oracle) (w : World) (k : Walk) (w' : World) (k' : Walk) :
  cursor k ⊆ txsToTraverse k →
  collectStep o w k = Next w' k' →
  (collectMeasure w k' < collectMeasure w k)%nat
  ∧ dom (txsChecked k) ⊆ dom (txsChecked k')
  ∧ (∀ y, y ∈ txsToTraverse k' → y ∉ txsToTraverse k →
          y ∉ dom (txsChecked k) ∧ y ∈ dom (txsChecked k')).
Proof.
  intros Hcur. unfold collectStep.
  set (cur := if decide (cursor k = ∅) then txsToTraverse k else cursor k).
  destruct (pick (orderOf o (tick k)) cur) as [h|] eqn:Hp; [|done].
  destruct (abortClosed o (tick k)); [done|].
  assert (h ∈ txsToTraverse k) as HhW.
  { apply pick_elem_of in Hp. subst cur. destruct (decide _); [done|]. by apply Hcur. }
  destruct (store _ !! h) as [tx|] eqn:Hh; [|done].
  set (k1 := Build_Walk _ _ _ _ _ _ _ _ _).
  destruct (foldl_collectApprovee_measure o h (acquire h w) (approveeHashes tx) k1 true)
    as (k2 & b2 & -> & Hm & Hd & Hn).
  intros [= <- <-]. unfold collectMeasure in *. simpl in *.
  pose proof (size_delete _ _ HhW). split; [lia|]. split; [done|].
  intros y Hy Hny. apply Hn; [done|]. set_solver.
Qed.

(** The first phase ends within as many turns as the cache has
    transactions, and two more. *)
Lemma collect_terminates (fuel : nat) (o : Oracle) (w : World) (tail : Hash) :
  is_Some (store w !! tail) → (size (dom (store w)) + 2 ≤ fuel)%nat →
  runLoop (collectStep o) fuel w (walkInit tail) ≠ Halt OutOfFuel.
Proof.
  intros Hp Hfuel.
  apply (runLoop_terminates (collectStep o)
           (λ w' k', w' = w ∧ ∃ V x, collecting w tail V x [] k')
           collectMeasure).
  - intros w1 k1 w2 k2 [-> (V & x & Hk)] Hs.
    destruct (collectStep_Next _ _ _ _ _ _ _ _ Hk Hs) as (-> & V' & x' & Hk' & _).
    split; [by eauto|].
    by apply (collectStep_measure o w k1 w k2 (col_cursor _ _ _ _ _ _ Hk)).
  - intros w1 k1 _ Hs. by apply collectStep_Halt in Hs as [?|[? ?]].
  - split; [done|]. exists ∅, tail. by apply collecting_init.
  - unfold collectMeasure, walkInit. cbn [txsChecked txsToTraverse].
    rewrite dom_empty_L, size_singleton.
    pose proof (subseteq_size (C:=gset Hash) (dom (store w) ∖ ∅) (dom (store w))
                  ltac:(set_solver)).
    lia.
Qed.

Lemma reach_rtc (w : World) (tail y : Hash) : reach w tail y → rtc (approves w) tail y.
Proof.
  induction 1 as [|x tx a _ IH Hx Ha _ _ _]; [done|].
  eapply rtc_r; [done|]. by exists tx.
Qed.

Lemma propagating_init (w : World) (tail : Hash) (V : gset Hash) (x : Hash) (k : Walk) :
  acyclic w → collecting w tail V x [] k →
  propagating w tail w (walkPropagateInit k).
Proof.
  intros Hdag [Ht Hr Hd Hc Hq Hcu Ha He Hf]. split; simpl.
  - apply advances_refl.
  - intros h Hh. apply Hr. set_solver.
  - set_solver.
  - intros h Hh Hs. destruct (decide (h = tail)) as [|Hne]; [done|].
    rewrite Hf in Hs; [done|set_solver|done].
  - intros a y Hy. destruct (Ha a y Hy) as (HyV & Hsep & tx & Hytx & Hin).
    split; [|split; [done|split; [by eauto|]]].
    + intros ->. apply (Hdag tail). apply (tc_rtc_l (R:=approves w) tail y tail).
      * apply reach_rtc. apply Hr. set_solver.
      * apply tc_once. exists tx. by split.
    + intros Hne. apply Hf; [set_solver|done].
Qed.

Lemma markedSolid_store (h : Hash) (w : World) :
  store (markedSolid h w) = alter txSetSolid h (store w).
Proof. unfold markedSolid. by destruct (nodeSynced w). Qed.

Lemma cachedSolid_markedSolid (h : Hash) (w : World) (tx : Transaction) (y : Hash) :
  store w !! h = Some tx →
  cachedSolid (markedSolid h w) y = if decide (y = h) then true else cachedSolid w y.
Proof.
  intros Hh. unfold cachedSolid. rewrite markedSolid_store, lookup_alter.
  destruct (decide (y = h)) as [->|Hne].
  - rewrite decide_True by done. by rewrite Hh.
  - by rewrite decide_False by done.
Qed.

Lemma notSolid_markedSolid (h : Hash) (w : World) (tx : Transaction) :
  store w !! h = Some tx → txSolid tx = false →
  (size (notSolid (markedSolid h w)) + 1 = size (notSolid w))%nat.
Proof.
  intros Hh Hs.
  assert (notSolid (markedSolid h w) = notSolid w ∖ {[h]}) as ->.
  { apply set_eq. intros y. unfold notSolid.
    rewrite elem_of_difference, !elem_of_filter, (cachedSolid_markedSolid _ _ _ _ Hh).
    rewrite markedSolid_store, dom_alter_L.
    destruct (decide (y = h)); set_solver. }
  apply size_delete. unfold notSolid. apply elem_of_filter.
  split; [by rewrite (cachedSolid_Some _ _ _ Hh)|]. apply elem_of_dom. eauto.
Qed.

Lemma solidTailPending_le (w : World) (tail : Hash) (k : Walk) :
  (solidTailPending w tail k ≤ 1)%nat.
Proof. unfold solidTailPending. destruct (decide _); lia. Qed.

Lemma propagating_cursor_size (w0 : World) (tail : Hash) (w : World) (k : Walk) :
  propagating w0 tail w k → (size (cursor k) ≤ size (dom (store w0)))%nat.
Proof.
  intros Hk. apply subseteq_size. intros h Hh. apply elem_of_dom.
  apply (pro_entry _ _ _ _ Hk). by apply (pro_cursor _ _ _ _ Hk).
Qed.

(** A visit of the second phase keeps the invariant, and either finds a
    transaction solid, and less work is left, or takes a transaction that
    is not solid from those the [range] has to yield. *)
Lemma propagateVisit_progress (o : Oracle) (w0 : World) (tail : Hash) (w : World)
    (k : Walk) (w' : World) (k' : Walk) :
  propagating w0 tail w k →
  propagateVisit o w k = Next w' k' →
  propagating w0 tail w' k'
  ∧ ((propagateWork w' tail k' < propagateWork w tail k)%nat
     ∨ (propagateWork w' tail k' = propagateWork w tail k
        ∧ newSolidTxFound k' = newSolidTxFound k
        ∧ (size (cursor k') < size (cursor k))%nat)).
Proof.
  intros Hk Hs.
  apply propagateVisit_Next in Hs as (h & tx & Hp & _ & Hh & Hcase).
  apply pick_elem_of in Hp.
  destruct Hk as [Hadv He Hcu Hsol Happ].
  assert (h ∈ entryTxs k) as HhE by set_solver.
  assert (∀ y, y ∈ entryTxs (visitedSolid o k h) → is_Some (store w0 !! y)) as He'.
  { simpl. intros y [[Hy|Hy]%elem_of_union _]%elem_of_difference; [|by apply He].
    destruct (Happ h y Hy) as (_ & _ & (ty & -> & _) & _). eauto. }
  assert (cursor (visitedSolid o k h) ⊆ entryTxs (visitedSolid o k h)) as Hcu'.
  { simpl. intros y. rewrite !elem_of_difference, !elem_of_union, elem_of_filter.
    set_solver. }
  destruct Hcase as [(Hs & -> & ->)|[(Hs & Hpar & -> & ->)|(Hs & Hnpar & -> & ->)]].
  - (* solid already: it is the tail *)
    assert (cachedSolid w h = true) as Hch by (by rewrite (cachedSolid_Some _ _ _ Hh)).
    assert (h = tail) as -> by (by apply Hsol).
    assert (default ∅ (approvers k !! tail) = ∅) as Hnone.
    { apply leibniz_equiv. intros y. split; [|set_solver]. intros Hy.
      by destruct (Happ tail y Hy) as (? & _). }
    split.
    + split; try done. simpl. intros y Hy Hys. apply Hsol; [set_solver|done].
    + left. unfold propagateWork, solidTailPending.
      rewrite (decide_True (P := tail ∈ entryTxs k ∧ cachedSolid w tail = true)) by done.
      rewrite decide_False; [lia|]. simpl. set_solver.
  - (* found solid: one transaction less is not solid *)
    pose proof (advances_markedSolid _ _ _ _ Hadv Hh Hs Hpar) as Hadv'.
    split.
    + split; try done. intros y Hy Hys.
      rewrite (cachedSolid_markedSolid _ _ _ _ Hh) in Hys.
      simpl in Hy. apply elem_of_difference in Hy as [Hy Hyh].
      rewrite decide_False in Hys by set_solver.
      apply elem_of_union in Hy as [Hy|Hy]; [|by apply Hsol].
      destruct (decide (y = tail)) as [|Hne]; [done|]. exfalso.
      destruct (Happ h y Hy) as (_ & Hsep & (ty0 & Hy0 & Hin) & Hfresh).
      specialize (Hfresh Hne).
      unfold cachedSolid in Hys. destruct (store w !! y) as [ty|] eqn:Hyw; [|done].
      destruct (adv_tx _ _ Hadv y ty0 ty Hy0 Hyw) as (Htr & Hbr & _).
      assert (approveeHashes ty = approveeHashes ty0) as Heq
        by (unfold approveeHashes; by rewrite Htr, Hbr).
      pose proof (adv_parents _ _ Hadv y ty Hfresh Hyw Hys h) as Hok.
      rewrite Heq in Hok. specialize (Hok Hin). unfold approveeOk in Hok.
      rewrite (adv_sep _ _ Hadv) in Hok.
      rewrite (bool_decide_eq_false_2 _ Hsep) in Hok. simpl in Hok.
      rewrite (cachedSolid_Some _ _ _ Hh) in Hok. congruence.
    + left. unfold propagateWork.
      pose proof (notSolid_markedSolid _ _ _ Hh Hs).
      pose proof (solidTailPending_le (markedSolid h w) tail (visitedSolid o k h)).
      lia.
  - (* not solid: it stays an entry transaction *)
    split.
    + split; try done. simpl. set_solver.
    + right. split; [done|]. split; [done|]. simpl.
      pose proof (size_delete _ _ Hp). lia.
Qed.

Lemma propagateStep_progress (o : Oracle) (w0 : World) (tail : Hash) (w : World)
    (k : Walk) (w' : World) (k' : Walk) :
  propagating w0 tail w k →
  propagateStep o w k = Next w' k' →
  propagating w0 tail w' k'
  ∧ (propagateMeasure w0 tail w' k' < propagateMeasure w0 tail w k)%nat.
Proof.
  intros Hk. rewrite propagateStep_unfold.
  destruct (decide (cursor k = ∅)) as [Hc|Hc].
  - destruct (newSolidTxFound k) eqn:Hf; [|done].
    intros Hs.
    assert (propagating w0 tail w (restarted k)) as Hkr.
    { destruct Hk. by split. }
    destruct (propagateVisit_progress _ _ _ _ _ _ _ Hkr Hs) as [Hk' Hprog].
    split; [done|].
    pose proof (propagating_cursor_size _ _ _ _ Hk') as Hb'.
    pose proof (propagating_cursor_size _ _ _ _ Hkr) as Hb.
    unfold propagateMeasure. rewrite Hf, Hc, size_empty.
    change (propagateWork w tail (restarted k)) with (propagateWork w tail k) in Hprog.
    destruct Hprog as [Hlt|(-> & -> & Hlt)].
    + destruct (newSolidTxFound k'); nia.
    + simpl. nia.
  - intros Hs.
    destruct (propagateVisit_progress _ _ _ _ _ _ _ Hk Hs) as [Hk' Hprog].
    split; [done|].
    pose proof (propagating_cursor_size _ _ _ _ Hk') as Hb'.
    unfold propagateMeasure.
    destruct Hprog as [Hlt|(-> & -> & Hlt)].
    + destruct (newSolidTxFound k'), (newSolidTxFound k); nia.
    + lia.
Qed.


Lemma propagate_terminates (fuel : nat) (o : Oracle) (w : World) (tail : Hash)
    (V : gset Hash) (x : Hash) (k : Walk) :
  acyclic w → collecting w tail V x [] k → (walkFuel w ≤ fuel)%nat →
  runLoop (propagateStep o) fuel w (walkPropagateInit k) ≠ Halt OutOfFuel.
Proof.
  intros Hdag Hk Hfuel.
  apply (runLoop_terminates (propagateStep o) (propagating w tail)
           (propagateMeasure w tail)).
  - intros w1 k1 w2 k2. apply propagateStep_progress.
  - intros w1 k1 _ Hs. by apply propagateStep_Halt in Hs as [?|[? ?]].
  - by eapply propagating_init.
  - unfold propagateMeasure, propagateWork, walkFuel in *.
    cbn [walkPropagateInit cursor newSolidTxFound].
    rewrite size_empty.
    pose proof (solidTailPending_le w tail (walkPropagateInit k)).
    pose proof (subseteq_size (C:=gset Hash) (notSolid w) (dom (store w))
                  ltac:(unfold notSolid; set_solver)).
    nia.
Qed.



(** ** Ranked caches are acyclic *)

Lemma ranked_approves (rank : Hash → nat) (w : World) (x a : Hash) :
  ranked rank w = true → approves w x a → is_Some (store w !! a) → (rank a < rank x)%nat.
Proof.
  unfold ranked. rewrite forallb_forall. intros Hall (tx & Hx & Ha) [atx Hatx].
  assert (In (x, tx) (map_to_list (store w))) as Hin
    by (apply list_elem_of_In; by apply elem_of_map_to_list).
  pose proof (Hall (x, tx) Hin) as Hx'. cbv beta iota in Hx'.
  pose proof (proj1 (forallb_forall _ _) Hx' a ltac:(by apply list_elem_of_In)) as Ha'.
  cbv beta in Ha'. rewrite Hatx in Ha'. by apply Nat.ltb_lt.
Qed.

Lemma tc_approves_source (w : World) (x y : Hash) :
  tc (approves w) x y → is_Some (store w !! x).
Proof. destruct 1 as [x y (tx & Hx & _)|x z y (tx & Hx & _) _]; eauto. Qed.

Lemma ranked_acyclic (rank : Hash → nat) (w : World) : ranked rank w = true → acyclic w.
Proof.
  intros Hr.
  assert (∀ x y, tc (approves w) x y → is_Some (store w !! y) → (rank y < rank x)%nat) as Hlt.
  { induction 1 as [x y Hxy|x z y Hxz Hzy IH]; intros Hy.
    - by eapply ranked_approves.
    - specialize (IH Hy).
      pose proof (ranked_approves rank w x z Hr Hxz (tc_approves_source _ _ _ Hzy)). lia. }
  intros h Hh. pose proof (Hlt h h Hh (tc_approves_source _ _ _ Hh)). lia.
Qed.

(** ** Sound flags, as a test *)

Lemma consistentb_consistent (w : World) : consistentb w = true → consistent w.
Proof.
  unfold consistentb. rewrite forallb_forall. intros Hall h tx Hh Hs a Ha.
  assert (In (h, tx) (map_to_list (store w))) as Hin
    by (apply list_elem_of_In; by apply elem_of_map_to_list).
  pose proof (Hall (h, tx) Hin) as Hx. cbv beta iota in Hx. rewrite Hs in Hx.
  cbn [negb orb] in Hx.
  by apply (proj1 (forallb_forall _ _) Hx a), list_elem_of_In.
Qed.

(** ** The scenarios *)

(** A decidable proposition about a scenario is settled by evaluation. *)
Ltac decide_by_compute :=
  match goal with
  | |- ?P => apply (bool_decide_unpack P); vm_compute; exact I
  end.

Section scenario_proofs.
Local Open Scope string_scope.

(** The scenario S1 of the specification: the milestone 1, whose tail
    approves the solid entry point, is promoted. *)
Example simple_solidification :
  match solidifyMilestone 10 inOrder inOrder
          (tangleWorld (<["T1" := transaction "E" "E" true false]> ∅) {[1%N := "T1"]}
             0 1)
          0 with
  | Returned _ w' =>
      trace w' = [EvUnlock; EvTrySubmit 0; EvSolidMilestoneChanged 1; EvStoreMilestone 1;
                  EvConfirmMilestone 1 "T1"; EvFutureConeSubmit "T1";
                  EvTransactionSolid "T1"; EvLock]
      ∧ solidMilestoneIndex w' = 1%N ∧ solidifierMilestoneIndex w' = 0%N
  | _ => False
  end.
Proof. vm_compute. repeat split; reflexivity. Qed.

(** The scenarios S2 and S5: the approvee that the cache does not hold is
    requested, and nothing is promoted. *)
Example missing_ancestor_is_requested :
  match solidifyMilestone 10 inOrder inOrder forkWorld 0 with
  | Returned _ w' =>
      trace w' = [EvUnlock; EvRequestMulti ["B"] 1; EvLock]
      ∧ solidMilestoneIndex w' = 0%N ∧ solidifierMilestoneIndex w' = 0%N
  | _ => False
  end.
Proof. vm_compute. repeat split; reflexivity. Qed.

Lemma checkSolidity_contract_witness :
  (∃ w', checkSolidity chainWorld "T1" false = Returned (true, true) w'
         ∧ cachedSolid w' "T1" = true
         ∧ store w' !! "T2" = store chainWorld !! "T2"
         ∧ trace w' = [EvTransactionSolid "T1"]
         ∧ consumers w' = consumers chainWorld)
  ∧ checkSolidity forkWorld "A" true = Returned (true, false) forkWorld
  ∧ (∃ w', checkSolidity forkWorld "T" true = Returned (false, false) w'
           ∧ cachedSolid w' "T" = false ∧ trace w' = []
           ∧ approversCache w' !! "B" = Some ({["T"]} ∪ ∅)).
Proof.
  split; [|split].
  - destruct (checkSolidity_contract chainWorld "T1" (transaction "E" "E" true false) false)
      as (_ & _ & H & _); [reflexivity|].
    destruct H as (w' & tx' & Hrun & _ & _ & _ & _ & _ & _ & _ & _ & Hs & Hst & Htr & Hc & _).
    + reflexivity.
    + intros a Ha Hn. exfalso. apply Hn.
      vm_compute in Ha. apply list_elem_of_In in Ha. destruct Ha as [<-|[]].
      decide_by_compute.
    + exists w'. split; [exact Hrun|]. split; [exact Hs|].
      split; [apply Hst; discriminate|]. split; [exact Htr|exact Hc].
  - destruct (checkSolidity_contract forkWorld "A" (transaction "E" "E" true true) true)
      as (_ & H & _); [reflexivity|].
    apply H. reflexivity.
  - destruct (checkSolidity_contract forkWorld "T" (transaction "A" "B" true false) true)
      as (_ & _ & _ & H); [reflexivity|].
    destruct H as (a & w' & Hf & _ & Hrun & _ & Htr & _ & Hs & _ & _ & _ & _ & _ & Hadd).
    + reflexivity.
    + intros Hall.
      destruct (Hall "B") as (atx & Hatx & _);
        [vm_compute; set_solver|decide_by_compute|].
      vm_compute in Hatx. discriminate.
    + assert (a = "B") as -> by (vm_compute in Hf; congruence).
      exists w'. split; [exact Hrun|]. split; [exact Hs|]. split; [exact Htr|].
      destruct (Hadd eq_refl) as (Hreg & _). exact Hreg.
Defined.

Lemma solid_only_above_solid_parents_witness :
  "T1" = "T1" ∧ (true, true) = (true, true)
  ∧ ∃ tx, store chainWorld !! "T1" = Some tx ∧ parentsSolid chainWorld tx.
Proof.
  apply (proj1 solid_only_above_solid_parents chainWorld "T1" false (true, true)
           (emit (EvTransactionSolid "T1") (setSolid "T1" chainWorld)));
    vm_compute; reflexivity.
Defined.

(** The walk over the chain is aborted in its fourth iteration, the second
    of the second phase: "T1" has been marked solid by then. *)
Lemma chain_walk_aborted :
  solidQueueCheck 10 (abortAt 3) chainWorld 1 "T2"
  = Returned (false, true) (markedSolid "T1" chainWorld).
Proof. vm_compute. reflexivity. Qed.

(** C2 fails as it is stated: the walk over the chain that is aborted in
    the second phase has set the solid flag of "T1". *)
Lemma aborted_walk_has_set_a_flag :
  ¬ abortLeavesTransactions 10 (abortAt 3) chainWorld 1 "T2".
Proof.
  intros H. specialize (H false _ chain_walk_aborted).
  apply (f_equal (λ s, txSolid <$> s !! "T1")) in H. vm_compute in H. discriminate.
Qed.

Lemma aborted_walk_confirms_nothing_witness :
  advances (attemptWorld chainWorld 1 "T2")
    (markedSolid "T1" (attemptWorld chainWorld 1 "T2"))
  ∧ solidifyMilestoneLocked 10 (abortAt 3) inOrder chainWorld
    = Returned tt
        (release "T2"
           (setSolidifierMilestoneIndex 0
              (markedSolid "T1" (attemptWorld chainWorld 1 "T2")))).
Proof.
  destruct (aborted_walk_confirms_nothing 10 (abortAt 3)
              (attemptWorld chainWorld 1 "T2") 1 "T2" false
              (markedSolid "T1" (attemptWorld chainWorld 1 "T2")))
    as (_ & Hadv & Hattempt); [vm_compute; reflexivity|].
  split; [exact Hadv|].
  apply (Hattempt inOrder chainWorld); vm_compute; reflexivity.
Defined.

Lemma stale_walk_result :
  solidQueueCheck 10 inOrder staleWorld 1 "T"
  = Returned (false, false) (emit (EvRequestMulti ["P"] 1) staleWorld).
Proof. vm_compute. reflexivity. Qed.

(** C8 fails as it is stated: the walk from "T" asks for "P" only.  "Q" is
    an ancestor of "T" that the cache does not hold as well, but the walk
    does not go past "S", which is marked solid. *)
Lemma solid_flag_hides_absent_ancestor :
  ¬ requestsAbsentAncestors 10 inOrder staleWorld 1 "T".
Proof.
  intros H. destruct (H _ stale_walk_result) as (requested & Htr & Hreq).
  injection Htr as <-.
  assert ("Q" ∈ ["P"]) as Hin.
  { apply Hreq. split; [|vm_compute; reflexivity].
    apply (ancestor_step staleWorld "T" "S" (transaction "Q" "E" true true) "Q").
    - apply (ancestor_step staleWorld "T" "T" (transaction "S" "P" true false) "S").
      + constructor.
      + vm_compute. reflexivity.
      + vm_compute. set_solver.
      + decide_by_compute.
    - vm_compute. reflexivity.
    - vm_compute. set_solver.
    - decide_by_compute. }
  apply list_elem_of_In in Hin. destruct Hin as [Heq|[]]. discriminate Heq.
Qed.

Lemma requested_are_the_missing_ancestors_witness :
  ∃ new requested,
    trace (emit (EvRequestMulti ["B"] 1) forkWorld) = (new ++ trace forkWorld)%list
    ∧ (new = [EvRequestMulti requested 1] ∧ requested ≠ []
       ∨ Forall solidEvent new ∧ requested = [])
    ∧ NoDup requested
    ∧ (∀ a, a ∈ requested ↔ missing forkWorld "T" a)
    ∧ (∀ a, a ∈ requested ↔ ancestor forkWorld "T" a ∧ store forkWorld !! a = None).
Proof.
  destruct (requested_are_the_missing_ancestors 10 inOrder forkWorld 1 "T"
              (emit (EvRequestMulti ["B"] 1) forkWorld))
    as (new & requested & Htr & Hone & Hnd & Hmiss & Hanc & _);
    [vm_compute; reflexivity|].
  exists new, requested. do 4 (split; [assumption|]).
  apply Hanc. apply consistentb_consistent. vm_compute. reflexivity.
Defined.

Lemma walk_over_solid_milestone_witness :
  solidQueueCheck 2 inOrder solidWorld 1 "T1" = Returned (true, false) solidWorld.
Proof.
  apply (walk_over_solid_milestone 2 inOrder solidWorld 1 "T1"
           (transaction "E" "E" true true)); try reflexivity.
  intros a Ha. vm_compute in Ha. apply list_elem_of_In in Ha. destruct Ha as [<-|[]].
  vm_compute. reflexivity.
Defined.


(** C1 fails as it is stated: with an attempt for the milestone 7 running,
    the call for the index 4 does not return at once. *)
Lemma lower_index_does_not_give_way : ¬ lowerIndexGivesWay runningWorld 4.
Proof.
  intros H. specialize (H ltac:(vm_compute; discriminate) ltac:(vm_compute; reflexivity)).
  vm_compute in H. discriminate.
Qed.

Lemma running_older_attempt_has_priority_witness :
  solidifyMilestonePreempt runningWorld 9 = None
  ∧ solidifyMilestonePreempt runningWorld 4
    = Some (abortMilestoneSolidification runningWorld)
  ∧ trace (abortMilestoneSolidification runningWorld) = EvAbortSignal :: trace runningWorld.
Proof.
  assert (solidifierMilestoneIndex runningWorld ≠ 0%N) as Hrun
    by (vm_compute; discriminate).
  destruct (running_older_attempt_has_priority runningWorld 9 Hrun) as [H9 _].
  destruct (running_older_attempt_has_priority runningWorld 4 Hrun) as [_ H4].
  split; [|split].
  - apply H9. split; [vm_compute; discriminate|vm_compute; reflexivity].
  - apply H4. intros [_ Hlt]. vm_compute in Hlt. discriminate.
  - apply H4; [|reflexivity]. intros [_ Hlt]. vm_compute in Hlt. discriminate.
Defined.

(** C4, where the code fails: the attempt that finds the milestone 6 solid
    and the milestones 4 and 5 missing returns with the handle of the tail
    that [GetTail] gave it: one reference to "T6" is left where there was
    none. *)
Theorem gapped_attempt_keeps_tail_handle :
  solidifyMilestone 10 inOrder inOrder gapWorld 0 = Returned tt gapWorldAttempted
  ∧ refCount gapWorld "T6" = 0%nat
  ∧ refCount gapWorldAttempted "T6" = 1%nat.
Proof. split; [|split]; vm_compute; reflexivity. Qed.

(** The other two ways out of an attempt release the handle: the attempt
    that requests a missing transaction, and the attempt that promotes the
    milestone. *)
Example missing_attempt_releases_tail_handle :
  match solidifyMilestone 10 inOrder inOrder forkWorld 0 with
  | Returned _ w' => refCount w' "T" = refCount forkWorld "T"
  | _ => False
  end.
Proof. vm_compute. reflexivity. Qed.

Example promoting_attempt_releases_tail_handle :
  match solidifyMilestone 10 inOrder inOrder solidWorld 0 with
  | Returned _ w' =>
      refCount w' "T1" = refCount solidWorld "T1" ∧ solidMilestoneIndex w' = 1%N
  | _ => False
  end.
Proof. vm_compute. split; reflexivity. Qed.

Lemma gap_search_result :
  searchMissingMilestone 10 inOrder gapWorld 3 6 "T6" 120000
  = Returned (true, false) (gapSearched gapWorld).
Proof. vm_compute. reflexivity. Qed.

(** C5 fails as it is stated: the search of the gap registers the
    milestone 4, and then goes on to check and to register the
    milestone 5. *)
Lemma search_goes_on_after_a_milestone :
  ¬ searchEndsWhenFound 10 inOrder gapWorld 3 6 "T6" 120000.
Proof.
  intros H.
  specialize (H (true, false) _ gap_search_result
                [EvProcessValidMilestone "M5" 5; EvCheckIfMilestone "M5"]
                "M4" 4%N [EvCheckIfMilestone "M4"] eq_refl).
  discriminate H. vm_compute. lia.
Qed.

Lemma found_milestone_leaves_approvee_loop_witness :
  searchApprovees inOrder 3 6 gapWorld (Search.init "T6") ["M4"; "A"]
  = inl (processValidMilestone "M4" 4 (emit (EvCheckIfMilestone "M4") gapWorld),
         {| Search.txsChecked := ∅; Search.txsToTraverse := {["T6"]};
            Search.milestoneFound := true; Search.loopCnt := 0;
            Search.cursor := ∅; Search.tick := 0 |}).
Proof.
  apply (proj1 (found_milestone_leaves_approvee_loop inOrder 3 6 120000 gapWorld
                  (Search.init "T6") "M4" (transaction "E" "E" true true)
                  (<["M4" := {| bundleIsMilestone := true; bundleIndex := 4 |}]>
                     (<["M5" := {| bundleIsMilestone := true; bundleIndex := 5 |}]> ∅))
                  {| bundleIsMilestone := true; bundleIndex := 4 |} ["A"]
                  ltac:(decide_by_compute) ltac:(decide_by_compute)
                  ltac:(vm_compute; reflexivity) eq_refl
                  ltac:(decide_by_compute)
                  ltac:(vm_compute; reflexivity) ltac:(vm_compute; reflexivity)
                  eq_refl ltac:(vm_compute; reflexivity) ltac:(vm_compute; reflexivity))).
Defined.

(** The approvee "N", which is not a tail, is not put among the
    transactions to traverse. *)
Lemma search_passes_over_non_tail :
  ¬ expandsThroughApprovee inOrder 3 6 nonTailWorld (Search.init "T") "N" [].
Proof.
  intros H.
  specialize (H ltac:(decide_by_compute) ltac:(decide_by_compute)
                ltac:(intros w1; vm_compute; discriminate)
                nonTailWorld (Search.init "T") ltac:(vm_compute; reflexivity)).
  apply (bool_decide_pack _) in H. vm_compute in H. exact H.
Qed.

Lemma search_expands_through_tails_witness :
  (∀ w' k', searchApprovees inOrder 3 6 gapWorld (Search.init "T6") ["A"] = inl (w', k') →
            "A" ∈ Search.txsToTraverse k' ∧ "A" ∈ Search.txsChecked k')
  ∧ searchApprovees inOrder 3 6 nonTailWorld (Search.init "T") ["N"]
    = searchApprovees inOrder 3 6 nonTailWorld (Search.init "T") [].
Proof.
  split.
  - apply (proj1 (search_expands_through_tails inOrder 3 6 gapWorld (Search.init "T6")
                    "A" (transaction "M5" "E" true true) []
                    ltac:(decide_by_compute) ltac:(decide_by_compute)
                    ltac:(vm_compute; reflexivity))); [reflexivity|].
    intros w1. vm_compute. discriminate.
  - apply (proj2 (search_expands_through_tails inOrder 3 6 nonTailWorld (Search.init "T")
                    "N" (transaction "M4" "M4" false true) []
                    ltac:(decide_by_compute) ltac:(decide_by_compute)
                    ltac:(vm_compute; reflexivity))). reflexivity.
Defined.

(** C6, where the code fails: in [nonTailWorld] the approvee "N" of the
    tail is no solid entry point, was not checked before and is no
    milestone, and yet the search does not go on through it, because it is
    not the tail of its bundle: the loop over the approvees leaves the
    transactions to traverse as they were.  The search therefore never
    reaches "M4" behind it, the tail of the milestone 4, which is an
    ancestor of the tail "T" in the solid cone and is a milestone that is
    looked for.  The search says that it has found nothing, and
    [solidifyMilestone] ends in the panic of the case of which its comment
    says that it should not happen; the deferred [Unlock] runs, the index
    of the solidifier stays 6 and the handle of the tail is kept. *)
Theorem search_misses_milestone_behind_non_tail :
  "N" ∉ solidEntryPoints nonTailWorld
  ∧ "N" ∉ Search.txsChecked (Search.init "T")
  ∧ (∀ w1, examineApprovee 3 6 nonTailWorld "N" ≠ Found w1)
  ∧ searchApprovees inOrder 3 6 nonTailWorld (Search.init "T") ["N"]
    = inl (nonTailWorld, Search.init "T")
  ∧ ancestor nonTailWorld "T" "M4"
  ∧ gapMilestone nonTailWorld 3 6 "M4" 4
  ∧ searchMissingMilestone 10 inOrder nonTailWorld 3 6 "T" 120000
    = Returned (false, false) nonTailWorld
  ∧ solidifyMilestone 10 inOrder inOrder nonTailWorld 0 = Panicked nonTailWorldPanicked
  ∧ solidifierMilestoneIndex nonTailWorldPanicked = 6%N
  ∧ refCount nonTailWorldPanicked "T" = 1%nat.
Proof.
  split; [decide_by_compute|]. split; [decide_by_compute|].
  split; [intros w1; vm_compute; discriminate|].
  split; [vm_compute; reflexivity|]. split.
  { apply (ancestor_step nonTailWorld "T" "N" (transaction "M4" "M4" false true) "M4").
    - apply (ancestor_step nonTailWorld "T" "T" (transaction "N" "N" true true) "N").
      + constructor.
      + vm_compute. reflexivity.
      + vm_compute. set_solver.
      + decide_by_compute.
    - vm_compute. reflexivity.
    - vm_compute. set_solver.
    - decide_by_compute. }
  split.
  { exists (transaction "E" "E" true true),
      (<["M4" := {| bundleIsMilestone := true; bundleIndex := 4 |}]>
         (<["M5" := {| bundleIsMilestone := true; bundleIndex := 5 |}]> ∅)),
      {| bundleIsMilestone := true; bundleIndex := 4 |}.
    split; [vm_compute; reflexivity|]. split; [reflexivity|].
    split; [decide_by_compute|]. split; [vm_compute; reflexivity|].
    split; [vm_compute; reflexivity|]. split; [reflexivity|]. split; [reflexivity|].
    split; vm_compute; reflexivity. }
  split; [vm_compute; reflexivity|]. split; [vm_compute; reflexivity|].
  split; vm_compute; reflexivity.
Qed.

End scenario_proofs.

(** * Further properties *)

(** ** registerApproverOfApprovee *)

Lemma registerApproverOfApprovee_at (x a c : Hash) (m : gmap Hash (gset Hash)) :
  registerApproverOfApprovee x a m !! c
  = if decide (a = c) then Some ({[x]} ∪ default ∅ (m !! c)) else m !! c.
Proof.
  unfold registerApproverOfApprovee. destruct (decide (a = c)) as [->|Hne].
  - by rewrite lookup_insert_eq.
  - by rewrite lookup_insert_ne.
Qed.

(** X1: [registerApproverOfApprovee] adds the approver to the approvers of
    the approvee and to nothing else, keeps what was registered before, and
    registrations can be repeated and made in any order with the same
    result. *)
Theorem registerApproverOfApprovee_registers (x a : Hash) (m : gmap Hash (gset Hash)) :
  (∀ b y, y ∈ default ∅ (registerApproverOfApprovee x a m !! b)
          ↔ (b = a ∧ y = x) ∨ y ∈ default ∅ (m !! b))
  ∧ is_Some (registerApproverOfApprovee x a m !! a)
  ∧ registerApproverOfApprovee x a (registerApproverOfApprovee x a m)
    = registerApproverOfApprovee x a m
  ∧ (∀ y b, registerApproverOfApprovee x a (registerApproverOfApprovee y b m)
            = registerApproverOfApprovee y b (registerApproverOfApprovee x a m)).
Proof.
  split; [|split; [|split]].
  - intros b y. apply registerApproverOfApprovee_lookup.
  - unfold registerApproverOfApprovee. rewrite lookup_insert_eq. eauto.
  - unfold registerApproverOfApprovee. rewrite lookup_insert_eq, insert_insert_eq.
    f_equal. cbn [default]. set_solver.
  - intros y b. apply map_eq. intros c.
    rewrite !registerApproverOfApprovee_at.
    destruct (decide (a = c)) as [->|Hac]; destruct (decide (b = c)) as [->|Hbc];
      cbn [default]; try done.
    f_equal. set_solver.
Qed.

(** ** abortMilestoneSolidification *)

(** X2: [abortMilestoneSolidification] closes the abort channel at most
    once: after a call there is no channel, a second call does nothing, and
    a call that finds no channel leaves the world as it is. *)
Theorem abortMilestoneSolidification_closes_once (w : World) :
  signalChan (abortMilestoneSolidification w) = false
  ∧ abortMilestoneSolidification (abortMilestoneSolidification w)
    = abortMilestoneSolidification w
  ∧ trace (abortMilestoneSolidification w)
    = ((if signalChan w then [EvAbortSignal] else []) ++ trace w)%list
  ∧ (signalChan w = false → abortMilestoneSolidification w = w).
Proof.
  unfold abortMilestoneSolidification.
  destruct (signalChan w) eqn:Hc; cbn; rewrite ?Hc; done.
Qed.

(** ** checkSolidity, called again *)

(** X3: a transaction that [checkSolidity] has found solid is settled: a
    further call, with either value of [addToApproversCache], gives
    (true, false) and changes nothing, so that [TransactionSolid] is
    triggered once; and the first call says newly solid exactly when the
    flag was not set before. *)
Theorem checkSolidity_settles (w : World) (h : Hash) (add add' : bool) (newly : bool)
    (w' : World) :
  checkSolidity w h add = Returned (true, newly) w' →
  checkSolidity w' h add' = Returned (true, false) w'
  ∧ cachedSolid w' h = true
  ∧ (newly = true ↔ cachedSolid w h = false)
  ∧ (newly = false → w' = w).
Proof.
  rewrite checkSolidity_spec.
  destruct (store w !! h) as [tx|] eqn:Hh; [|done].
  destruct (txSolid tx) eqn:Hs.
  - intros [= <- <-]. rewrite checkSolidity_spec, Hh, Hs.
    rewrite (cachedSolid_Some _ _ _ Hh), Hs. done.
  - destruct (find _ _) as [a|]; [done|]. intros [= <- <-].
    assert (store (emit (EvTransactionSolid h) (setSolid h w)) !! h = Some (txSetSolid tx))
      as Hh' by (cbn; by rewrite lookup_alter_eq, Hh).
    rewrite checkSolidity_spec, Hh'. cbn [txSetSolid txSolid].
    rewrite (cachedSolid_Some _ _ _ Hh'), (cachedSolid_Some _ _ _ Hh), Hs. done.
Qed.

(** ** Sound flags stay sound *)

Lemma approveeOk_advances (w0 w : World) (a : Hash) :
  advances w0 w → approveeOk w0 a = true → approveeOk w a = true.
Proof.
  intros Hadv. unfold approveeOk. rewrite (adv_sep _ _ Hadv).
  destruct (bool_decide _); [done|]. cbn [orb]. by apply advances_cachedSolid.
Qed.

Lemma advances_approveeHashes (w0 w : World) (h : Hash) (tx0 tx : Transaction) :
  advances w0 w → store w0 !! h = Some tx0 → store w !! h = Some tx →
  approveeHashes tx = approveeHashes tx0.
Proof.
  intros Hadv H0 H. destruct (adv_tx _ _ Hadv h tx0 tx H0 H) as (Htr & Hbr & _).
  unfold approveeHashes. by rewrite Htr, Hbr.
Qed.

Lemma advances_consistent (w0 w : World) : advances w0 w → consistent w0 → consistent w.
Proof.
  intros Hadv Hc h tx Hh Hs.
  destruct (cachedSolid w0 h) eqn:H0; [|by apply (adv_parents _ _ Hadv h)].
  unfold cachedSolid in H0. destruct (store w0 !! h) as [tx0|] eqn:Hh0; [|done].
  intros a Ha. rewrite (advances_approveeHashes _ _ _ _ _ Hadv Hh0 Hh) in Ha.
  apply (approveeOk_advances w0); [done|]. by apply (Hc h tx0).
Qed.

Lemma checkSolidity_advances (w : World) (h : Hash) (r : bool * bool) (w' : World) :
  checkSolidity w h false = Returned r w' → advances w w'.
Proof.
  rewrite checkSolidity_spec.
  destruct (store w !! h) as [tx|] eqn:Hh; [|done].
  destruct (txSolid tx) eqn:Hs; [intros [= <- <-]; apply advances_refl|].
  destruct (find _ _) as [a|] eqn:Hf; intros [= <- <-]; [apply advances_refl|].
  apply parentsSolid_find in Hf.
  by apply (advances_solid w w h tx (advances_refl w)).
Qed.

Lemma consistent_same (w w' : World) :
  store w' = store w → solidEntryPoints w' = solidEntryPoints w →
  consistent w → consistent w'.
Proof.
  intros Hs He Hc h tx. rewrite Hs. intros Hh Hsol a Ha.
  specialize (Hc h tx Hh Hsol a Ha). unfold approveeOk, cachedSolid in *.
  by rewrite Hs, He.
Qed.


(** X4: the soundness of the solid flags is kept.  When every transaction
    that is marked solid has its approvees among the solid entry points or
    in the cache and solid, this is so after a call of [checkSolidity] and
    after a walk, however the walk ends. *)
Theorem solid_flags_stay_sound :
  (∀ (w : World) (h : Hash) (add : bool) (r : bool * bool) (w' : World),
     consistent w → checkSolidity w h add = Returned r w' → consistent w')
  ∧ (∀ (fuel : nat) (o : Oracle) (w : World) (ms : MilestoneIndex) (tail : Hash)
       (r : bool * bool) (w' : World),
     consistent w → solidQueueCheck fuel o w ms tail = Returned r w' → consistent w').
Proof.
  split.
  - intros w h add r w' Hc. rewrite checkSolidity_spec.
    destruct (store w !! h) as [tx|] eqn:Hh; [|done].
    destruct (txSolid tx) eqn:Hs; [by intros [= <- <-]|].
    destruct (find _ _) as [a|] eqn:Hf; intros [= <- <-].
    + destruct add; [|done]. by apply (consistent_same w).
    + apply parentsSolid_find in Hf.
      apply (advances_consistent w); [|done].
      by apply (advances_solid w w h tx (advances_refl w)).
  - intros fuel o w ms tail [solid aborted] w' Hc Hrun.
    apply solidQueueCheck_Returned in Hrun
      as [(_ & _ & req & _ & _ & ->)|[(_ & _ & Hadv)|(_ & _ & Hadv)]].
    + by apply (consistent_same w).
    + by apply (advances_consistent w).
    + by apply (advances_consistent w).
Qed.

(** ** The course of a walk *)

Lemma propagateStep_Exit_cases (o : Oracle) (w : World) (k : Walk) (w' : World) (k' : Walk) :
  propagateStep o w k = Exit w' k' →
  w' = w ∧ cursor k = ∅ ∧ entryTxs k' = entryTxs k
  ∧ (newSolidTxFound k = false ∨ entryTxs k = ∅).
Proof.
  rewrite propagateStep_unfold. destruct (decide (cursor k = ∅)) as [Hc|Hc].
  - destruct (newSolidTxFound k) eqn:Hf.
    + intros (-> & -> & Hc')%propagateVisit_Exit. auto.
    + intros [= <- <-]. auto.
  - by intros (-> & -> & Hc')%propagateVisit_Exit.
Qed.

Lemma propagateStep_Next_cases (o : Oracle) (w : World) (k : Walk) (w' : World) (k' : Walk) :
  propagateStep o w k = Next w' k' →
  ∃ k0 h tx,
    (k0 = k ∨ (k0 = restarted k ∧ cursor k = ∅ ∧ newSolidTxFound k = true))
    ∧ h ∈ cursor k0 ∧ store w !! h = Some tx
    ∧ ((txSolid tx = true ∧ w' = w ∧ k' = visitedSolid o k0 h)
       ∨ (txSolid tx = false ∧ parentsSolid w tx
          ∧ w' = markedSolid h w ∧ k' = visitedSolid o k0 h)
       ∨ (txSolid tx = false ∧ ¬ parentsSolid w tx
          ∧ w' = w ∧ k' = visitedNotSolid k0 h)).
Proof.
  rewrite propagateStep_unfold. destruct (decide (cursor k = ∅)) as [Hc|Hc].
  - destruct (newSolidTxFound k) eqn:Hf; [|done].
    intros (h & tx & Hp & _ & Hh & Hcase)%propagateVisit_Next.
    exists (restarted k), h, tx. split; [by right|].
    split; [by apply pick_elem_of in Hp|]. done.
  - intros (h & tx & Hp & _ & Hh & Hcase)%propagateVisit_Next.
    exists k, h, tx. split; [by left|].
    split; [by apply pick_elem_of in Hp|]. done.
Qed.

(** A visit ends the walk when the abort channel is found closed, or when
    the cache does not hold the transaction to visit. *)
Lemma propagateVisit_Halt_cases (o : Oracle) (w : World) (k : Walk)
    (r : Outcome (bool * bool)) :
  propagateVisit o w k = Halt r →
  (r = Returned (false, true) w ∧ abortClosed o (tick k) = true)
  ∨ ∃ h, h ∈ cursor k ∧ store w !! h = None ∧ r = Panicked (acquire h w).
Proof.
  unfold propagateVisit.
  destruct (pick _ _) as [h|] eqn:Hp; [|done].
  destruct (abortClosed _ _) eqn:Hab; [by intros [= <-]; left|].
  change (store (acquire h w)) with (store w).
  destruct (store w !! h) as [tx|] eqn:Hh.
  - rewrite checkSolidity_spec.
    change (store (acquire h w)) with (store w). rewrite Hh.
    destruct (txSolid tx); [done|]. destruct (find _ _); done.
  - intros [= <-]. right. exists h. by apply pick_elem_of in Hp.
Qed.

Lemma propagateStep_Halt_cases (o : Oracle) (w : World) (k : Walk)
    (r : Outcome (bool * bool)) :
  propagateStep o w k = Halt r →
  (r = Returned (false, true) w ∧ ∃ t, abortClosed o t = true)
  ∨ ∃ h, h ∈ cursor k ∪ entryTxs k ∧ store w !! h = None ∧ r = Panicked (acquire h w).
Proof.
  rewrite propagateStep_unfold.
  destruct (decide _); [destruct (newSolidTxFound k); [|done]|];
    intros [[-> Hab]|(h & Hh & Hn & ->)]%propagateVisit_Halt_cases; eauto;
    right; exists h; (split; [|done]); cbn in Hh; set_solver.
Qed.

(** What holds when the second phase starts, and is kept by the start of a
    new [range] and by the three kinds of visits, holds when the phase
    ends. *)
Lemma propagate_rule (I : World → Walk → Prop) (o : Oracle) (fuel : nat)
    (w0 : World) (k0 : Walk) :
  I w0 k0 →
  (∀ w k, I w k → cursor k = ∅ → newSolidTxFound k = true → I w (restarted k)) →
  (∀ w k h tx, I w k → h ∈ cursor k → store w !! h = Some tx → txSolid tx = true →
               I w (visitedSolid o k h)) →
  (∀ w k h tx, I w k → h ∈ cursor k → store w !! h = Some tx → txSolid tx = false →
               parentsSolid w tx → I (markedSolid h w) (visitedSolid o k h)) →
  (∀ w k h tx, I w k → h ∈ cursor k → store w !! h = Some tx → txSolid tx = false →
               ¬ parentsSolid w tx → I w (visitedNotSolid k h)) →
  match runLoop (propagateStep o) fuel w0 k0 with
  | Next _ _ => False
  | Exit w2 k2 =>
      ∃ k, I w2 k ∧ cursor k = ∅ ∧ entryTxs k2 = entryTxs k
           ∧ (newSolidTxFound k = false ∨ entryTxs k = ∅)
  | Halt r =>
      r = OutOfFuel
      ∨ ∃ w2 k, I w2 k
                ∧ ((r = Returned (false, true) w2 ∧ ∃ t, abortClosed o t = true)
                   ∨ ∃ h, h ∈ cursor k ∪ entryTxs k ∧ store w2 !! h = None
                          ∧ r = Panicked (acquire h w2))
  end.
Proof.
  intros Hinit Hrestart Hsolid Hmark Hnot.
  assert (∀ w k w' k', I w k → propagateStep o w k = Next w' k' → I w' k') as Hstep.
  { intros w k w' k' Hk
      (k1 & h & tx & Hk1 & Hh & Htx & Hcase)%propagateStep_Next_cases.
    assert (I w k1) as Hk1'
      by (destruct Hk1 as [->|(-> & ? & ?)]; [done|by apply Hrestart]).
    destruct Hcase as [(? & -> & ->)|[(? & ? & -> & ->)|(? & ? & -> & ->)]]; eauto. }
  pose proof (runLoop_inv (propagateStep o) I Hstep fuel w0 k0 Hinit) as Hinv.
  destruct (runLoop _ _ _ _) as [|w2 k2|r]; [done| |].
  - destruct Hinv as (w1 & k1 & Hk1 & Hs).
    apply propagateStep_Exit_cases in Hs as (-> & ? & ? & ?). by exists k1.
  - destruct Hinv as [->|(w1 & k1 & Hk1 & Hs)]; [by left|]. right.
    apply propagateStep_Halt_cases in Hs. eauto.
Qed.

(** The ways in which a walk returns: aborted in the first phase; with a
    request, after the first phase; or from the second phase, at its end or
    aborted. *)
Lemma solidQueueCheck_course (fuel : nat) (o : Oracle) (w : World)
    (ms : MilestoneIndex) (tail : Hash) (solid aborted : bool) (w' : World) :
  solidQueueCheck fuel o w ms tail = Returned (solid, aborted) w' →
  (solid = false ∧ aborted = true ∧ w' = w)
  ∨ ∃ V x k1,
      runLoop (collectStep o) fuel (acquire tail w) (walkInit tail)
      = Exit (acquire tail w) k1
      ∧ collecting (acquire tail w) tail V x [] k1 ∧ txsToTraverse k1 = ∅
      ∧ ((txsToRequest k1 ≠ ∅ ∧ solid = false ∧ aborted = false
          ∧ w' = emit (EvRequestMulti (elements (txsToRequest k1)) ms) w)
         ∨ (txsToRequest k1 = ∅ ∧ entryTxs k1 ≠ ∅
            ∧ ∃ w2, w' = release tail w2
                ∧ ((∃ k2, runLoop (propagateStep o) fuel (acquire tail w)
                            (walkPropagateInit k1) = Exit w2 k2
                          ∧ solid = bool_decide (entryTxs k2 = ∅) ∧ aborted = false)
                   ∨ (runLoop (propagateStep o) fuel (acquire tail w)
                        (walkPropagateInit k1) = Halt (Returned (false, true) w2)
                      ∧ solid = false ∧ aborted = true)))).
Proof.
  unfold solidQueueCheck. change (store (acquire tail w)) with (store w).
  destruct (store w !! tail) as [ttx|] eqn:Htail; [|done].
  assert (is_Some (store (acquire tail w) !! tail)) as Hp by (by exists ttx).
  destruct (runLoop (collectStep o) _ _ _) as [|w1 k1|r] eqn:Hrun; [done| |].
  - pose proof Hrun as Hrun'.
    apply collect_Exit in Hrun' as (-> & HW & V & x & Hk); [|done].
    intros Hres. right. exists V, x, k1. do 3 (split; [done|]).
    unfold afterCollect in Hres. destruct (decide (txsToRequest k1 = ∅)) as [Hq|Hq].
    + destruct (decide (entryTxs k1 = ∅)) as [He|He]; [done|]. right.
      do 2 (split; [done|]).
      pose proof (propagate_result fuel o (acquire tail w) (acquire tail w)
                    (walkPropagateInit k1) (advances_refl _)) as Hpr.
      destruct (runLoop (propagateStep o) _ _ _) as [|w2 k2|r]; [done| |].
      * simpl in Hres. injection Hres as <- <- <-. exists w2. split; [done|].
        left. by exists k2.
      * destruct Hpr as [->|(w2 & Hadv & [->|[h ->]])]; [done| |done].
        simpl in Hres. injection Hres as <- <- <-. exists w2. split; [done|]. by right.
    + simpl in Hres. injection Hres as <- <- <-. left. do 3 (split; [done|]). world_eq.
  - apply collect_Halt in Hrun as [->|[->|[h ->]]]; [done| |done|done].
    simpl. rewrite release_acquire. intros [= <- <- <-]. by left.
Qed.

(** ** The handles of a walk *)

Lemma accounted_refl (w : World) : accounted w w.
Proof.
  exists []. split; [done|]. split; [cbn; clear; multiset_solver|].
  intros h. cbn. rewrite multiplicity_empty.
  destruct (nodeSynced w); [|done]. by destruct (cachedSolid w h).
Qed.

Lemma accounted_markedSolid (w0 w : World) (h : Hash) (tx : Transaction) :
  advances w0 w → store w !! h = Some tx → txSolid tx = false →
  accounted w0 w → accounted w0 (markedSolid h w).
Proof.
  intros Hadv Hh Hs (new & Htr & Hc & Hm).
  assert (cachedSolid w h = false) as Hwh by (by rewrite (cachedSolid_Some _ _ _ Hh)).
  assert (cachedSolid w0 h = false) as Hw0h.
  { destruct (cachedSolid w0 h) eqn:H0h; [|done].
    apply (advances_cachedSolid _ _ _ Hadv) in H0h. congruence. }
  pose proof (adv_synced _ _ Hadv) as Hsync.
  unfold markedSolid. destruct (nodeSynced w) eqn:Hn.
  - exists (EvFutureConeSubmit h :: EvTransactionSolid h :: new).
    split; [cbn; by rewrite Htr|]. split.
    + change (consumers w ⊎ {[+ h +]} = consumers w0 ⊎ ({[+ h +]} ⊎ submitted new)).
      rewrite Hc. clear. multiset_solver.
    + intros y.
      change (submitted (EvFutureConeSubmit h :: EvTransactionSolid h :: new))
        with ({[+ h +]} ⊎ submitted new).
      change (cachedSolid (emit _ (acquire h (emit _ (setSolid h w)))) y)
        with (cachedSolid (setSolid h w) y).
      rewrite multiplicity_disj_union, Hm, <- Hsync.
      destruct (decide (y = h)) as [->|Hne].
      * rewrite multiplicity_singleton, Hw0h, Hwh.
        assert (cachedSolid (setSolid h w) h = true) as ->;
          [|by rewrite decide_True].
        unfold cachedSolid, setSolid. cbn. by rewrite lookup_alter_eq, Hh.
      * rewrite multiplicity_singleton_ne by done.
        assert (cachedSolid (setSolid h w) y = cachedSolid w y) as ->; [|done].
        unfold cachedSolid, setSolid. cbn. by rewrite lookup_alter_ne.
  - exists (EvTransactionSolid h :: new). split; [cbn; by rewrite Htr|].
    split; [exact Hc|]. intros y.
    change (submitted (EvTransactionSolid h :: new)) with (submitted new).
    rewrite Hm, <- Hsync. done.
Qed.

(** The handles of a walk that returns. *)
Lemma solidQueueCheck_accounted (fuel : nat) (o : Oracle) (w : World)
    (ms : MilestoneIndex) (tail : Hash) (r : bool * bool) (w' : World) :
  solidQueueCheck fuel o w ms tail = Returned r w' → accounted w w'.
Proof.
  destruct r as [solid aborted]. intros Hrun.
  apply solidQueueCheck_course in Hrun
    as [(_ & _ & ->)|(V & x & k1 & _ & _ & _ & [(_ & _ & _ & ->)|(_ & _ & w2 & -> & Hph)])].
  - apply accounted_refl.
  - eexists [_]. split; [done|]. split; [cbn; clear; multiset_solver|].
    intros h. change (cachedSolid (emit _ w) h) with (cachedSolid w h).
    cbn. rewrite multiplicity_empty.
    destruct (nodeSynced w); [|done]. by destruct (cachedSolid w h).
  - pose proof (propagate_rule
                  (λ w1 _, advances (acquire tail w) w1 ∧ accounted (acquire tail w) w1)
                  o fuel (acquire tail w) (walkPropagateInit k1)
                  (conj (advances_refl _) (accounted_refl _))) as Hrule.
    specialize (Hrule ltac:(done) ltac:(done)
                      ltac:(intros w1 k h tx [? ?] ? ? ? ?; split;
                            [by eapply advances_markedSolid
                            |by eapply accounted_markedSolid])
                      ltac:(done)).
    assert (accounted (acquire tail w) w2) as (new & Htr & Hc & Hm).
    { destruct Hph as [(k2 & Heq & _)|(Heq & _)]; rewrite Heq in Hrule.
      - by destruct Hrule as (? & [? ?] & _).
      - destruct Hrule as [?|(w3 & k3 & [? Hacc] & [[[= <-] _]|(? & _ & _ & ?)])]; done. }
    exists new. split; [done|]. split; [|exact Hm].
    change (consumers w2 ∖ {[+ tail +]} = consumers w ⊎ submitted new).
    rewrite Hc. cbn [acquire setConsumers consumers]. clear. multiset_solver.
Qed.

(** X5: every handle that [checkSolidity] and the walk take is given back
    when they return, but for the handles that the walk hands over to the
    future cone pool: one with each submission, and the submissions are one
    for each transaction that the walk has marked solid when the node is
    synced, and none when it is not. *)
Theorem handles_are_given_back :
  (∀ (w : World) (h : Hash) (add : bool) (r : bool * bool) (w' : World),
     checkSolidity w h add = Returned r w' → consumers w' = consumers w)
  ∧ (∀ (fuel : nat) (o : Oracle) (w : World) (ms : MilestoneIndex) (tail : Hash)
       (r : bool * bool) (w' : World),
     solidQueueCheck fuel o w ms tail = Returned r w' →
     ∃ new, trace w' = (new ++ trace w)%list
            ∧ consumers w' = consumers w ⊎ submitted new
            ∧ ∀ h, multiplicity h (submitted new)
                   = if nodeSynced w && negb (cachedSolid w h) && cachedSolid w' h
                     then 1%nat else 0%nat).
Proof.
  split.
  - intros w h add r w'. rewrite checkSolidity_spec.
    destruct (store w !! h) as [tx|]; [|done].
    destruct (txSolid tx); [by intros [= <- <-]|].
    destruct (find _ _) as [a|]; intros [= <- <-]; [by destruct add|done].
  - intros fuel o w ms tail r w'. apply solidQueueCheck_accounted.
Qed.

(** ** A walk that says solid *)

Lemma reach_fresh (w : World) (tail y : Hash) :
  reach w tail y → y = tail ∨ cachedSolid w y = false.
Proof. destruct 1; auto. Qed.

(** When the tail is solid after a walk, so is its cone. *)
Lemma advances_cone (w w' : World) (tail : Hash) :
  advances w w' → cachedSolid w' tail = true →
  cachedSolid w tail = false ∨ consistent w →
  ∀ y, reach w tail y → cachedSolid w' y = true.
Proof.
  intros Hadv Htail Hhyp. induction 1 as [|x tx a Hrx IH Hx Ha Hn Hp Hs]; [done|].
  assert (approveeOk w' a = true) as Hok.
  { destruct (cachedSolid w x) eqn:Hwx.
    - exfalso. destruct (reach_fresh _ _ _ Hrx) as [->|?]; [|congruence].
      destruct Hhyp as [?|Hcons]; [congruence|].
      rewrite (cachedSolid_Some _ _ _ Hx) in Hwx.
      specialize (Hcons tail tx Hx Hwx a Ha). unfold approveeOk in Hcons.
      rewrite (bool_decide_eq_false_2 _ Hn), Hs in Hcons. done.
    - unfold cachedSolid in IH. destruct (store w' !! x) as [tx'|] eqn:Hx'; [|done].
      pose proof (adv_parents _ _ Hadv x tx' Hwx Hx' IH) as Hpar.
      apply Hpar. by rewrite (advances_approveeHashes _ _ _ _ _ Hadv Hx Hx'). }
  unfold approveeOk in Hok. rewrite (adv_sep _ _ Hadv) in Hok.
  by rewrite (bool_decide_eq_false_2 _ Hn) in Hok.
Qed.

Lemma settling_visitedSolid (o : Oracle) (A : gmap Hash (gset Hash)) (E0 R : gset Hash)
    (w w' : World) (k : Walk) (h : Hash) :
  settling A E0 R w k → cachedSolid w' h = true →
  (∀ x, cachedSolid w x = true → cachedSolid w' x = true) →
  settling A E0 ({[h]} ∪ R) w' (visitedSolid o k h).
Proof.
  intros [Ha He Hc Hs] Hh Hmono. split; cbn [visitedSolid approvers entryTxs].
  - done.
  - intros z Hz. specialize (He z Hz). destruct (decide (z = h)); set_solver.
  - intros a y HaR Hy. rewrite Ha.
    destruct (decide (y = h)) as [->|Hne]; [set_solver|].
    apply elem_of_union in HaR as [->%elem_of_singleton|HaR]; [set_solver|].
    specialize (Hc a y HaR Hy). set_solver.
  - intros x [->%elem_of_singleton|Hx]%elem_of_union; [done|]. by apply Hmono, Hs.
Qed.

(** A walk that returns solid has run both phases to their end, has found
    nothing missing, and has left the tail marked solid. *)
Lemma solidQueueCheck_true (fuel : nat) (o : Oracle) (w : World)
    (ms : MilestoneIndex) (tail : Hash) (aborted : bool) (w' : World) :
  solidQueueCheck fuel o w ms tail = Returned (true, aborted) w' →
  aborted = false ∧ advances w w' ∧ (∀ a, ¬ missing w tail a)
  ∧ cachedSolid w' tail = true.
Proof.
  intros Hrun.
  pose proof (solidQueueCheck_Returned _ _ _ _ _ _ _ _ Hrun)
    as [(? & _)|[(? & _)|(-> & Hno & Hadv)]]; [done|done|].
  do 3 (split; [done|]).
  apply solidQueueCheck_course in Hrun
    as [(? & _)|(V & x & k1 & _ & Hk & HW & [(_ & ? & _)|(_ & HE & w2 & -> & Hph)])];
    [done|done|].
  destruct Hph as [(k2 & Heq & Hs & _)|(_ & ? & _)]; [|done].
  symmetry in Hs. apply bool_decide_eq_true in Hs.
  set (w0 := acquire tail w) in *.
  pose proof (propagate_rule
                (λ w1 k, ∃ R, settling (approvers k1) (entryTxs k1) R w1 k)
                o fuel w0 (walkPropagateInit k1)) as Hrule.
  rewrite Heq in Hrule.
  destruct Hrule as (k & (R & [_ He Hc Hsol]) & _ & HEk & _).
  - exists ∅. split; cbn [walkPropagateInit approvers entryTxs]; set_solver.
  - intros w1 k (R & [? ? ? ?]) _ _. exists R. by split.
  - intros w1 k h tx (R & HR) _ Hh Hs'. exists ({[h]} ∪ R).
    apply (settling_visitedSolid o _ _ _ w1); [done| |done].
    by rewrite (cachedSolid_Some _ _ _ Hh).
  - intros w1 k h tx (R & HR) _ Hh Hs' _. exists ({[h]} ∪ R).
    apply (settling_visitedSolid o _ _ _ w1); [done| |].
    + rewrite (cachedSolid_markedSolid _ _ _ _ Hh). by rewrite decide_True.
    + intros y Hy. rewrite (cachedSolid_markedSolid _ _ _ _ Hh).
      by destruct (decide (y = h)).
  - intros w1 k h tx (R & [? ? ? ?]) _ _ _ _. exists R. by split.
  - rewrite <- HEk, Hs in He, Hc.
    assert (∀ y, reach w0 tail y → y ∈ R → tail ∈ R) as Hup.
    { induction 1 as [|y tx a Hry IH Hy Ha Hn Hp Hnot]; [done|]. intros HaR. apply IH.
      pose proof (collecting_cone _ _ _ _ _ Hk HW y Hry) as HyV.
      destruct (col_done _ _ _ _ _ _ Hk y tx a) as [Hreg _]; try done;
        [by intros [_ ?%not_elem_of_nil]|].
      specialize (Hc a y HaR Hreg). set_solver. }
    assert (∃ e, e ∈ entryTxs k1) as [e He1].
    { apply set_choose_L. done. }
    change (cachedSolid w2 tail = true). apply Hsol. apply (Hup e).
    + apply (col_reach _ _ _ _ _ _ Hk). apply elem_of_union_l.
      by apply (col_entry _ _ _ _ _ _ Hk).
    + specialize (He e He1). set_solver.
Qed.

(** X6: a walk says solid only of a solid milestone.  A walk that returns
    solid was not aborted, has found no approvee of the cone missing, and
    leaves the tail marked solid; and when the tail was not marked before,
    or the flags of the cache were sound, it leaves every transaction of
    the cone of the tail marked solid. *)
Theorem walk_says_solid_of_solid_cone (fuel : nat) (o : Oracle) (w : World)
    (ms : MilestoneIndex) (tail : Hash) (aborted : bool) (w' : World) :
  solidQueueCheck fuel o w ms tail = Returned (true, aborted) w' →
  aborted = false
  ∧ (∀ a, ¬ missing w tail a)
  ∧ cachedSolid w' tail = true
  ∧ (cachedSolid w tail = false ∨ consistent w →
     ∀ y, reach w tail y → cachedSolid w' y = true).
Proof.
  intros (-> & Hadv & Hno & Htail)%solidQueueCheck_true.
  do 3 (split; [done|]). intros Hhyp. by apply (advances_cone w).
Qed.

(** ** A walk in an acyclic cache *)

(** In an acyclic cache every chain of approvals ends: a set of hashes
    each of which approves another one of the set is empty. *)
Lemma acyclic_no_descent (w : World) (S : gset Hash) :
  acyclic w → (∀ x, x ∈ S → ∃ a, approves w x a ∧ a ∈ S) → S = ∅.
Proof.
  intros Hdag HS.
  assert (∀ x, sn (approves w) x) as Hsn.
  { intros x. apply tc_finite_sn; [exact Hdag|].
    exists (map_to_list (store w) ≫= (λ p, approveeHashes p.2)).
    intros y Hy.
    assert (∃ z, approves w z y) as (z & tx & Hz & Hin).
    { clear -Hy. induction Hy as [x y Hxy|x z y Hxz _ IH]; eauto. }
    apply list_elem_of_bind. exists (z, tx). split; [done|].
    by apply elem_of_map_to_list. }
  apply elem_of_equiv_empty_L. intros x.
  induction (Hsn x) as [x _ IH]. intros Hx.
  destruct (HS x Hx) as (a & Hxa & Ha). by apply (IH a).
Qed.

(** The flag [isEntryTx] is cleared only at an approvee that is neither a
    solid entry point nor in the cache and solid. *)
Lemma collectApprovee_entry (o : Oracle) (w : World) (tail : Hash) (V : gset Hash)
    (x a : Hash) (todo : list Hash) (k : Walk) (b : bool)
    (w' : World) (k' : Walk) (b' : bool) :
  collecting w tail V x (a :: todo) k →
  collectApprovee o x (w, k, b) a = (w', k', b') →
  entryTxs k' = entryTxs k
  ∧ (b' = false → b = false ∨ ((a ∉ solidEntryPoints w) ∧ cachedSolid w a = false)).
Proof.
  intros Hk. unfold collectApprovee.
  destruct (decide (a ∈ solidEntryPoints w)) as [Hsep|Hsep].
  { intros [= <- <- <-]. auto. }
  destruct (txsChecked k !! a) as [isSolid|] eqn:Hchk.
  { intros [= <- <- <-]. split; [done|]. intros Hb.
    destruct (col_checked _ _ _ _ _ _ Hk a isSolid Hchk) as (-> & _).
    apply andb_false_iff in Hb as [?|?]; auto. }
  change (store (acquire a w)) with (store w).
  destruct (store w !! a) as [atx|] eqn:Hsa.
  - destruct (txSolid atx) eqn:Hsolid.
    + intros [= <- <- <-]. auto.
    + cbn [rangeInsert]. intros [= <- <- <-]. split; [done|]. intros _. right.
      split; [done|]. by rewrite (cachedSolid_Some _ _ _ Hsa).
  - intros [= <- <- <-]. split; [done|]. intros _. right.
    split; [done|]. by apply cachedSolid_None.
Qed.

Lemma foldl_collectApprovee_entry (o : Oracle) (w : World) (tail : Hash) (V : gset Hash)
    (x : Hash) (tx : Transaction) (todo : list Hash) :
  x ∈ V → store w !! x = Some tx → todo ⊆ approveeHashes tx →
  ∀ (k : Walk) (b : bool), collecting w tail V x todo k →
    ∀ w' k' b', foldl (collectApprovee o x) (w, k, b) todo = (w', k', b') →
      entryTxs k' = entryTxs k
      ∧ (b' = false →
         b = false
         ∨ ∃ a, a ∈ todo ∧ (a ∉ solidEntryPoints w) ∧ cachedSolid w a = false).
Proof.
  intros HxV Hx. induction todo as [|a todo IH]; intros Hsub k b Hk w' k' b'; cbn [foldl].
  { intros [= <- <- <-]. auto. }
  destruct (collectApprovee_collecting o w tail V x tx a todo k b)
    as (k1 & b1 & Heq & Hk1 & _); try done; [set_solver|].
  rewrite Heq. intros Hf.
  destruct (collectApprovee_entry _ _ _ _ _ _ _ _ _ _ _ _ Hk Heq) as [He1 Hb1].
  destruct (IH ltac:(set_solver) k1 b1 Hk1 w' k' b' Hf) as [He2 Hb2].
  split; [congruence|]. intros Hb'. destruct (Hb2 Hb') as [Hb1f|(a' & ? & ? & ?)].
  - destruct (Hb1 Hb1f) as [?|[? ?]]; [by left|]. right. exists a. set_solver.
  - right. exists a'. set_solver.
Qed.

(** A turn of the first phase keeps what it has found of the transactions
    visited. *)
Lemma collectStep_entered (o : Oracle) (w : World) (tail : Hash) (V : gset Hash) (x : Hash)
    (k : Walk) (w' : World) (k' : Walk) :
  collecting w tail V x [] k → entered w V k →
  collectStep o w k = Next w' k' →
  w' = w ∧ ∃ V' x', collecting w tail V' x' [] k' ∧ entered w V' k'.
Proof.
  intros Hk Hent. unfold collectStep.
  set (cur := if decide (cursor k = ∅) then txsToTraverse k else cursor k).
  destruct (pick (orderOf o (tick k)) cur) as [h|] eqn:Hp; [|done].
  destruct (abortClosed o (tick k)); [done|].
  change (store (acquire h w)) with (store w).
  assert (h ∈ txsToTraverse k) as HhW.
  { apply pick_elem_of in Hp. subst cur. destruct (decide _); [done|].
    by apply (col_cursor _ _ _ _ _ _ Hk). }
  destruct (store w !! h) as [tx|] eqn:Hh; [|done].
  set (k1 := Build_Walk _ _ _ _ _ _ _ _ _).
  assert (collecting (acquire h w) tail ({[h]} ∪ V) h (approveeHashes tx) k1) as Hk1.
  { apply (collecting_same w); [done|done|].
    destruct Hk as [Ht Hr Hd Hc Hq Hcu Ha He Hf]. subst k1. split; simpl.
    - destruct (decide (tail = h)); set_solver.
    - intros y Hy. apply Hr. set_solver.
    - intros y ty c Hy Hty Hc' Hns Hp'.
      destruct (decide (y = h)) as [->|Hyh].
      + exfalso. apply Hp'. split; [done|]. congruence.
      + apply (Hd y ty c); try done; [set_solver|]. by intros [? ?%not_elem_of_nil].
    - intros c b0 Hcb. destruct (Hc c b0 Hcb) as (? & ? & Hin).
      split; [done|]. split; [done|]. intros ? ?.
      specialize (Hin ltac:(done) ltac:(done)).
      destruct (decide (c = h)); set_solver.
    - done.
    - subst cur. destruct (decide _); set_solver.
    - intros c y Hy. destruct (Ha c y Hy) as (? & ? & ?). split; [set_solver|done].
    - set_solver.
    - intros y Hy. apply Hf. set_solver. }
  destruct (foldl_collectApprovee_collecting o (acquire h w) tail ({[h]} ∪ V) h tx
              (approveeHashes tx) ltac:(set_solver) Hh ltac:(done) k1 true Hk1)
    as (k2 & b2 & Heq & Hk2 & Ht2 & Hq2).
  destruct (foldl_collectApprovee_entry o (acquire h w) tail ({[h]} ∪ V) h tx
              (approveeHashes tx) ltac:(set_solver) Hh ltac:(done) k1 true Hk1
              _ _ _ Heq) as [He2 Hb2].
  rewrite Heq, release_acquire. intros [= <- <-]. split; [done|].
  exists ({[h]} ∪ V), h. split.
  - apply (collecting_same (acquire h w)); [done|done|].
    destruct Hk2 as [Ht Hr Hd Hc Hq Hcu Ha He Hf]. split; simpl; try done.
    destruct b2; set_solver.
  - intros y Hy. cbn [entryTxs]. destruct (decide (y = h)) as [->|Hne].
    + destruct b2; [left; set_solver|]. right.
      destruct (Hb2 eq_refl) as [?|(a & Ha & Hn & Hc)]; [done|]. by exists tx, a.
    + destruct (Hent y ltac:(set_solver)) as [Hy'|?]; [|by right]. left.
      rewrite He2. subst k1. cbn [entryTxs]. destruct b2; set_solver.
Qed.

(** The first phase ends the walk only when the abort channel is found
    closed: the transactions to traverse are in the cache. *)
Lemma collectStep_Halt_cases (o : Oracle) (w : World) (tail : Hash) (V : gset Hash)
    (x : Hash) (k : Walk) (r : Outcome (bool * bool)) :
  collecting w tail V x [] k →
  collectStep o w k = Halt r →
  r = Returned (false, true) w ∧ abortClosed o (tick k) = true.
Proof.
  intros Hk. unfold collectStep.
  set (cur := if decide (cursor k = ∅) then txsToTraverse k else cursor k).
  destruct (pick (orderOf o (tick k)) cur) as [h|] eqn:Hp; [|done].
  destruct (abortClosed o (tick k)); [by intros [= <-]|].
  change (store (acquire h w)) with (store w).
  assert (h ∈ txsToTraverse k) as HhW.
  { apply pick_elem_of in Hp. subst cur. destruct (decide _); [done|].
    by apply (col_cursor _ _ _ _ _ _ Hk). }
  destruct (col_reach _ _ _ _ _ _ Hk h ltac:(set_solver)) as [_ [tx Hh]].
  rewrite Hh. by destruct (foldl _ _ _) as [[? ?] ?].
Qed.

(** What the first phase leads to. *)
Lemma collect_course (fuel : nat) (o : Oracle) (w : World) (tail : Hash) :
  is_Some (store w !! tail) →
  match runLoop (collectStep o) fuel w (walkInit tail) with
  | Next _ _ => False
  | Exit w1 k1 =>
      w1 = w ∧ txsToTraverse k1 = ∅
      ∧ ∃ V x, collecting w tail V x [] k1 ∧ entered w V k1
  | Halt r =>
      r = OutOfFuel ∨ (r = Returned (false, true) w ∧ ∃ t, abortClosed o t = true)
  end.
Proof.
  intros Hp.
  pose (I := λ (w' : World) (k' : Walk),
               w' = w ∧ ∃ V x, collecting w tail V x [] k' ∧ entered w V k').
  assert (∀ w1 k1 w2 k2, I w1 k1 → collectStep o w1 k1 = Next w2 k2 → I w2 k2) as Hstep.
  { intros w1 k1 w2 k2 [-> (V & x & Hk & He)] Hs.
    destruct (collectStep_entered _ _ _ _ _ _ _ _ Hk He Hs) as (-> & V' & x' & ? & ?).
    split; [done|]. eauto. }
  assert (I w (walkInit tail)) as Hinit.
  { split; [done|]. exists ∅, tail. split; [by apply collecting_init|].
    intros y Hy. set_solver. }
  pose proof (runLoop_inv (collectStep o) I Hstep fuel w (walkInit tail) Hinit) as Hinv.
  destruct (runLoop _ _ _ _) as [|w1 k1|r]; [done| |].
  - destruct Hinv as (w2 & k2 & [-> (V & x & Hk & He)] & Hs).
    apply collectStep_Exit in Hs as (-> & -> & HW); [|by apply (col_cursor _ _ _ _ _ _ Hk)].
    split; [done|]. split; [done|]. by exists V, x.
  - destruct Hinv as [->|(w2 & k2 & [-> (V & x & Hk & He)] & Hs)]; [by left|]. right.
    apply (collectStep_Halt_cases _ _ _ _ _ _ _ Hk) in Hs as [-> ?]. eauto.
Qed.

(** When the first phase has found nothing to request, the approvees of
    the transactions visited that are not solid were visited, too. *)
Lemma collecting_closed (w : World) (tail : Hash) (V : gset Hash) (x : Hash) (k : Walk) :
  collecting w tail V x [] k → txsToTraverse k = ∅ → txsToRequest k = ∅ →
  ∀ y tx a, y ∈ V → store w !! y = Some tx → a ∈ approveeHashes tx →
            a ∉ solidEntryPoints w → cachedSolid w a = false → a ∈ V.
Proof.
  intros Hk HW Hq y tx a Hy Hytx Ha Hn Hs.
  destruct (col_done _ _ _ _ _ _ Hk y tx a) as [_ [b Hb]]; try done;
    [by intros [_ ?%not_elem_of_nil]|].
  destruct (col_checked _ _ _ _ _ _ Hk a b Hb) as (_ & Hreq & Hin).
  destruct (store w !! a) as [atx|] eqn:Hsa.
  - specialize (Hin ltac:(eauto) Hs). set_solver.
  - specialize (Hreq eq_refl). set_solver.
Qed.

Lemma pending_init (w : World) (tail : Hash) (V : gset Hash) (x : Hash) (k : Walk) :
  collecting w tail V x [] k → entered w V k →
  pending w V (approvers k) w (walkPropagateInit k).
Proof.
  intros Hk He. split; cbn [walkPropagateInit approvers entryTxs cursor newSolidTxFound].
  - apply advances_refl.
  - done.
  - apply (col_entry _ _ _ _ _ _ Hk).
  - set_solver.
  - intros y Hy _. by apply He.
  - done.
Qed.

Lemma pending_restarted (w0 : World) (V : gset Hash) (A : gmap Hash (gset Hash))
    (w : World) (k : Walk) :
  pending w0 V A w k → pending w0 V A w (restarted k).
Proof.
  intros [Hadv Ha He Hc Hw Hs]. split; cbn [restarted approvers entryTxs cursor]; try done.
Qed.

Lemma pending_visitedSolid (o : Oracle) (w0 : World) (V : gset Hash)
    (A : gmap Hash (gset Hash)) (w : World) (k : Walk) (h : Hash) (tx : Transaction) :
  (∀ a y, y ∈ default ∅ (A !! a) → y ∈ V) →
  pending w0 V A w k → store w !! h = Some tx → txSolid tx = true →
  pending w0 V A w (visitedSolid o k h).
Proof.
  intros HF2 [Hadv Ha He Hc Hw Hs] Hh Hsolid.
  split; cbn [visitedSolid approvers entryTxs cursor newSolidTxFound]; try done.
  - rewrite Ha. intros y [[Hy|Hy]%elem_of_union _]%elem_of_difference; [|by apply He].
    by apply (HF2 h).
  - intros y. rewrite !elem_of_difference, !elem_of_union, elem_of_filter. set_solver.
  - intros y Hy Hys. destruct (Hw y Hy Hys) as [HyE|?]; [|by right]. left.
    assert (y ≠ h) by (intros ->; rewrite (cachedSolid_Some _ _ _ Hh) in Hys; congruence).
    set_solver.
Qed.

Lemma pending_markedSolid (o : Oracle) (w0 : World) (V : gset Hash)
    (A : gmap Hash (gset Hash)) (w : World) (k : Walk) (h : Hash) (tx : Transaction) :
  (∀ x tx a, x ∈ V → store w0 !! x = Some tx → a ∈ approveeHashes tx →
             a ∉ solidEntryPoints w0 → x ∈ default ∅ (A !! a)) →
  (∀ a y, y ∈ default ∅ (A !! a) → y ∈ V) →
  pending w0 V A w k → store w !! h = Some tx → txSolid tx = false → parentsSolid w tx →
  pending w0 V A (markedSolid h w) (visitedSolid o k h).
Proof.
  intros HF1 HF2 [Hadv Ha He Hc Hw Hs] Hh Hsolid Hpar.
  split; cbn [visitedSolid approvers entryTxs cursor newSolidTxFound]; try done.
  - by eapply advances_markedSolid.
  - rewrite Ha. intros y [[Hy|Hy]%elem_of_union _]%elem_of_difference; [|by apply He].
    by apply (HF2 h).
  - intros y. rewrite !elem_of_difference, !elem_of_union, elem_of_filter. set_solver.
  - intros y Hy. rewrite (cachedSolid_markedSolid _ _ _ _ Hh).
    destruct (decide (y = h)) as [->|Hne]; [done|]. intros Hys.
    destruct (Hw y Hy Hys) as [HyE|(ty & a & Hty & Hin & Hn & Has)]; [left; set_solver|].
    destruct (decide (a = h)) as [->|Hah].
    + left. rewrite Ha. pose proof (HF1 y ty h Hy Hty Hin Hn). set_solver.
    + right. exists ty, a. do 3 (split; [done|]).
      rewrite (cachedSolid_markedSolid _ _ _ _ Hh). by rewrite decide_False.
Qed.

Lemma pending_visitedNotSolid (w0 : World) (V : gset Hash)
    (A : gmap Hash (gset Hash)) (w : World) (k : Walk) (h : Hash) (tx : Transaction) :
  pending w0 V A w k → store w !! h = Some tx → txSolid tx = false → ¬ parentsSolid w tx →
  pending w0 V A w (visitedNotSolid k h).
Proof.
  intros [Hadv Ha He Hc Hw Hs] Hh Hsolid Hpar.
  split; cbn [visitedNotSolid approvers entryTxs cursor newSolidTxFound]; try done.
  - set_solver.
  - intros Hf y Hy Hyc. destruct (decide (y = h)) as [->|Hne]; [by exists tx|].
    apply (Hs Hf y Hy). set_solver.
Qed.

(** The second phase in an acyclic cache, when nothing is missing: there
    is an entry transaction to start from, no transaction to visit is
    missing from the cache, and the phase ends only when no entry
    transaction is left. *)
Lemma propagate_acyclic (fuel : nat) (o : Oracle) (w : World) (tail : Hash)
    (V : gset Hash) (x : Hash) (k1 : Walk) :
  acyclic w → collecting w tail V x [] k1 → entered w V k1 →
  txsToTraverse k1 = ∅ → txsToRequest k1 = ∅ →
  entryTxs k1 ≠ ∅
  ∧ match runLoop (propagateStep o) fuel w (walkPropagateInit k1) with
    | Next _ _ => False
    | Exit w2 k2 => entryTxs k2 = ∅
    | Halt r =>
        r = OutOfFuel
        ∨ ∃ w2, r = Returned (false, true) w2 ∧ ∃ t, abortClosed o t = true
    end.
Proof.
  intros Hdag Hk Hent HW Hq.
  pose proof (collecting_closed _ _ _ _ _ Hk HW Hq) as HF4.
  assert (∀ x tx a, x ∈ V → store w !! x = Some tx → a ∈ approveeHashes tx →
                    a ∉ solidEntryPoints w → x ∈ default ∅ (approvers k1 !! a)) as HF1.
  { intros y ty a Hy Hty Ha Hn.
    destruct (col_done _ _ _ _ _ _ Hk y ty a) as [? _]; try done.
    by intros [_ ?%not_elem_of_nil]. }
  assert (∀ a y, y ∈ default ∅ (approvers k1 !! a) → y ∈ V) as HF2.
  { intros a y Hy. by destruct (col_approvers _ _ _ _ _ _ Hk a y Hy). }
  assert (∀ y, y ∈ V → is_Some (store w !! y)) as HF3.
  { intros y Hy. apply (col_reach _ _ _ _ _ _ Hk). set_solver. }
  split.
  - intros HE.
    assert (V = ∅) as HV.
    { apply (acyclic_no_descent w); [done|]. intros y Hy.
      destruct (Hent y Hy) as [?|(ty & a & Hty & Ha & Hn & Hs)]; [set_solver|].
      exists a. split; [by exists ty|]. by apply (HF4 y ty). }
    pose proof (col_tail _ _ _ _ _ _ Hk). set_solver.
  - pose proof (propagate_rule (pending w V (approvers k1)) o fuel w (walkPropagateInit k1)
                  (pending_init _ _ _ _ _ Hk Hent)) as Hrule.
    specialize (Hrule
      ltac:(intros; by apply pending_restarted)
      ltac:(intros; by eapply pending_visitedSolid)
      ltac:(intros; by eapply pending_markedSolid)
      ltac:(intros; by eapply pending_visitedNotSolid)).
    destruct (runLoop _ _ _ _) as [|w2 k2|r]; [done| |].
    + destruct Hrule as (k & [Hadv Ha He Hc Hw Hs] & Hcur & -> & [Hf|HE]); [|done].
      set (S := filter (λ y, cachedSolid w2 y = false) V).
      assert (S = ∅) as HS.
      { apply (acyclic_no_descent w); [done|]. intros y [Hys Hy]%elem_of_filter.
        assert (∃ ty a, store w !! y = Some ty ∧ a ∈ approveeHashes ty
                        ∧ (a ∉ solidEntryPoints w) ∧ cachedSolid w2 a = false)
          as (ty & a & Hty & Ha' & Hn & Has).
        { destruct (Hw y Hy Hys) as [HyE|?]; [|done].
          destruct (Hs Hf y HyE ltac:(set_solver)) as (ty' & Hty' & _ & Hnpar).
          destruct (HF3 y Hy) as [ty Hty]. exists ty.
          destruct (find (λ a, negb (approveeOk w2 a)) (approveeHashes ty')) as [a|] eqn:Hfind;
            [|by apply parentsSolid_find in Hfind].
          apply find_some in Hfind as [Hin Hno]. apply list_elem_of_In in Hin.
          apply negb_true_iff in Hno. unfold approveeOk in Hno.
          apply orb_false_iff in Hno as [Hno1 Hno2].
          apply bool_decide_eq_false in Hno1. rewrite (adv_sep _ _ Hadv) in Hno1.
          rewrite (advances_approveeHashes _ _ _ _ _ Hadv Hty Hty') in Hin.
          by exists a. }
        exists a. split; [by exists ty|]. apply elem_of_filter. split; [done|].
        apply (HF4 y ty); try done.
        destruct (cachedSolid w a) eqn:Hwa; [|done].
        apply (advances_cachedSolid _ _ _ Hadv) in Hwa. congruence. }
      apply elem_of_equiv_empty_L. intros y HyE.
      destruct (Hs Hf y HyE ltac:(set_solver)) as (ty' & Hty' & Hsol & _).
      assert (y ∈ S); [|set_solver].
      apply elem_of_filter. split; [by rewrite (cachedSolid_Some _ _ _ Hty')|by apply He].
    + destruct Hrule as [->|(w2 & k & [Hadv Ha He Hc Hw Hs] & [[-> Hab]|(h & Hh & Hnone & _)])];
        [by left|right; by exists w2|exfalso].
      assert (h ∈ V) as HhV by set_solver.
      apply (adv_dom _ _ Hadv) in Hnone. destruct (HF3 h HhV) as [? ?]. congruence.
Qed.

(** How a walk ends in an acyclic cache that holds the tail. *)
Lemma solidQueueCheck_acyclic (fuel : nat) (o : Oracle) (w : World)
    (ms : MilestoneIndex) (tail : Hash) :
  acyclic w → is_Some (store w !! tail) →
  match solidQueueCheck fuel o w ms tail with
  | Returned (solid, aborted) w' =>
      (solid = false ∧ aborted = true ∧ ∃ t, abortClosed o t = true)
      ∨ (solid = false ∧ aborted = false ∧ ∃ a, missing w tail a)
      ∨ (solid = true ∧ aborted = false)
  | Panicked _ | Blocked _ => False
  | OutOfFuel => (fuel < walkFuel w)%nat
  end.
Proof.
  intros Hdag [ttx Htail]. unfold solidQueueCheck.
  change (store (acquire tail w)) with (store w). rewrite Htail.
  set (w0 := acquire tail w).
  assert (is_Some (store w0 !! tail)) as Hp by (by exists ttx).
  assert (acyclic w0) as Hdag0 by exact Hdag.
  pose proof (collect_course fuel o w0 tail Hp) as Hcol.
  destruct (runLoop (collectStep o) fuel w0 (walkInit tail)) as [|w1 k1|r] eqn:Hrun;
    [done| |].
  - destruct Hcol as (-> & HW & V & x & Hk & Hent).
    unfold afterCollect. destruct (decide (txsToRequest k1 = ∅)) as [Hq|Hq].
    + destruct (propagate_acyclic fuel o w0 tail V x k1 Hdag0 Hk Hent HW Hq) as [HE Hpro].
      rewrite decide_False by done.
      destruct (runLoop (propagateStep o) fuel w0 (walkPropagateInit k1))
        as [|w2 k2|r] eqn:Hrun2; [done| |].
      * cbn [deferRelease]. right; right. by rewrite bool_decide_eq_true_2.
      * destruct Hpro as [->|(w2 & -> & Hab)]; cbn [deferRelease]; [|by left].
        destruct (decide (fuel < walkFuel w)%nat) as [|Hge]; [done|]. exfalso.
        apply (propagate_terminates fuel o w0 tail V x k1 Hdag0 Hk); [|done].
        change (walkFuel w0) with (walkFuel w). lia.
    + cbn [deferRelease]. right; left. do 2 (split; [done|]).
      apply set_choose_L in Hq as [a Ha]. exists a.
      apply (missing_same w0); [done|done|]. by apply (col_request _ _ _ _ _ _ Hk).
  - destruct Hcol as [->|[-> Hab]]; cbn [deferRelease]; [|by left].
    destruct (decide (fuel < walkFuel w)%nat) as [|Hge]; [done|]. exfalso.
    apply (collect_terminates fuel o w0 tail Hp); [|done].
    change (store w0) with (store w). unfold walkFuel in Hge. nia.
Qed.

Lemma closedb_missing (w : World) (tail a : Hash) : closedb w = true → ¬ missing w tail a.
Proof.
  unfold closedb. rewrite forallb_forall. intros Hall (x & tx & _ & Hx & Ha & Hn & Hnone).
  assert (In (x, tx) (map_to_list (store w))) as Hin
    by (apply list_elem_of_In; by apply elem_of_map_to_list).
  pose proof (Hall (x, tx) Hin) as Hx'. cbv beta iota in Hx'.
  pose proof (proj1 (forallb_forall _ _) Hx' a ltac:(by apply list_elem_of_In)) as Ha'.
  cbv beta in Ha'. apply orb_true_iff in Ha' as [Hs|Hs]; apply bool_decide_eq_true in Hs.
  - done.
  - rewrite Hnone in Hs. by destruct Hs.
Qed.

(** In an acyclic cache that holds the cone of the tail, a walk that is
    not aborted finds the milestone solid. *)
Lemma solidQueueCheck_complete (fuel : nat) (o : Oracle) (w : World)
    (ms : MilestoneIndex) (tail : Hash) :
  acyclic w → (walkFuel w ≤ fuel)%nat → is_Some (store w !! tail) →
  (∀ a, ¬ missing w tail a) → (∀ t, abortClosed o t = false) →
  ∃ w', solidQueueCheck fuel o w ms tail = Returned (true, false) w'
        ∧ cachedSolid w' tail = true ∧ advances w w'.
Proof.
  intros Hdag Hfuel Htail Hno Hab.
  pose proof (solidQueueCheck_acyclic fuel o w ms tail Hdag Htail) as Hres.
  destruct (solidQueueCheck fuel o w ms tail) as [[solid aborted] w'| | |] eqn:Hrun;
    [|done|done|lia].
  destruct Hres as [(_ & _ & t & Ht)|[(_ & _ & a & Ha)|(-> & ->)]].
  - rewrite Hab in Ht. done.
  - by destruct (Hno a).
  - exists w'. split; [done|].
    by apply solidQueueCheck_true in Hrun as (_ & ? & _ & ?).
Qed.

(** X7: the walk finds a milestone solid when it is.  In an acyclic cache
    that holds the tail and every approvee of its cone, a walk that is not
    aborted returns (true, false) within [walkFuel] turns of each of its
    loops, and leaves the tail marked solid: it does not panic, and it
    does not give up while a transaction of the cone can still be marked. *)
Theorem walk_finds_milestone_solid (fuel : nat) (o : Oracle) (w : World)
    (ms : MilestoneIndex) (tail : Hash) :
  acyclic w → (walkFuel w ≤ fuel)%nat → is_Some (store w !! tail) →
  (∀ a, ¬ missing w tail a) → (∀ t, abortClosed o t = false) →
  ∃ w', solidQueueCheck fuel o w ms tail = Returned (true, false) w'
        ∧ cachedSolid w' tail = true ∧ advances w w'.
Proof. apply solidQueueCheck_complete. Qed.

(** X8: what a walk cannot do in an acyclic cache that holds the tail.  It
    does not panic: the transactions it visits are in the cache, and there
    is an entry transaction to start the second phase from.  It returns
    (false, false) only when an approvee of the cone is missing, and it
    returns aborted only when it has found the abort channel closed. *)
Theorem walk_in_acyclic_cache (fuel : nat) (o : Oracle) (w : World)
    (ms : MilestoneIndex) (tail : Hash) :
  acyclic w → is_Some (store w !! tail) →
  (∀ w', solidQueueCheck fuel o w ms tail ≠ Panicked w')
  ∧ (∀ w', solidQueueCheck fuel o w ms tail = Returned (false, false) w' →
           ∃ a, missing w tail a)
  ∧ (∀ solid w', solidQueueCheck fuel o w ms tail = Returned (solid, true) w' →
                 solid = false ∧ ∃ t, abortClosed o t = true).
Proof.
  intros Hdag Htail.
  pose proof (solidQueueCheck_acyclic fuel o w ms tail Hdag Htail) as Hres.
  split; [|split].
  - intros w' Hrun. by rewrite Hrun in Hres.
  - intros w' Hrun. rewrite Hrun in Hres.
    destruct Hres as [(_ & ? & _)|[(_ & _ & ?)|(? & _)]]; done.
  - intros solid w' Hrun. rewrite Hrun in Hres.
    destruct Hres as [(? & _ & ?)|[(_ & ? & _)|(_ & ?)]]; done.
Qed.

(** ** What a walk leaves as it is *)

Lemma advances_flags_only (w w' : World) :
  advances w w' →
  dom (store w') = dom (store w)
  ∧ (∀ h tx tx', store w !! h = Some tx → store w' !! h = Some tx' →
                 tx' = tx ∨ (txSolid tx = false ∧ tx' = txSetSolid tx)).
Proof.
  intros Hadv. split.
  { apply set_eq. intros h.
    rewrite !elem_of_dom, <- !not_eq_None_Some, (adv_dom _ _ Hadv). done. }
  intros h tx tx' Hh Hh'.
  destruct (adv_tx _ _ Hadv h tx tx' Hh Hh') as (Htr & Hbr & Hta & Hbu & Hs).
  destruct tx as [t b i u s], tx' as [t' b' i' u' s']. cbn in *. subst.
  destruct s; [left; by rewrite Hs|]. destruct s'; [by right|by left].
Qed.

(** X9: a walk, however it returns, changes nothing of the cache but solid
    flags, which it sets and does not clear: no transaction is added or
    removed, and the trunk, the branch and the bundle of each are as they
    were.  The solid entry points, the approvers that [tangle.GetApprovers]
    gives, the milestones and the indices are as they were, too. *)
Theorem walk_sets_flags_only (fuel : nat) (o : Oracle) (w : World)
    (ms : MilestoneIndex) (tail : Hash) (r : bool * bool) (w' : World) :
  solidQueueCheck fuel o w ms tail = Returned r w' →
  dom (store w') = dom (store w)
  ∧ (∀ h tx tx', store w !! h = Some tx → store w' !! h = Some tx' →
                 tx' = tx ∨ (txSolid tx = false ∧ tx' = txSetSolid tx))
  ∧ solidEntryPoints w' = solidEntryPoints w
  ∧ approversCache w' = approversCache w
  ∧ milestones w' = milestones w
  ∧ solidMilestoneIndex w' = solidMilestoneIndex w
  ∧ latestMilestoneIndex w' = latestMilestoneIndex w
  ∧ solidifierMilestoneIndex w' = solidifierMilestoneIndex w
  ∧ signalChan w' = signalChan w.
Proof.
  destruct r as [solid aborted]. intros Hrun.
  assert (w' = setTrace (trace w') w ∨ advances w w') as [->|Hadv].
  { apply solidQueueCheck_Returned in Hrun
      as [(_ & _ & req & _ & _ & ->)|[(_ & _ & ?)|(_ & _ & ?)]]; auto. }
  - cbn. split; [done|]. split; [|done]. intros h tx tx' Hh Hh'. left. congruence.
  - destruct (advances_flags_only _ _ Hadv) as [? ?]. by destruct Hadv.
Qed.

(** ** A walk over a cone with a missing approvee *)

(** X10: while an approvee of the cone is missing, a walk marks nothing
    solid.  It is aborted in its first phase and leaves the world as it
    is, or it asks the gossip layer for the missing approvees, all of them
    and nothing else, and returns (false, false): the second phase is not
    entered. *)
Theorem walk_with_missing_approvee_marks_nothing (fuel : nat) (o : Oracle) (w : World)
    (ms : MilestoneIndex) (tail a : Hash) (solid aborted : bool) (w' : World) :
  missing w tail a →
  solidQueueCheck fuel o w ms tail = Returned (solid, aborted) w' →
  solid = false
  ∧ ((aborted = true ∧ w' = w)
     ∨ (aborted = false
        ∧ ∃ req : gset Hash,
            (∀ b, b ∈ req ↔ missing w tail b)
            ∧ w' = emit (EvRequestMulti (elements req) ms) w)).
Proof.
  intros Hm Hrun.
  apply solidQueueCheck_course in Hrun
    as [(-> & -> & ->)
       |(V & x & k1 & _ & Hk & HW & [(_ & -> & -> & ->)|(Hq & _)])].
  - split; [done|]. by left.
  - split; [done|]. right. split; [done|]. exists (txsToRequest k1). split; [|done].
    intros b. rewrite (collecting_requests _ _ _ _ _ Hk HW). split; by apply missing_same.
  - exfalso.
    assert (a ∈ txsToRequest k1); [|set_solver].
    apply (collecting_requests _ _ _ _ _ Hk HW). by apply (missing_same w).
Qed.

(** ** The search for missing milestones *)

Lemma searchedTo_nil (w : World) : searchedTo w [] = w.
Proof. unfold searchedTo. world_eq. Qed.

Lemma searchedTo_check (w0 : World) (new : list Event) (a : Hash) :
  emit (EvCheckIfMilestone a) (searchedTo w0 new)
  = searchedTo w0 (EvCheckIfMilestone a :: new).
Proof. unfold searchedTo. world_eq. Qed.

Lemma searchedTo_register (w0 : World) (new : list Event) (a : Hash) (i : MilestoneIndex) :
  processValidMilestone a i (searchedTo w0 new)
  = searchedTo w0 (EvProcessValidMilestone a i :: new).
Proof. unfold searchedTo, processValidMilestone. world_eq. Qed.

(** What the examination of an approvee does to the world. *)
Lemma examineApprovee_cases (smi start : MilestoneIndex) (w : World) (a : Hash) :
  match examineApprovee smi start w a with
  | Skip w1 => w1 = w
  | Expand w1 =>
      is_Some (store w !! a)
      ∧ (w1 = w ∨ (a ∈ maybeMilestones w ∧ w1 = emit (EvCheckIfMilestone a) w))
  | Found w1 =>
      ∃ i, gapMilestone w smi start a i
           ∧ w1 = processValidMilestone a i (emit (EvCheckIfMilestone a) w)
  | Failed _ => True
  end.
Proof.
  unfold examineApprovee.
  change (store (acquire a w)) with (store w).
  change (maybeMilestones (acquire a w)) with (maybeMilestones w).
  change (bundleBuckets (acquire a w)) with (bundleBuckets w).
  destruct (store w !! a) as [atx|] eqn:Ha; [|done].
  destruct (txIsTail atx) eqn:Htail; cbn [negb]; [|apply release_acquire].
  destruct (decide (a ∈ maybeMilestones w)) as [Hm|Hm].
  - destruct (bundleBuckets w !! txBundle atx) as [bucket|] eqn:Hb; [|done].
    destruct (bucket !! a) as [bundle|] eqn:Hbu; [|done].
    destruct (bundleIsMilestone bundle) eqn:Hms; cbn [andb].
    + destruct (smi <? bundleIndex bundle)%N eqn:Hlo; cbn [andb].
      * destruct (bundleIndex bundle <? start)%N eqn:Hhi.
        -- exists (bundleIndex bundle). split.
           ++ exists atx, bucket, bundle. apply N.ltb_lt in Hlo, Hhi. done.
           ++ unfold processValidMilestone. world_eq.
        -- split; [done|]. right. split; [done|]. world_eq.
      * split; [done|]. right. split; [done|]. world_eq.
    + split; [done|]. right. split; [done|]. world_eq.
  - split; [done|]. left. apply release_acquire.
Qed.

Lemma registered_app (new' new : list Event) (m : gmap N Hash) :
  registered (new' ++ new) m = registered new' (registered new m).
Proof. unfold registered. by rewrite foldr_app. Qed.

(** The loop over the approvees makes the calls of a search only, and sets
    [milestoneFound] exactly when it registers a milestone. *)
Lemma searchApprovees_searched (o : Oracle) (smi start : MilestoneIndex) (w0 : World)
    (hs : list Hash) :
  ∀ (new : list Event) (k : Search.State) (w' : World) (k' : Search.State),
    searchApprovees o smi start (searchedTo w0 new) k hs = inl (w', k') →
    ∃ new', w' = searchedTo w0 (new' ++ new)
            ∧ Forall (searchEvent w0 smi start) new'
            ∧ (Search.milestoneFound k' = true
               ↔ Search.milestoneFound k = true
                 ∨ ∃ t i, EvProcessValidMilestone t i ∈ new').
Proof.
  induction hs as [|a hs IH]; intros new k w' k'; cbn [searchApprovees].
  { intros [= <- <-]. exists []. split; [done|]. split; [done|].
    split; [by left|]. intros [?|(? & ? & ?%not_elem_of_nil)]; done. }
  destruct (decide (a ∈ solidEntryPoints _)); [apply IH|].
  destruct (decide (a ∈ Search.txsChecked k)); [apply IH|].
  pose proof (examineApprovee_cases smi start (searchedTo w0 new) a) as Hex.
  destruct (examineApprovee smi start (searchedTo w0 new) a) as [w1|w1|w1|w1]; [| | |done].
  - (* the approvee is to traverse *)
    destruct Hex as [_ [->|[Hm ->]]].
    + intros Hs. apply IH in Hs as (new' & -> & Hall & Hf). by exists new'.
    + rewrite searchedTo_check. intros Hs.
      apply IH in Hs as (new' & -> & Hall & Hf).
      exists (new' ++ [EvCheckIfMilestone a])%list. rewrite <- app_assoc.
      split; [done|]. split.
      { apply Forall_app. split; [done|]. constructor; [|done]. left. by exists a. }
      cbn [Search.milestoneFound] in Hf. rewrite Hf. split.
      * intros [?|(t & i & Hin)]; [by left|]. right. exists t, i. set_solver.
      * intros [?|(t & i & Hin)]; [by left|]. right. exists t, i.
        apply elem_of_app in Hin as [?|Hin]; [done|]. set_solver.
  - (* the approvee is not a tail *)
    subst w1. apply IH.
  - (* a milestone is found *)
    destruct Hex as (i & Hgap & ->). rewrite searchedTo_check, searchedTo_register.
    intros [= <- <-].
    exists [EvProcessValidMilestone a i; EvCheckIfMilestone a]. split; [done|]. split.
    + constructor; [right; by exists a, i|]. constructor; [|done]. left.
      destruct Hgap as (? & ? & ? & ? & ? & ? & _). by exists a.
    + cbn [Search.milestoneFound]. split; [|done]. intros _. right. exists a, i. set_solver.
Qed.

(** The loop over the approvees reads the cache and does not change it,
    and it puts a hash among the transactions to traverse only when it
    marks it as checked, which it was not before. *)
Lemma searchApprovees_measure (o : Oracle) (smi start : MilestoneIndex) (hs : list Hash) :
  ∀ (w : World) (k : Search.State) (w' : World) (k' : Search.State),
    searchApprovees o smi start w k hs = inl (w', k') →
    store w' = store w ∧ (searchMeasure w k' ≤ searchMeasure w k)%nat.
Proof.
  induction hs as [|a hs IH]; intros w k w' k'; cbn [searchApprovees].
  { by intros [= <- <-]. }
  destruct (decide (a ∈ solidEntryPoints _)); [apply IH|].
  destruct (decide (a ∈ Search.txsChecked k)) as [|Hchk]; [apply IH|].
  pose proof (examineApprovee_cases smi start w a) as Hex.
  destruct (examineApprovee smi start w a) as [w1|w1|w1|w1]; [| | |done].
  - destruct Hex as [[atx Ha] Hw1].
    assert (store w1 = store w) as Hst by (destruct Hw1 as [->|[_ ->]]; done).
    cbn [rangeInsert]. intros Hs. apply IH in Hs as [Hst' Hm].
    split; [congruence|]. unfold searchMeasure in *. rewrite Hst in Hm.
    cbn [Search.txsChecked Search.txsToTraverse] in Hm.
    assert (a ∈ dom (store w)) as Hd by (apply elem_of_dom; eauto).
    pose proof (size_difference_insert _ _ _ Hd Hchk).
    pose proof (size_insert_le (Search.txsToTraverse k) a). lia.
  - subst w1. apply IH.
  - destruct Hex as (i & _ & ->). by intros [= <- <-].
Qed.

(** What a turn of the search that leads to a next one has done. *)
Lemma searchStep_Next_cases (o : Oracle) (smi start : MilestoneIndex) (maxSearchDepth : Z)
    (w : World) (k : Search.State) (w' : World) (k' : Search.State) :
  Search.cursor k ⊆ Search.txsToTraverse k →
  searchStep o smi start maxSearchDepth w k = Next w' k' →
  ∃ h tx k1 k2,
    h ∈ Search.txsToTraverse k ∧ store w !! h = Some tx
    ∧ Search.txsChecked k1 = Search.txsChecked k
    ∧ Search.txsToTraverse k1 = Search.txsToTraverse k ∖ {[h]}
    ∧ Search.milestoneFound k1 = Search.milestoneFound k
    ∧ searchApprovees o smi start w k1 (approveeHashes tx) = inl (w', k2)
    ∧ Search.txsChecked k' = Search.txsChecked k2
    ∧ Search.txsToTraverse k' = Search.txsToTraverse k2
    ∧ Search.milestoneFound k' = Search.milestoneFound k2
    ∧ Search.cursor k' ⊆ Search.txsToTraverse k'.
Proof.
  intros Hcur. unfold searchStep.
  set (atHead := bool_decide (Search.cursor k = ∅)).
  destruct (atHead && _); [done|].
  set (cur := if atHead then _ else _).
  assert (cur ⊆ Search.txsToTraverse k) as Hsub
    by (subst cur; destruct atHead; set_solver).
  destruct (pick _ cur) as [h|] eqn:Hp; [|done].
  destruct (abortClosed _ _); [done|].
  change (store (acquire h w)) with (store w). rewrite release_acquire.
  destruct (store w !! h) as [tx|] eqn:Hh; [|done].
  set (k1 := Search.Build_State _ _ _ _ _ _).
  destruct (searchApprovees _ _ _ _ _ _) as [[w2 k2]|] eqn:Hs; [|done].
  intros [= <- <-]. exists h, tx, k1, k2. apply pick_elem_of in Hp.
  split; [set_solver|]. do 8 (split; [done|]).
  apply searchApprovees_cursor in Hs; [done|]. subst k1. cbn. set_solver.
Qed.

Lemma searchStep_Halt (o : Oracle) (smi start : MilestoneIndex) (maxSearchDepth : Z)
    (w : World) (k : Search.State) (r : Outcome (bool * bool)) :
  searchStep o smi start maxSearchDepth w k = Halt r →
  r = Returned (false, true) w ∨ ∃ w1, r = Panicked w1.
Proof.
  unfold searchStep. destruct (_ && _); [done|].
  destruct (pick _ _) as [h|]; [|done].
  destruct (abortClosed _ _); [intros [= <-]; by left|].
  destruct (store _ !! h) as [tx|]; [|intros [= <-]; eauto].
  destruct (searchApprovees _ _ _ _ _ _) as [[w2 k2]|]; [done|]. intros [= <-]. eauto.
Qed.

(** What a search that returns has done. *)
Lemma searchMissingMilestone_Returned (fuel : nat) (o : Oracle) (w : World)
    (smi start : MilestoneIndex) (tail : Hash) (maxSearchDepth : Z)
    (found aborted : bool) (w' : World) :
  searchMissingMilestone fuel o w smi start tail maxSearchDepth
  = Returned (found, aborted) w' →
  ∃ new, w' = searchedTo w new
         ∧ Forall (searchEvent w smi start) new
         ∧ (found = true → ∃ t i, EvProcessValidMilestone t i ∈ new)
         ∧ (aborted = false → (∃ t i, EvProcessValidMilestone t i ∈ new) → found = true)
         ∧ (aborted = true → found = false).
Proof.
  unfold searchMissingMilestone. change (store (acquire tail w)) with (store w).
  destruct (store w !! tail) as [ttx|] eqn:Htail; [|done].
  set (w0 := acquire tail w).
  pose (I := λ (w1 : World) (k : Search.State),
               Search.cursor k ⊆ Search.txsToTraverse k
               ∧ ∃ new, w1 = searchedTo w0 new
                        ∧ Forall (searchEvent w0 smi start) new
                        ∧ (Search.milestoneFound k = true
                           ↔ ∃ t i, EvProcessValidMilestone t i ∈ new)).
  assert (∀ w1 k1 w2 k2, I w1 k1 →
            searchStep o smi start maxSearchDepth w1 k1 = Next w2 k2 → I w2 k2) as Hstep.
  { intros w1 k1 w2 k2 [Hcur (new & -> & Hall & Hf)] Hs.
    apply searchStep_Next_cases in Hs
      as (h & tx & k1' & k2' & _ & _ & _ & _ & Hf1 & Hs & _ & _ & Hf2 & Hcur'); [|done].
    split; [done|].
    apply searchApprovees_searched in Hs as (new' & -> & Hall' & Hf').
    exists (new' ++ new)%list. split; [done|]. split; [by apply Forall_app|].
    rewrite Hf2, Hf', Hf1, Hf. split.
    - intros [(t & i & ?)|(t & i & ?)]; exists t, i; set_solver.
    - intros (t & i & [?|?]%elem_of_app); [right|left]; by exists t, i. }
  assert (I w0 (Search.init tail)) as Hinit.
  { split; [done|]. exists []. split; [by rewrite searchedTo_nil|]. split; [done|].
    cbn. split; [done|]. by intros (? & ? & ?%not_elem_of_nil). }
  pose proof (runLoop_inv _ I Hstep fuel w0 (Search.init tail) Hinit) as Hinv.
  assert (∀ new, release tail (searchedTo w0 new) = searchedTo w new) as Hrel.
  { intros new. unfold searchedTo, w0. world_eq. }
  destruct (runLoop _ _ _ _) as [|w1 k1|r]; [done| |].
  - destruct Hinv as (w2 & k2 & [_ (new & -> & Hall & Hf)] & Hs).
    apply searchStep_Exit in Hs as (-> & -> & _).
    cbn [deferRelease]. intros [= <- <- <-]. exists new. rewrite Hrel.
    split; [done|]. split; [done|]. rewrite Hf. done.
  - destruct Hinv as [->|(w2 & k2 & [_ (new & -> & Hall & Hf)] & Hs)]; [done|].
    apply searchStep_Halt in Hs as [->|[w3 ->]]; [|done].
    cbn [deferRelease]. intros [= <- <- <-]. exists new. rewrite Hrel. done.
Qed.

Lemma registered_lookup (new : list Event) (m : gmap N Hash) (t : Hash) (i : MilestoneIndex) :
  EvProcessValidMilestone t i ∈ new → is_Some (registered new m !! i).
Proof.
  induction new as [|e new IH]; [by intros ?%not_elem_of_nil|].
  intros [<-|Hin]%elem_of_cons.
  - cbn. rewrite lookup_insert_eq. eauto.
  - specialize (IH Hin). destruct e; cbn; try done.
    destruct (decide (ms = i)) as [->|Hne].
    + rewrite lookup_insert_eq. eauto.
    + by rewrite lookup_insert_ne.
Qed.

(** X11: what a search does.  A search that returns has called
    [tangle.CheckIfMilestone] and [processValidMilestone] and nothing else:
    the cache, the handles and the solid milestone are as they were.  It
    has registered only milestones of tails of the cache that passed
    [IsMaybeMilestone] and [CheckIfMilestone], with an index strictly
    between the solid index and the index searched from; it says found
    exactly when, not aborted, it has registered one, and then a milestone
    of the gap is known. *)
Theorem search_registers_gap_milestones (fuel : nat) (o : Oracle) (w : World)
    (smi start : MilestoneIndex) (tail : Hash) (maxSearchDepth : Z)
    (found aborted : bool) (w' : World) :
  searchMissingMilestone fuel o w smi start tail maxSearchDepth
  = Returned (found, aborted) w' →
  ∃ new,
    w' = searchedTo w new
    ∧ Forall (searchEvent w smi start) new
    ∧ store w' = store w ∧ consumers w' = consumers w
    ∧ solidMilestoneIndex w' = solidMilestoneIndex w
    ∧ (aborted = true → found = false)
    ∧ (aborted = false → found = true ↔ ∃ t i, EvProcessValidMilestone t i ∈ new)
    ∧ (found = true →
       ∃ i, (smi < i)%N ∧ (i < start)%N ∧ is_Some (milestones w' !! i)).
Proof.
  intros (new & -> & Hall & Hf1 & Hf2 & Hab)%searchMissingMilestone_Returned.
  exists new. do 5 (split; [done|]). split; [done|]. split.
  - intros Hna. split; [apply Hf1|by apply Hf2].
  - intros Hf. destruct (Hf1 Hf) as (t & i & Hin). exists i.
    pose proof (proj1 (Forall_forall _ _) Hall _ Hin) as [(? & ? & _)|(t' & i' & Heq & Hgap)];
      [done|].
    injection Heq as <- <-. destruct Hgap as (? & ? & ? & _ & _ & _ & _ & _ & _ & _ & ? & ?).
    do 2 (split; [done|]). cbn. by eapply registered_lookup.
Qed.

(** The search returns or panics within as many turns as the cache has
    transactions, and two more. *)
Lemma searchMissingMilestone_ends (fuel : nat) (o : Oracle) (w : World)
    (smi start : MilestoneIndex) (tail : Hash) (maxSearchDepth : Z) :
  (size (dom (store w)) + 2 ≤ fuel)%nat →
  terminated (searchMissingMilestone fuel o w smi start tail maxSearchDepth).
Proof.
  intros Hfuel. unfold searchMissingMilestone.
  change (store (acquire tail w)) with (store w).
  destruct (store w !! tail) as [ttx|] eqn:Htail; [|done].
  set (w0 := acquire tail w).
  set (step := searchStep o smi start maxSearchDepth).
  assert (∀ w1 k, step w1 k ≠ Halt OutOfFuel) as Hne.
  { intros w1 k Hs. by apply searchStep_Halt in Hs as [?|[? ?]]. }
  pose (Inv := λ (w1 : World) (k : Search.State),
                 store w1 = store w ∧ Search.cursor k ⊆ Search.txsToTraverse k).
  assert (runLoop step fuel w0 (Search.init tail) ≠ Halt OutOfFuel) as Hterm.
  { apply (runLoop_terminates step Inv searchMeasure).
    - intros w1 k w2 k' [Hst Hcur] Hs.
      apply searchStep_Next_cases in Hs
        as (h & tx & k1 & k2 & Hh & _ & Hc1 & HW1 & _ & Hs & Hc2 & HW2 & _ & Hcur'); [|done].
      apply searchApprovees_measure in Hs as [Hst' Hm].
      split; [split; [congruence|done]|].
      unfold searchMeasure in *. rewrite Hst', Hc2, HW2. rewrite Hc1, HW1 in Hm.
      pose proof (size_delete _ _ Hh). lia.
    - intros w1 k _. apply Hne.
    - split; [done|]. cbn. set_solver.
    - unfold searchMeasure. cbn [Search.init Search.txsChecked Search.txsToTraverse].
      rewrite size_singleton. change (store w0) with (store w).
      pose proof (subseteq_size (C:=gset Hash) (dom (store w) ∖ ∅) (dom (store w))
                    ltac:(set_solver)).
      lia. }
  pose proof (runLoop_inv step (λ _ _, True) ltac:(done) fuel w0 (Search.init tail)
                ltac:(done)) as Hinv.
  destruct (runLoop step fuel w0 (Search.init tail)) as [|w1 k1|r]; [done|done|].
  destruct Hinv as [->|(w1 & k1 & _ & Hs)]; [done|].
  by apply searchStep_Halt in Hs as [->|[? ->]].
Qed.

(** X12: the search ends.  Whatever the depth it is given and whatever
    the cache holds, the search returns or panics within as many turns as
    the cache has transactions, and two more: a hash is put among the
    transactions to traverse only when it is marked as checked, which it
    was not before. *)
Theorem searchMissingMilestone_terminates (fuel : nat) (o : Oracle) (w : World)
    (smi start : MilestoneIndex) (tail : Hash) (maxSearchDepth : Z) :
  (size (dom (store w)) + 2 ≤ fuel)%nat →
  terminated (searchMissingMilestone fuel o w smi start tail maxSearchDepth).
Proof. apply searchMissingMilestone_ends. Qed.

(** X13: a search that is given no depth looks at nothing: with a depth
    that is not positive it returns (false, false) and leaves the world as
    it is, the handle of the tail given back. *)
Theorem search_without_depth (fuel : nat) (o : Oracle) (w : World)
    (smi start : MilestoneIndex) (tail : Hash) (maxSearchDepth : Z) :
  is_Some (store w !! tail) → (maxSearchDepth ≤ 0)%Z → (1 ≤ fuel)%nat →
  searchMissingMilestone fuel o w smi start tail maxSearchDepth = Returned (false, false) w.
Proof.
  intros [ttx Htail] Hdepth Hfuel. destruct fuel as [|fuel]; [lia|].
  unfold searchMissingMilestone. change (store (acquire tail w)) with (store w).
  rewrite Htail.
  assert (searchStep o smi start maxSearchDepth (acquire tail w) (Search.init tail)
          = Exit (acquire tail w) (Search.init tail)) as Hs.
  { unfold searchStep. cbn [Search.init Search.cursor Search.txsToTraverse Search.loopCnt].
    rewrite bool_decide_eq_true_2 by done.
    assert ((Z.of_nat 0 <? maxSearchDepth)%Z = false) as -> by (apply Z.ltb_ge; lia).
    by rewrite orb_true_r. }
  rewrite (runLoop_Exit _ _ _ _ _ _ Hs). cbn [deferRelease Search.init Search.milestoneFound].
  by rewrite release_acquire.
Qed.

(** X14: a walk and a search that find the abort channel closed when they
    start return (false, true) at once and leave the world as it is: no
    transaction is visited, and the handle of the tail is given back. *)
Theorem abort_before_the_first_visit :
  (∀ (fuel : nat) (o : Oracle) (w : World) (ms : MilestoneIndex) (tail : Hash),
     is_Some (store w !! tail) → abortClosed o 0 = true → (1 ≤ fuel)%nat →
     solidQueueCheck fuel o w ms tail = Returned (false, true) w)
  ∧ (∀ (fuel : nat) (o : Oracle) (w : World) (smi start : MilestoneIndex) (tail : Hash)
       (maxSearchDepth : Z),
     is_Some (store w !! tail) → abortClosed o 0 = true → (0 < maxSearchDepth)%Z →
     (1 ≤ fuel)%nat →
     searchMissingMilestone fuel o w smi start tail maxSearchDepth
     = Returned (false, true) w).
Proof.
  split.
  - intros fuel o w ms tail [ttx Htail] Hab Hfuel. destruct fuel as [|fuel]; [lia|].
    unfold solidQueueCheck. change (store (acquire tail w)) with (store w). rewrite Htail.
    assert (collectStep o (acquire tail w) (walkInit tail)
            = Halt (Returned (false, true) (acquire tail w))) as Hs.
    { unfold collectStep. cbn [walkInit cursor txsToTraverse tick].
      rewrite decide_True by done. by rewrite pick_singleton, Hab. }
    cbn [runLoop]. rewrite Hs. cbn [deferRelease]. by rewrite release_acquire.
  - intros fuel o w smi start tail depth [ttx Htail] Hab Hdepth Hfuel.
    destruct fuel as [|fuel]; [lia|].
    unfold searchMissingMilestone. change (store (acquire tail w)) with (store w).
    rewrite Htail.
    assert (searchStep o smi start depth (acquire tail w) (Search.init tail)
            = Halt (Returned (false, true) (acquire tail w))) as Hs.
    { unfold searchStep.
      cbn [Search.init Search.cursor Search.txsToTraverse Search.loopCnt Search.tick].
      rewrite bool_decide_eq_true_2 by done.
      rewrite bool_decide_eq_false_2 by set_solver.
      assert ((Z.of_nat 0 <? depth)%Z = true) as -> by (apply Z.ltb_lt; lia).
      cbn [negb orb andb]. by rewrite pick_singleton, Hab. }
    cbn [runLoop]. rewrite Hs. cbn [deferRelease]. by rewrite release_acquire.
Qed.

(** ** The attempts of solidifyMilestone *)

Lemma FindClosestNextMilestone_Some (w : World) (index i : MilestoneIndex) (t : Hash) :
  FindClosestNextMilestone w index = Some (i, t) →
  (index < i)%N ∧ milestones w !! i = Some t.
Proof.
  unfold FindClosestNextMilestone. intros H.
  assert ((index < i)%N ∧ (i, t) ∈ map_to_list (milestones w))
    as [? ?%elem_of_map_to_list]; [|done].
  revert H. generalize (map_to_list (milestones w)). intros l.
  revert i t. induction l as [|[j u] l IH]; intros i t; cbn [foldr]; [done|].
  destruct (index <? j)%N eqn:Hlt.
  - destruct (foldr _ None l) as [[j' u']|] eqn:Hbest.
    + destruct (j <? j')%N.
      * intros [= <- <-]. split; [by apply N.ltb_lt|left].
      * intros [= <- <-]. destruct (IH j' u' eq_refl). split; [done|by right].
    + intros [= <- <-]. split; [by apply N.ltb_lt|left].
  - intros H. destruct (IH i t H). split; [done|by right].
Qed.

(** The events of a walk, and what it leaves of the milestones. *)
Lemma solidQueueCheck_events (fuel : nat) (o : Oracle) (w : World)
    (ms : MilestoneIndex) (tail : Hash) (r : bool * bool) (w' : World) :
  solidQueueCheck fuel o w ms tail = Returned r w' →
  solidMilestoneIndex w' = solidMilestoneIndex w ∧ milestones w' = milestones w
  ∧ ∃ new, trace w' = (new ++ trace w)%list
           ∧ (Forall solidEvent new ∨ ∃ req, new = [EvRequestMulti req ms]).
Proof.
  destruct r as [solid aborted]. intros Hrun.
  apply solidQueueCheck_Returned in Hrun
    as [(_ & _ & req & _ & _ & ->)|[(_ & _ & Hadv)|(_ & _ & Hadv)]].
  - do 2 (split; [done|]). eexists [_]. split; [done|]. right. eauto.
  - destruct (adv_trace _ _ Hadv) as (new & ? & ? & _).
    split; [apply (adv_solidIndex _ _ Hadv)|]. split; [apply (adv_milestones _ _ Hadv)|].
    eauto.
  - destruct (adv_trace _ _ Hadv) as (new & ? & ? & _).
    split; [apply (adv_solidIndex _ _ Hadv)|]. split; [apply (adv_milestones _ _ Hadv)|].
    eauto.
Qed.

(** The ways in which an attempt returns: at once, when there is nothing
    to solidify; after a walk that has not found the milestone solid; after
    a walk that has found it solid with milestones missing before it; and
    after the promotion of the milestone. *)
Lemma solidifyMilestoneLocked_Returned (fuel : nat) (o o' : Oracle) (w w' : World) :
  solidifyMilestoneLocked fuel o o' w = Returned tt w' →
  w' = w
  ∨ ∃ i tail solid aborted w4,
      FindClosestNextMilestone w (solidMilestoneIndex w) = Some (i, tail)
      ∧ solidQueueCheck fuel o (attemptWorld w i tail) i tail
        = Returned (solid, aborted) w4
      ∧ ((solid = false ∧ w' = release tail (setSolidifierMilestoneIndex 0 w4))
         ∨ (solid = true ∧ (solidMilestoneIndex w + 1 < i)%N
            ∧ ∃ w5, w' = rerun w5
                    ∧ (w5 = w4
                       ∨ ∃ found aborted',
                           searchMissingMilestone fuel o' w4 (solidMilestoneIndex w) i tail
                             maxMissingMilestoneSearchDepth
                           = Returned (found, aborted') w5))
         ∨ (solid = true ∧ ¬ (solidMilestoneIndex w + 1 < i)%N
            ∧ w' = rerun
                     (emit (EvSolidMilestoneChanged i)
                        (emit (EvStoreMilestone i)
                           (setSolidMilestoneIndex i
                              (release tail (emit (EvConfirmMilestone i tail) w4))))))).
Proof.
  unfold solidifyMilestoneLocked.
  destruct (_ && _); [intros [= <-]; by left|].
  destruct (FindClosestNextMilestone w (solidMilestoneIndex w)) as [[i tail]|] eqn:Hnext;
    [|intros [= <-]; by left].
  fold (attemptWorld w i tail).
  destruct (solidQueueCheck fuel o (attemptWorld w i tail) i tail)
    as [[solid aborted] w4| | |] eqn:Hwalk; [|done|done|done].
  intros Hres. right. exists i, tail, solid, aborted, w4. do 2 (split; [done|]).
  destruct solid; cbn [negb] in Hres.
  - destruct (solidMilestoneIndex w + 1 <? i)%N eqn:Hgap.
    + right; left. split; [done|]. split; [by apply N.ltb_lt|].
      destruct (decide _).
      * destruct (searchMissingMilestone _ _ _ _ _ _ _) as [[found aborted'] w5| | |] eqn:Hs;
          [|done|done|done].
        destruct (negb found && negb aborted'); [done|].
        injection Hres as <-. exists w5. split; [done|]. right. eauto.
      * injection Hres as <-. exists w4. split; [done|]. by left.
    + right; right. split; [done|]. split; [by apply N.ltb_ge, N.le_ngt in Hgap|].
      by injection Hres as <-.
  - left. split; [done|]. by injection Hres as <-.
Qed.

(** X15: what runs under [solidifierLock] leaves the solidifier idle.  The
    part of [solidifyMilestone] that runs with the lock held, entered in
    any world, gives the lock back as the last thing it does, whether it
    returns or panics; and when it returns, [solidifierMilestoneIndex] is 0
    again, unless it has found nothing to solidify and has left everything
    else as it was.  So a call of [solidifyMilestone] that returns has
    given way at once and changed nothing, or ends with the lock free. *)
Theorem attempt_leaves_solidifier_idle (fuel : nat) (o o' : Oracle) :
  (∀ w w', deferUnlock (solidifyMilestoneLocked fuel o o' w) = Returned tt w' →
           solidifierLocked w' = false
           ∧ (∃ rest, trace w' = EvUnlock :: rest)
           ∧ (solidifierMilestoneIndex w' = 0%N
              ∨ w' = emit EvUnlock (setSolidifierLocked false w)))
  ∧ (∀ w w', deferUnlock (solidifyMilestoneLocked fuel o o' w) = Panicked w' →
             solidifierLocked w' = false ∧ ∃ rest, trace w' = EvUnlock :: rest)
  ∧ (∀ w msIndexEmptiedQueue w',
       solidifyMilestone fuel o o' w msIndexEmptiedQueue = Returned tt w' →
       w' = w
       ∨ (solidifierLocked w' = false
          ∧ (∃ rest, trace w' = EvUnlock :: rest)
          ∧ (solidifierMilestoneIndex w' = 0%N
             ∨ w' = emit EvUnlock
                      (setSolidifierLocked false
                         (emit EvLock
                            (setSolidifierLocked true
                               (abortMilestoneSolidification w))))))).
Proof.
  assert (∀ w w', deferUnlock (solidifyMilestoneLocked fuel o o' w) = Returned tt w' →
            solidifierLocked w' = false
            ∧ (∃ rest, trace w' = EvUnlock :: rest)
            ∧ (solidifierMilestoneIndex w' = 0%N
               ∨ w' = emit EvUnlock (setSolidifierLocked false w))) as Hbody.
  { intros w w'.
    destruct (solidifyMilestoneLocked _ _ _ _) as [[] w2| | |] eqn:Hrun; [|done|done|done].
    cbn [deferUnlock]. intros [= <-]. split; [done|]. split; [by eexists|].
    apply solidifyMilestoneLocked_Returned in Hrun
      as [->|(i & tail & solid & aborted & w4 & _ & _
              & [(_ & ->)|[(_ & _ & w5 & -> & _)|(_ & _ & ->)]])]; auto. }
  split; [exact Hbody|]. split.
  - intros w w'.
    destruct (solidifyMilestoneLocked _ _ _ _) as [[] w2|w2| |]; [done| |done|done].
    cbn [deferUnlock]. intros [= <-]. split; [done|]. by eexists.
  - intros w ms w'. unfold solidifyMilestone, solidifyMilestonePreempt.
    destruct (_ && _); [intros [= <-]; by left|].
    destruct (solidifierLocked _); [done|].
    intros Hrun. right. by apply Hbody in Hrun.
Qed.

Lemma abortMilestoneSolidification_frame (w : World) :
  solidMilestoneIndex (abortMilestoneSolidification w) = solidMilestoneIndex w
  ∧ milestones (abortMilestoneSolidification w) = milestones w
  ∧ latestMilestoneIndex (abortMilestoneSolidification w) = latestMilestoneIndex w
  ∧ consumers (abortMilestoneSolidification w) = consumers w
  ∧ store (abortMilestoneSolidification w) = store w
  ∧ ∃ pre, trace (abortMilestoneSolidification w) = (pre ++ trace w)%list
           ∧ (pre = [] ∨ pre = [EvAbortSignal]).
Proof.
  unfold abortMilestoneSolidification. destruct (signalChan w); cbn.
  - do 5 (split; [done|]). exists [EvAbortSignal]. auto.
  - do 5 (split; [done|]). exists []. auto.
Qed.

(** X16: milestones are promoted in order, and only when solid.  A call of
    [solidifyMilestone] that returns leaves the solid milestone index as it
    was, or has moved it to the next index: a milestone with that index was
    known, the walk has left its tail marked solid, and the call has
    confirmed the milestone, stored it, announced the change and asked for
    a further attempt, in this order. *)
Theorem promotion_is_in_order (fuel : nat) (o o' : Oracle) (w : World)
    (msIndexEmptiedQueue : MilestoneIndex) (w' : World) :
  solidifyMilestone fuel o o' w msIndexEmptiedQueue = Returned tt w' →
  solidMilestoneIndex w' = solidMilestoneIndex w
  ∨ ∃ tail rest,
      milestones w !! (solidMilestoneIndex w + 1)%N = Some tail
      ∧ solidMilestoneIndex w' = (solidMilestoneIndex w + 1)%N
      ∧ cachedSolid w' tail = true
      ∧ trace w' = ([EvUnlock; EvTrySubmit 0;
                     EvSolidMilestoneChanged (solidMilestoneIndex w + 1);
                     EvStoreMilestone (solidMilestoneIndex w + 1);
                     EvConfirmMilestone (solidMilestoneIndex w + 1) tail] ++ rest)%list.
Proof.
  unfold solidifyMilestone, solidifyMilestonePreempt.
  destruct (_ && _); [intros [= <-]; by left|].
  destruct (solidifierLocked _); [done|].
  destruct (abortMilestoneSolidification_frame w) as (Hsmi & Hms & _).
  set (w1 := emit EvLock (setSolidifierLocked true (abortMilestoneSolidification w))).
  assert (solidMilestoneIndex w1 = solidMilestoneIndex w) as Hsmi1 by done.
  assert (milestones w1 = milestones w) as Hms1 by done.
  destruct (solidifyMilestoneLocked _ _ _ _) as [[] w2| | |] eqn:Hrun; [|done|done|done].
  cbn [deferUnlock]. intros [= <-].
  change (solidMilestoneIndex (emit EvUnlock (setSolidifierLocked false w2)))
    with (solidMilestoneIndex w2).
  rewrite <- Hsmi1.
  apply solidifyMilestoneLocked_Returned in Hrun
    as [->|(i & tail & solid & aborted & w4 & Hnext & Hwalk & Hcase)]; [by left|].
  pose proof (solidQueueCheck_events _ _ _ _ _ _ _ Hwalk) as (Hi4 & Hm4 & _).
  change (solidMilestoneIndex (attemptWorld w1 i tail)) with (solidMilestoneIndex w1) in Hi4.
  destruct Hcase as [(_ & ->)|[(_ & _ & w5 & -> & Hw5)|(-> & Hgap & ->)]].
  - by left.
  - left. destruct Hw5 as [->|(found & aborted' & Hs)]; [done|].
    apply searchMissingMilestone_Returned in Hs as (new & -> & _). done.
  - right. apply FindClosestNextMilestone_Some in Hnext as [Hlt Hin].
    assert (i = (solidMilestoneIndex w1 + 1)%N) as -> by lia.
    apply solidQueueCheck_true in Hwalk as (_ & _ & _ & Hsolid).
    exists tail. eexists. rewrite <- Hms1. split; [done|]. split; [done|]. split; [done|].
    cbn. reflexivity.
Qed.

(** ** The handle of the tail of an attempt *)

Lemma submitted_app (l1 l2 : list Event) :
  submitted (l1 ++ l2) = submitted l1 ⊎ submitted l2.
Proof.
  induction l1 as [|e l1 IH].
  { change (submitted l2 = ∅ ⊎ submitted l2). generalize (submitted l2). intros X.
    multiset_solver. }
  destruct e; try exact IH.
  change ({[+ h +]} ⊎ submitted (l1 ++ l2) = {[+ h +]} ⊎ submitted l1 ⊎ submitted l2).
  rewrite IH. generalize (submitted l1), (submitted l2). intros X Y. multiset_solver.
Qed.

Lemma submitted_searchEvents (w : World) (smi start : MilestoneIndex) (new : list Event) :
  Forall (searchEvent w smi start) new → submitted new = ∅.
Proof.
  induction 1 as [|e new He _ IH]; [done|].
  destruct He as [(t & -> & _)|(t & i & -> & _)]; exact IH.
Qed.

Lemma solidEvent_not_submission (new : list Event) (ms : MilestoneIndex) :
  Forall solidEvent new → EvTrySubmit ms ∉ new.
Proof.
  intros Hall Hin. apply (proj1 (Forall_forall _ _) Hall) in Hin as (h & [?|?]); done.
Qed.

Lemma searchEvent_not_submission (w : World) (smi start : MilestoneIndex)
    (new : list Event) (ms : MilestoneIndex) :
  Forall (searchEvent w smi start) new → EvTrySubmit ms ∉ new.
Proof.
  intros Hall Hin.
  apply (proj1 (Forall_forall _ _) Hall) in Hin as [(? & ? & _)|(? & ? & ? & _)]; done.
Qed.

(** The handles of an attempt that runs with [solidifierLock] held. *)
Lemma solidifyMilestoneLocked_handles (fuel : nat) (o o' : Oracle) (w w' : World) :
  solidifyMilestoneLocked fuel o o' w = Returned tt w' →
  ∃ new,
    trace w' = (new ++ trace w)%list
    ∧ ((consumers w' = consumers w ⊎ submitted new
        ∧ (EvTrySubmit 0 ∈ new → solidMilestoneIndex w' ≠ solidMilestoneIndex w))
       ∨ ∃ i tail,
           FindClosestNextMilestone w (solidMilestoneIndex w) = Some (i, tail)
           ∧ (solidMilestoneIndex w + 1 < i)%N
           ∧ EvTrySubmit 0 ∈ new
           ∧ solidMilestoneIndex w' = solidMilestoneIndex w
           ∧ consumers w' = consumers w ⊎ submitted new ⊎ {[+ tail +]}).
Proof.
  intros Hrun.
  apply solidifyMilestoneLocked_Returned in Hrun
    as [->|(i & tail & solid & aborted & w4 & Hnext & Hwalk & Hcase)].
  { exists []. split; [done|]. left. split; [cbn; clear; multiset_solver|].
    by intros ?%not_elem_of_nil. }
  pose proof (solidQueueCheck_accounted _ _ _ _ _ _ _ Hwalk) as (nw & Htr & Hc & _).
  pose proof (solidQueueCheck_events _ _ _ _ _ _ _ Hwalk) as (Hi4 & _ & nw' & Htr' & Hev).
  assert (nw' = nw) as -> by (rewrite Htr in Htr'; by apply app_inv_tail in Htr').
  change (trace (attemptWorld w i tail)) with (trace w) in Htr.
  change (consumers (attemptWorld w i tail)) with (consumers w ⊎ {[+ tail +]}) in Hc.
  change (solidMilestoneIndex (attemptWorld w i tail)) with (solidMilestoneIndex w) in Hi4.
  assert (EvTrySubmit 0 ∉ nw) as Hno.
  { destruct Hev as [Hall|[req ->]]; [by apply solidEvent_not_submission|]. set_solver. }
  destruct Hcase as [(_ & ->)|[(_ & Hgap & w5 & -> & Hw5)|(_ & Hgap & ->)]].
  - exists nw. split; [done|]. left. split; [|done].
    change (consumers w4 ∖ {[+ tail +]} = consumers w ⊎ submitted nw).
    rewrite Hc. clear. multiset_solver.
  - assert (∃ ns, w5 = searchedTo w4 ns ∧ submitted ns = ∅) as (ns & -> & Hns).
    { destruct Hw5 as [->|(found & aborted' & Hs)].
      - exists []. by rewrite searchedTo_nil.
      - apply searchMissingMilestone_Returned in Hs as (ns & -> & Hall & _).
        exists ns. split; [done|]. by eapply submitted_searchEvents. }
    exists (EvTrySubmit 0 :: ns ++ nw)%list. split.
    { cbn. rewrite Htr. by rewrite <- app_assoc. }
    right. exists i, tail. do 2 (split; [done|]). split; [set_solver|]. split; [done|].
    change (consumers w4 = consumers w ⊎ submitted (ns ++ nw) ⊎ {[+ tail +]}).
    rewrite submitted_app, Hns, Hc. clear. multiset_solver.
  - exists ([EvTrySubmit 0; EvSolidMilestoneChanged i; EvStoreMilestone i;
             EvConfirmMilestone i tail] ++ nw)%list.
    split; [cbn; by rewrite Htr|]. left. split.
    + change (consumers w4 ∖ {[+ tail +]} = consumers w ⊎ submitted nw).
      rewrite Hc. clear. multiset_solver.
    + intros _. cbn. apply FindClosestNextMilestone_Some in Hnext as [Hlt _]. lia.
Qed.

(** X17: the handle that [GetTail] gives to an attempt.  A call of
    [solidifyMilestone] that returns has given back every handle it took,
    but for those handed over to the future cone pool, when it has not
    asked for a further attempt and when it has promoted the milestone.
    When it has asked for a further attempt without promoting the
    milestone, which it does when the milestone is solid and is not the
    next in order, it has kept the handle of the tail: one reference more
    is left than the submissions account for. *)
Theorem attempt_handle_of_the_tail (fuel : nat) (o o' : Oracle) (w : World)
    (msIndexEmptiedQueue : MilestoneIndex) (w' : World) :
  solidifyMilestone fuel o o' w msIndexEmptiedQueue = Returned tt w' →
  ∃ new,
    trace w' = (new ++ trace w)%list
    ∧ ((consumers w' = consumers w ⊎ submitted new
        ∧ (EvTrySubmit 0 ∈ new → solidMilestoneIndex w' ≠ solidMilestoneIndex w))
       ∨ ∃ i tail,
           FindClosestNextMilestone w (solidMilestoneIndex w) = Some (i, tail)
           ∧ (solidMilestoneIndex w + 1 < i)%N
           ∧ EvTrySubmit 0 ∈ new
           ∧ solidMilestoneIndex w' = solidMilestoneIndex w
           ∧ consumers w' = consumers w ⊎ submitted new ⊎ {[+ tail +]}).
Proof.
  unfold solidifyMilestone, solidifyMilestonePreempt.
  destruct (_ && _).
  { intros [= <-]. exists []. split; [done|]. left. split; [cbn; clear; multiset_solver|].
    by intros ?%not_elem_of_nil. }
  destruct (solidifierLocked _); [done|].
  destruct (abortMilestoneSolidification_frame w)
    as (Hsmi & Hms & _ & Hcons & _ & pre & Hpre & Hpre').
  set (w1 := emit EvLock (setSolidifierLocked true (abortMilestoneSolidification w))).
  assert (solidMilestoneIndex w1 = solidMilestoneIndex w) as Hsmi1 by done.
  assert (consumers w1 = consumers w) as Hcons1 by done.
  assert (trace w1 = (EvLock :: pre ++ trace w)%list) as Htr1 by (cbn; by rewrite Hpre).
  assert (FindClosestNextMilestone w1 (solidMilestoneIndex w1)
          = FindClosestNextMilestone w (solidMilestoneIndex w)) as Hfind.
  { unfold FindClosestNextMilestone. change (milestones w1) with
      (milestones (abortMilestoneSolidification w)). by rewrite Hms, Hsmi1. }
  assert (submitted (EvLock :: pre) = ∅ ∧ EvTrySubmit 0 ∉ EvLock :: pre) as [Hsub Hnot].
  { destruct Hpre' as [->| ->]; (split; [done|set_solver]). }
  destruct (solidifyMilestoneLocked _ _ _ _) as [[] w2| | |] eqn:Hrun; [|done|done|done].
  cbn [deferUnlock]. intros [= <-].
  apply solidifyMilestoneLocked_handles in Hrun as (new & Htr & Hcase).
  exists (EvUnlock :: new ++ EvLock :: pre)%list. split.
  { cbn. rewrite Htr, Htr1. by rewrite <- app_assoc. }
  assert (submitted (EvUnlock :: new ++ EvLock :: pre) = submitted new) as Hsub'.
  { change (submitted (EvUnlock :: ?l)) with (submitted l).
    rewrite submitted_app, Hsub. clear. multiset_solver. }
  assert (EvTrySubmit 0 ∈ (EvUnlock :: new ++ EvLock :: pre)%list ↔ EvTrySubmit 0 ∈ new)
    as Hin.
  { rewrite elem_of_cons, elem_of_app. split; [|by auto].
    intros [?|[?|?]]; [done|done|]. by destruct Hnot. }
  rewrite Hsub'.
  change (consumers (emit EvUnlock (setSolidifierLocked false w2))) with (consumers w2).
  change (solidMilestoneIndex (emit EvUnlock (setSolidifierLocked false w2)))
    with (solidMilestoneIndex w2).
  rewrite <- Hfind, <- Hsmi1, <- Hcons1.
  destruct Hcase as [[Hc Hp]|(i & tail & ? & ? & ? & ? & ?)].
  - left. split; [done|]. intros ?%Hin. by apply Hp.
  - right. exists i, tail. do 2 (split; [done|]). split; [by apply Hin|done].
Qed.

(** ** The promotion of the next milestone *)

(** X18: [solidifyMilestone] promotes the next milestone when it can.  When
    the solidifier is idle, the milestone that follows the solid one is
    known, the cache is acyclic and holds the tail of the milestone and
    every approvee of its cone, and no abort signal is given, the call
    returns with the milestone promoted: the solid milestone index is the
    next index, the tail is marked solid, [solidifierMilestoneIndex] is 0
    again and [solidifierLock] is free. *)
Theorem next_milestone_is_promoted (fuel : nat) (o o' : Oracle) (w : World)
    (msIndexEmptiedQueue : MilestoneIndex) (tail : Hash) :
  solidifierMilestoneIndex w = 0%N → solidifierLocked w = false →
  solidMilestoneIndex w ≠ latestMilestoneIndex w ∨ latestMilestoneIndex w = 0%N →
  FindClosestNextMilestone w (solidMilestoneIndex w)
  = Some ((solidMilestoneIndex w + 1)%N, tail) →
  acyclic w → (walkFuel w ≤ fuel)%nat → is_Some (store w !! tail) →
  (∀ a, ¬ missing w tail a) → (∀ t, abortClosed o t = false) →
  ∃ w', solidifyMilestone fuel o o' w msIndexEmptiedQueue = Returned tt w'
        ∧ solidMilestoneIndex w' = (solidMilestoneIndex w + 1)%N
        ∧ cachedSolid w' tail = true
        ∧ solidifierMilestoneIndex w' = 0%N ∧ solidifierLocked w' = false.
Proof.
  intros Hidle Hfree Hlatest Hnext Hdag Hfuel Htail Hno Hab.
  unfold solidifyMilestone, solidifyMilestonePreempt. rewrite Hidle. cbn [N.eqb negb andb].
  set (w1 := emit EvLock (setSolidifierLocked true (abortMilestoneSolidification w))).
  assert (solidifierLocked (abortMilestoneSolidification w) = false) as ->
    by (unfold abortMilestoneSolidification; by destruct (signalChan w)).
  assert (store w1 = store w ∧ solidEntryPoints w1 = solidEntryPoints w
          ∧ milestones w1 = milestones w ∧ solidMilestoneIndex w1 = solidMilestoneIndex w
          ∧ latestMilestoneIndex w1 = latestMilestoneIndex w)
    as (Hst & Hsep & Hms & Hsmi & Hlat).
  { unfold w1, abortMilestoneSolidification. by destruct (signalChan w). }
  unfold solidifyMilestoneLocked.
  assert ((solidMilestoneIndex w1 =? latestMilestoneIndex w1)%N
          && negb (latestMilestoneIndex w1 =? 0)%N = false) as ->.
  { rewrite Hsmi, Hlat. destruct Hlatest as [Hne| ->].
    - apply N.eqb_neq in Hne. by rewrite Hne.
    - by rewrite andb_false_r. }
  assert (FindClosestNextMilestone w1 (solidMilestoneIndex w1)
          = Some ((solidMilestoneIndex w1 + 1)%N, tail)) as ->.
  { unfold FindClosestNextMilestone in *. by rewrite Hms, Hsmi. }
  set (i := (solidMilestoneIndex w1 + 1)%N).
  fold (attemptWorld w1 i tail).
  assert (store (attemptWorld w1 i tail) = store w) as Hst' by done.
  assert (solidEntryPoints (attemptWorld w1 i tail) = solidEntryPoints w) as Hsep' by done.
  destruct (solidQueueCheck_complete fuel o (attemptWorld w1 i tail) i tail)
    as (w4 & -> & Hsolid & Hadv); try done.
  - intros h. unfold approves. rewrite Hst'. apply Hdag.
  - unfold walkFuel in *. by rewrite Hst'.
  - by rewrite Hst'.
  - intros a Hm. apply (Hno a). by apply (missing_same (attemptWorld w1 i tail)).
  - cbn [negb]. rewrite N.ltb_irrefl. cbn [deferUnlock]. eexists. split; [done|].
    cbn. subst i. by rewrite Hsmi.
Qed.

(** ** What a walk marks *)

(** A walk marks transactions of the cone of the tail only. *)
Lemma solidQueueCheck_within (fuel : nat) (o : Oracle) (w : World)
    (ms : MilestoneIndex) (tail : Hash) (r : bool * bool) (w' : World) :
  solidQueueCheck fuel o w ms tail = Returned r w' →
  ∀ h, cachedSolid w h = false → cachedSolid w' h = true → reach w tail h.
Proof.
  destruct r as [solid aborted]. intros Hrun.
  apply solidQueueCheck_course in Hrun
    as [(_ & _ & ->)|(V & x & k1 & _ & Hk & _ & [(_ & _ & _ & ->)|(_ & _ & w2 & -> & Hph)])].
  - intros h ? ?. congruence.
  - intros h. change (cachedSolid (emit _ w) h) with (cachedSolid w h). congruence.
  - set (w0 := acquire tail w) in *.
    assert (∀ a y, y ∈ default ∅ (approvers k1 !! a) → y ∈ V) as HF2.
    { intros a y Hy. by destruct (col_approvers _ _ _ _ _ _ Hk a y Hy). }
    pose (Inv := λ (w1 : World) (k : Walk),
                   entryTxs k ⊆ V ∧ cursor k ⊆ entryTxs k ∧ approvers k = approvers k1
                   ∧ ∀ h, cachedSolid w0 h = false → cachedSolid w1 h = true → h ∈ V).
    assert (Inv w0 (walkPropagateInit k1)) as Hinit.
    { unfold Inv. cbn [walkPropagateInit entryTxs cursor approvers].
      split; [apply (col_entry _ _ _ _ _ _ Hk)|]. split; [set_solver|]. split; [done|].
      intros h ? ?. congruence. }
    assert (∀ w1 k h, Inv w1 k → Inv w1 (visitedSolid o k h)) as Hvisited.
    { intros w1 k h (He & Hc & Ha & Hin). unfold Inv.
      cbn [visitedSolid entryTxs cursor approvers]. rewrite Ha. split.
      { intros y [[Hy|Hy]%elem_of_union _]%elem_of_difference;
          [by apply (HF2 h)|by apply He]. }
      split; [|done].
      intros y. rewrite !elem_of_difference, !elem_of_union, elem_of_filter. set_solver. }
    assert (∀ w1 k h tx, Inv w1 k → h ∈ cursor k → store w1 !! h = Some tx →
                         txSolid tx = false → parentsSolid w1 tx →
                         Inv (markedSolid h w1) (visitedSolid o k h)) as Hmarked.
    { intros w1 k h tx Hk1 Hh Htx Hs Hpar.
      destruct (Hvisited w1 k h Hk1) as (He' & Hc' & Ha' & _).
      destruct Hk1 as (He & Hc & Ha & Hin).
      split; [done|]. split; [done|]. split; [done|].
      intros y Hy0. rewrite (cachedSolid_markedSolid _ _ _ _ Htx).
      destruct (decide (y = h)) as [->|Hne]; [intros _; set_solver|by apply Hin]. }
    assert (∀ w1 k h tx, Inv w1 k → h ∈ cursor k → store w1 !! h = Some tx →
                         txSolid tx = false → ¬ parentsSolid w1 tx →
                         Inv w1 (visitedNotSolid k h)) as Hnot.
    { intros w1 k h tx (He & Hc & Ha & Hin) Hh Htx Hs Hpar. unfold Inv.
      cbn [visitedNotSolid entryTxs cursor approvers].
      split; [done|]. split; [set_solver|]. done. }
    pose proof (propagate_rule Inv o fuel w0 (walkPropagateInit k1) Hinit
                  ltac:(by intros w1 k (He & Hc & Ha & Hin) _ _)
                  ltac:(intros; by apply Hvisited) Hmarked Hnot) as Hrule.
    assert (∃ k, Inv w2 k) as (k & _ & _ & _ & Hin).
    { destruct Hph as [(k2 & Heq & _)|(Heq & _)]; rewrite Heq in Hrule.
      - destruct Hrule as (k & Hk2 & _). by exists k.
      - destruct Hrule as [?|(w3 & k & Hk3 & [[[= <-] _]|(? & _ & _ & ?)])];
          [done|by exists k|done]. }
    intros h Hh0 Hh'. apply (reach_same w0); [done|done|].
    apply (col_reach _ _ _ _ _ _ Hk). apply elem_of_union_l. by apply Hin.
Qed.

(** X19: what a walk marks does not depend on the order in which the maps
    are ranged over.  A walk, however it returns, marks transactions of the
    cone of the tail only; and a walk that finds the milestone solid, the
    tail not having been marked before or the flags having been sound,
    leaves exactly those transactions marked solid that were so before or
    that belong to the cone of the tail. *)
Theorem walk_marks_the_cone (fuel : nat) (o : Oracle) (w : World)
    (ms : MilestoneIndex) (tail : Hash) (r : bool * bool) (w' : World) :
  solidQueueCheck fuel o w ms tail = Returned r w' →
  (∀ h, cachedSolid w h = false → cachedSolid w' h = true → reach w tail h)
  ∧ (r = (true, false) → cachedSolid w tail = false ∨ consistent w →
     ∀ h, cachedSolid w' h = true ↔ cachedSolid w h = true ∨ reach w tail h).
Proof.
  intros Hrun. pose proof (solidQueueCheck_within _ _ _ _ _ _ _ Hrun) as Hin.
  split; [done|]. intros -> Hhyp h.
  apply solidQueueCheck_true in Hrun as (_ & Hadv & _ & Htail). split.
  - intros Hh'. destruct (cachedSolid w h) eqn:Hh; [by left|right]. by apply Hin.
  - intros [Hh|Hr]; [by apply (advances_cachedSolid w)|by apply (advances_cone w w' tail)].
Qed.

(** ** The end of an attempt *)

(** X20: an attempt ends.  In an acyclic cache, a call of
    [solidifyMilestone] that finds [solidifierLock] free returns or panics
    within [walkFuel] turns of each loop of the walk and of the search,
    whatever the order in which the maps are ranged over and whenever the
    abort signal is given. *)
Theorem solidifyMilestone_terminates (fuel : nat) (o o' : Oracle) (w : World)
    (msIndexEmptiedQueue : MilestoneIndex) :
  acyclic w → (walkFuel w ≤ fuel)%nat → solidifierLocked w = false →
  terminated (solidifyMilestone fuel o o' w msIndexEmptiedQueue).
Proof.
  intros Hdag Hfuel Hfree. unfold solidifyMilestone, solidifyMilestonePreempt.
  destruct (_ && _); [done|].
  set (w1 := emit EvLock (setSolidifierLocked true (abortMilestoneSolidification w))).
  assert (solidifierLocked (abortMilestoneSolidification w) = false) as ->
    by (unfold abortMilestoneSolidification; by destruct (signalChan w)).
  assert (store w1 = store w) as Hst
    by (unfold w1, abortMilestoneSolidification; by destruct (signalChan w)).
  unfold solidifyMilestoneLocked.
  destruct (_ && _); [done|].
  destruct (FindClosestNextMilestone w1 (solidMilestoneIndex w1)) as [[i tail]|]; [|done].
  fold (attemptWorld w1 i tail). set (w3 := attemptWorld w1 i tail).
  assert (store w3 = store w) as Hst3 by done.
  assert (acyclic w3) as Hdag3 by (intros h; unfold approves; rewrite Hst3; apply Hdag).
  assert (walkFuel w3 = walkFuel w) as Hwf by (unfold walkFuel; by rewrite Hst3).
  destruct (store w3 !! tail) as [ttx|] eqn:Htail.
  - pose proof (solidQueueCheck_acyclic fuel o w3 i tail Hdag3 ltac:(eauto)) as Hres.
    destruct (solidQueueCheck fuel o w3 i tail) as [[solid aborted] w4| | |] eqn:Hwalk;
      [|done|done|lia].
    destruct solid; cbn [negb]; [|done].
    destruct (_ <? _)%N; [|done]. destruct (decide _); [|done].
    apply solidQueueCheck_true in Hwalk as (_ & Hadv & _).
    destruct (advances_flags_only _ _ Hadv) as [Hdom _].
    pose proof (searchMissingMilestone_ends fuel o' w4 (solidMilestoneIndex w1) i tail
                  maxMissingMilestoneSearchDepth) as Hs.
    destruct (searchMissingMilestone _ _ _ _ _ _ _) as [[found aborted'] w5| | |];
      [by destruct (_ && _)|done| |];
      apply Hs; rewrite Hdom, Hst3; unfold walkFuel in Hfuel; nia.
  - assert (solidQueueCheck fuel o w3 i tail = Panicked w3) as ->; [|done].
    unfold solidQueueCheck. change (store (acquire tail w3)) with (store w3).
    by rewrite Htail, release_acquire.
Qed.

(** ** A search that finds nothing *)





(** ** The further properties in the scenarios *)

Section further_scenario_proofs.
Local Open Scope string_scope.

Lemma chain_walk_result :
  solidQueueCheck 10 inOrder chainWorld 1 "T2" = Returned (true, false) chainWorldWalked.
Proof. vm_compute. reflexivity. Qed.

Lemma chain_attempt_result :
  solidifyMilestone 10 inOrder inOrder chainWorld 0 = Returned tt chainWorldPromoted.
Proof. vm_compute. reflexivity. Qed.

Lemma fork_walk_result :
  solidQueueCheck 10 inOrder forkWorld 1 "T"
  = Returned (false, false) (emit (EvRequestMulti ["B"] 1) forkWorld).
Proof. vm_compute. reflexivity. Qed.

Lemma fork_attempt_result :
  solidifyMilestone 10 inOrder inOrder forkWorld 0 = Returned tt forkWorldAttempted.
Proof. vm_compute. reflexivity. Qed.

Lemma gap_attempt_result :
  solidifyMilestone 10 inOrder inOrder gapWorld 0 = Returned tt gapWorldAttempted.
Proof. vm_compute. reflexivity. Qed.

Lemma chainWorld_acyclic : acyclic chainWorld.
Proof. apply (ranked_acyclic chainRank). vm_compute. reflexivity. Qed.

Lemma chainWorld_tail : is_Some (store chainWorld !! "T2").
Proof. exists (transaction "T1" "T1" true false). vm_compute. reflexivity. Qed.

Lemma gapWorld_tail : is_Some (store gapWorld !! "T6").
Proof. exists (transaction "A" "M4" true true). vm_compute. reflexivity. Qed.

Lemma forkWorld_missing : missing forkWorld "T" "B".
Proof.
  exists "T", (transaction "A" "B" true false).
  split; [constructor|]. split; [vm_compute; reflexivity|].
  split; [vm_compute; set_solver|]. split; [decide_by_compute|vm_compute; reflexivity].
Qed.

Lemma checkSolidity_settles_witness :
  checkSolidity (emit (EvTransactionSolid "T1") (setSolid "T1" chainWorld)) "T1" true
  = Returned (true, false) (emit (EvTransactionSolid "T1") (setSolid "T1" chainWorld)).
Proof.
  refine (proj1 (checkSolidity_settles chainWorld "T1" false true true
                   (emit (EvTransactionSolid "T1") (setSolid "T1" chainWorld)) _)).
  vm_compute. reflexivity.
Defined.

Lemma solid_flags_stay_sound_witness :
  consistent (emit (EvTransactionSolid "T1") (setSolid "T1" chainWorld))
  ∧ consistent chainWorldWalked.
Proof.
  assert (consistent chainWorld) as Hc
    by (apply consistentb_consistent; vm_compute; reflexivity).
  split.
  - refine (proj1 solid_flags_stay_sound chainWorld "T1" false (true, true) _ Hc _).
    vm_compute. reflexivity.
  - exact (proj2 solid_flags_stay_sound 10%nat inOrder chainWorld 1%N "T2" (true, false) _ Hc
             chain_walk_result).
Defined.

Lemma handles_are_given_back_witness :
  ∃ new, trace chainWorldWalked = (new ++ trace chainWorld)%list
         ∧ consumers chainWorldWalked = consumers chainWorld ⊎ submitted new
         ∧ ∀ h, multiplicity h (submitted new)
                = if nodeSynced chainWorld && negb (cachedSolid chainWorld h)
                     && cachedSolid chainWorldWalked h
                  then 1%nat else 0%nat.
Proof.
  exact (proj2 handles_are_given_back 10%nat inOrder chainWorld 1%N "T2" (true, false) _
           chain_walk_result).
Defined.

Lemma walk_sets_flags_only_witness :
  dom (store chainWorldWalked) = dom (store chainWorld)
  ∧ milestones chainWorldWalked = milestones chainWorld.
Proof.
  destruct (walk_sets_flags_only 10 inOrder chainWorld 1 "T2" (true, false) _
              chain_walk_result) as (Hdom & _ & _ & _ & Hms & _).
  by split.
Defined.

Lemma walk_says_solid_of_solid_cone_witness :
  cachedSolid chainWorldWalked "T2" = true
  ∧ cachedSolid chainWorldWalked "T1" = true.
Proof.
  destruct (walk_says_solid_of_solid_cone 10 inOrder chainWorld 1 "T2" false _
              chain_walk_result) as (_ & _ & Htail & Hcone).
  split; [done|]. apply Hcone; [by left|].
  apply (reach_step chainWorld "T2" "T2" (transaction "T1" "T1" true false) "T1").
  - constructor.
  - vm_compute. reflexivity.
  - vm_compute. set_solver.
  - decide_by_compute.
  - exists (transaction "E" "E" true false). vm_compute. reflexivity.
  - vm_compute. reflexivity.
Defined.

Lemma walk_finds_milestone_solid_witness :
  ∃ w', solidQueueCheck (walkFuel chainWorld) inOrder chainWorld 1 "T2"
        = Returned (true, false) w'
        ∧ cachedSolid w' "T2" = true ∧ advances chainWorld w'.
Proof.
  refine (walk_finds_milestone_solid (walkFuel chainWorld) inOrder chainWorld 1 "T2"
            chainWorld_acyclic (le_n _) chainWorld_tail _ _).
  - intros a. apply closedb_missing. vm_compute. reflexivity.
  - intros t. reflexivity.
Defined.

Lemma walk_in_acyclic_cache_witness :
  (∀ w', solidQueueCheck 10 inOrder chainWorld 1 "T2" ≠ Panicked w')
  ∧ (∀ w', solidQueueCheck 10 inOrder chainWorld 1 "T2" = Returned (false, false) w' →
           ∃ a, missing chainWorld "T2" a)
  ∧ (∀ solid w', solidQueueCheck 10 inOrder chainWorld 1 "T2" = Returned (solid, true) w' →
                 solid = false ∧ ∃ t, abortClosed inOrder t = true).
Proof.
  exact (walk_in_acyclic_cache 10 inOrder chainWorld 1 "T2" chainWorld_acyclic
           chainWorld_tail).
Defined.

Lemma search_registers_gap_milestones_witness :
  ∃ new,
    gapSearched gapWorld = searchedTo gapWorld new
    ∧ Forall (searchEvent gapWorld 3 6) new
    ∧ store (gapSearched gapWorld) = store gapWorld
    ∧ consumers (gapSearched gapWorld) = consumers gapWorld
    ∧ solidMilestoneIndex (gapSearched gapWorld) = solidMilestoneIndex gapWorld
    ∧ (false = true → true = false)
    ∧ (false = false → true = true ↔ ∃ t i, EvProcessValidMilestone t i ∈ new)
    ∧ (true = true →
       ∃ i, (3 < i)%N ∧ (i < 6)%N ∧ is_Some (milestones (gapSearched gapWorld) !! i)).
Proof.
  exact (search_registers_gap_milestones 10 inOrder gapWorld 3 6 "T6" 120000 true false _
           gap_search_result).
Defined.

Lemma searchMissingMilestone_terminates_witness :
  terminated (searchMissingMilestone (size (dom (store gapWorld)) + 2) inOrder gapWorld
                3 6 "T6" 120000).
Proof.
  exact (searchMissingMilestone_terminates _ inOrder gapWorld 3 6 "T6" 120000 (le_n _)).
Defined.

Lemma search_without_depth_witness :
  searchMissingMilestone 1 inOrder gapWorld 3 6 "T6" 0 = Returned (false, false) gapWorld.
Proof.
  refine (search_without_depth 1 inOrder gapWorld 3 6 "T6" 0 gapWorld_tail _ (le_n _)).
  reflexivity.
Defined.

Lemma abort_before_the_first_visit_witness :
  solidQueueCheck 1 (abortAt 0) chainWorld 1 "T2" = Returned (false, true) chainWorld
  ∧ searchMissingMilestone 1 (abortAt 0) gapWorld 3 6 "T6" 120000
    = Returned (false, true) gapWorld.
Proof.
  split.
  - exact (proj1 abort_before_the_first_visit 1%nat (abortAt 0) chainWorld 1%N "T2"
             chainWorld_tail eq_refl (le_n _)).
  - exact (proj2 abort_before_the_first_visit 1%nat (abortAt 0) gapWorld 3%N 6%N "T6" 120000%Z
             gapWorld_tail eq_refl eq_refl (le_n _)).
Defined.

Lemma attempt_leaves_solidifier_idle_witness :
  (solidifierLocked forkWorldAttempted = false
   ∧ (∃ rest, trace forkWorldAttempted = EvUnlock :: rest)
   ∧ (solidifierMilestoneIndex forkWorldAttempted = 0%N
      ∨ forkWorldAttempted
        = emit EvUnlock
            (setSolidifierLocked false
               (emit EvLock (setSolidifierLocked true forkWorld)))))
  ∧ solidifierLocked nonTailWorldPanicked = false
  ∧ ∃ rest, trace nonTailWorldPanicked = EvUnlock :: rest.
Proof.
  destruct (attempt_leaves_solidifier_idle 10 inOrder inOrder) as (Hret & Hpanic & _).
  split.
  - apply (Hret (emit EvLock (setSolidifierLocked true forkWorld)) forkWorldAttempted).
    vm_compute. reflexivity.
  - apply (Hpanic (emit EvLock (setSolidifierLocked true nonTailWorld))
             nonTailWorldPanicked).
    vm_compute. reflexivity.
Defined.

Lemma promotion_is_in_order_witness :
  solidMilestoneIndex chainWorldPromoted = solidMilestoneIndex chainWorld
  ∨ ∃ tail rest,
      milestones chainWorld !! (solidMilestoneIndex chainWorld + 1)%N = Some tail
      ∧ solidMilestoneIndex chainWorldPromoted = (solidMilestoneIndex chainWorld + 1)%N
      ∧ cachedSolid chainWorldPromoted tail = true
      ∧ trace chainWorldPromoted
        = ([EvUnlock; EvTrySubmit 0;
            EvSolidMilestoneChanged (solidMilestoneIndex chainWorld + 1);
            EvStoreMilestone (solidMilestoneIndex chainWorld + 1);
            EvConfirmMilestone (solidMilestoneIndex chainWorld + 1) tail] ++ rest)%list.
Proof.
  exact (promotion_is_in_order 10 inOrder inOrder chainWorld 0 _ chain_attempt_result).
Defined.

Lemma attempt_handle_of_the_tail_witness :
  ∃ new,
    trace gapWorldAttempted = (new ++ trace gapWorld)%list
    ∧ ((consumers gapWorldAttempted = consumers gapWorld ⊎ submitted new
        ∧ (EvTrySubmit 0 ∈ new →
           solidMilestoneIndex gapWorldAttempted ≠ solidMilestoneIndex gapWorld))
       ∨ ∃ i tail,
           FindClosestNextMilestone gapWorld (solidMilestoneIndex gapWorld) = Some (i, tail)
           ∧ (solidMilestoneIndex gapWorld + 1 < i)%N
           ∧ EvTrySubmit 0 ∈ new
           ∧ solidMilestoneIndex gapWorldAttempted = solidMilestoneIndex gapWorld
           ∧ consumers gapWorldAttempted
             = consumers gapWorld ⊎ submitted new ⊎ {[+ tail +]}).
Proof.
  exact (attempt_handle_of_the_tail 10 inOrder inOrder gapWorld 0 _ gap_attempt_result).
Defined.

Lemma walk_with_missing_approvee_marks_nothing_witness :
  false = false
  ∧ ((false = true ∧ emit (EvRequestMulti ["B"] 1) forkWorld = forkWorld)
     ∨ (false = false
        ∧ ∃ req : gset Hash,
            (∀ b, b ∈ req ↔ missing forkWorld "T" b)
            ∧ emit (EvRequestMulti ["B"] 1) forkWorld
              = emit (EvRequestMulti (elements req) 1) forkWorld)).
Proof.
  exact (walk_with_missing_approvee_marks_nothing 10 inOrder forkWorld 1 "T" "B"
           false false _ forkWorld_missing fork_walk_result).
Defined.

Lemma next_milestone_is_promoted_witness :
  ∃ w', solidifyMilestone (walkFuel chainWorld) inOrder inOrder chainWorld 0
        = Returned tt w'
        ∧ solidMilestoneIndex w' = (solidMilestoneIndex chainWorld + 1)%N
        ∧ cachedSolid w' "T2" = true
        ∧ solidifierMilestoneIndex w' = 0%N ∧ solidifierLocked w' = false.
Proof.
  refine (next_milestone_is_promoted (walkFuel chainWorld) inOrder inOrder chainWorld 0 "T2"
            eq_refl eq_refl _ _ chainWorld_acyclic (le_n _) chainWorld_tail _ _).
  - left. vm_compute. discriminate.
  - vm_compute. reflexivity.
  - intros a. apply closedb_missing. vm_compute. reflexivity.
  - intros t. reflexivity.
Defined.

Lemma walk_marks_the_cone_witness :
  (∀ h, cachedSolid chainWorld h = false → cachedSolid chainWorldWalked h = true →
        reach chainWorld "T2" h)
  ∧ ((true, false) = (true, false) →
     cachedSolid chainWorld "T2" = false ∨ consistent chainWorld →
     ∀ h, cachedSolid chainWorldWalked h = true
          ↔ cachedSolid chainWorld h = true ∨ reach chainWorld "T2" h).
Proof.
  exact (walk_marks_the_cone 10 inOrder chainWorld 1 "T2" (true, false) _
           chain_walk_result).
Defined.

Lemma solidifyMilestone_terminates_witness :
  terminated (solidifyMilestone (walkFuel gapWorld) inOrder inOrder gapWorld 0).
Proof.
  refine (solidifyMilestone_terminates (walkFuel gapWorld) inOrder inOrder gapWorld 0
            _ (le_n _) eq_refl).
  apply (ranked_acyclic gapRank). vm_compute. reflexivity.
Defined.




End further_scenario_proofs.
